(** * Content-aware file cache: a shallow embedding of
      content_aware_cache.h / content_aware_cache.cpp

    The development follows the C++ source class by class.

    - [size_t] values are integers in [Z]; every [size_t] operation of the
      source is followed by [size_t_wrap], its reduction modulo 2^64.
    - [float] values are real numbers ([R]): the scorer is embedded with
      exact arithmetic, [std::exp] as [exp] and [std::log2] as [ln x / ln 2],
      so the theorems on the scorer are bounds and weak inequalities,
      which rounding keeps; a strict inequality between two scores is a
      hypothesis, or a fact about sample entries. The hit rate, where the
      casts of the counters round, takes the rounding as an argument.
      Infinities and NaN are outside the model.
    - The [std::weak_ptr] from a handle to its cache is the boolean
      [cachePtr], what [cachePtr.lock()] gives; it comes from
      [weak_from_this()], which is empty unless a [std::shared_ptr] owns
      the cache ([weak_this], set by [make_shared]).
    - A [std::shared_ptr<CacheEntry>] is an index into an object store
      ([heap]); the entry map and the file handles hold such indices, so an
      entry that has left the map is still reachable from a handle, as in
      the source.
    - [std::chrono::system_clock::now()] is an argument [now] of every
      operation that reads the clock, in clock ticks of one nanosecond; the
      readings of one call are taken to be equal.
    - The filesystem is a finite map from paths to files together with the
      sets of paths that cannot be opened for reading or writing.
    - Operations that can leave the defined behaviour of C++, or not
      terminate, return an [outcome].

    The file commands of main.cpp (readFile, writeFile, appendFile) and
    the LRU cache that test_cache.cpp compares with are embedded as well,
    without the text they print.

    The file has the embedding first, then the predicates and the sample
    states the statements use, then the properties, one group for each
    operation. *)

From Stdlib Require Import ZArith Reals Lra Lia String Ascii.
From Stdlib Require Import Strings.Byte.
From stdpp Require Import gmap strings list fin_maps.

Local Open Scope string_scope.
Local Open Scope Z_scope.

(** * The embedding *)

(** ** Machine integers *)

Definition size_t_wrap (z : Z) : Z := z mod 2 ^ 64.

(** Conversion of a [long] to [size_t], as in [newPosition = offset]. *)
Definition size_t_of_long (z : Z) : Z := size_t_wrap z.

(** ** Outcomes of operations that may leave defined behaviour *)

Inductive failure : Type :=
| DivisionByZero   (* integer division by zero *)
| BufferOverrun    (* memcpy past the end of the vector *)
| NoProgress.      (* a loop that repeats without changing the state *)

Inductive outcome (A : Type) : Type :=
| Returns (a : A)
| Fails (f : failure).

Arguments Returns {A} a.
Arguments Fails {A} f.

Global Instance outcome_ret : MRet outcome := @Returns.

Global Instance outcome_bind : MBind outcome := λ A B k m,
  match m with
  | Returns a => k a
  | Fails f => Fails f
  end.

(** ** Strings *)

(** [s.find(c) != std::string::npos] *)
Fixpoint contains (c : ascii) (s : string) : bool :=
  match s with
  | EmptyString => false
  | String a r => Ascii.eqb a c || contains c r
  end.

(** The suffix of [s] that starts at the last occurrence of [c]. *)
Fixpoint suffix_from_last (c : ascii) (s : string) : option string :=
  match s with
  | EmptyString => None
  | String a r =>
      match suffix_from_last c r with
      | Some t => Some t
      | None => if Ascii.eqb a c then Some s else None
      end
  end.

(** [fs::path::filename] *)
Definition path_filename (p : string) : string :=
  match suffix_from_last "/" p with
  | Some (String _ r) => r
  | _ => p
  end.

(** [fs::path::extension]: the substring of the filename from its rightmost
    period, where a period in first position does not count and the
    filenames dot and dot-dot have no extension. *)
Definition path_extension (p : string) : string :=
  let f := path_filename p in
  if String.eqb f "." || String.eqb f ".." then ""
  else match f with
       | EmptyString => ""
       | String _ r =>
           match suffix_from_last "." r with
           | Some e => e
           | None => ""
           end
       end.

(** ** Data model (content_aware_cache.h) *)

Record FileMetadata : Type := mkFileMetadata {
  filePath : string;
  fileType : string;
  fileSize : Z;
  lastModified : Z
}.

Record AccessStats : Type := mkAccessStats {
  accessCount : Z;
  lastAccessed : Z
}.

Record CacheEntry : Type := mkCacheEntry {
  metadata : FileMetadata;
  stats : AccessStats;
  data : list byte;
  priorityScore : R
}.

(** [CacheEntry::CacheEntry(meta)]: the statistics are default constructed,
    which reads the clock; the buffer is empty and the score is [0.0f]. *)
Definition newCacheEntry (now : Z) (meta : FileMetadata) : CacheEntry :=
  {| metadata := meta;
     stats := {| accessCount := 0; lastAccessed := now |};
     data := [];
     priorityScore := 0%R |}.

Definition getMemoryUsage (e : CacheEntry) : Z := Z.of_nat (length (data e)).

(** A file handle. [entry] is the shared pointer to the entry. [cachePtr]
    is the weak pointer to the cache, as what [cachePtr.lock()] gives:
    [false] for a pointer that is empty, because no shared pointer owned
    the cache that made the handle, or that has expired, because the cache
    has been destroyed. *)
Record CacheFile : Type := mkCacheFile {
  entry : nat;
  position : Z;
  mode : string;
  modified : bool;
  cachePtr : bool
}.

(** [CacheFile::CacheFile(entry, mode, cache)] *)
Definition newCacheFile (e : nat) (m : string) (cache : bool) : CacheFile :=
  {| entry := e; position := 0; mode := m; modified := false; cachePtr := cache |}.

(** The cache manager. [lruMap] of the source indexes the nodes of
    [lruList] by path: a path is a key of [lruMap] exactly when it occurs
    in [lruList], so the list alone represents both. [weak_this] is the
    member the class inherits from [std::enable_shared_from_this]: whether
    a shared pointer owns the object, which is what [weak_from_this()]
    hands to a new handle. *)
Record ContentAwareCache : Type := mkCache {
  maxCacheSize : Z;
  currentCacheSize : Z;
  cacheMap : gmap string nat;
  lruList : list string;
  cacheHits : Z;
  cacheMisses : Z;
  diskReads : Z;
  diskWrites : Z;
  fileTypePriorities : gmap string R;
  weak_this : bool
}.

(** ** The environment: backing files *)

Record File : Type := mkFile {
  content : list byte;
  written_at : Z
}.

Record FileSystem : Type := mkFileSystem {
  files : gmap string File;
  read_denied : gset string;
  write_denied : gset string
}.

(** The whole state: the cache object, the entries it and the handles
    point to, and the disk. *)
Record World : Type := mkWorld {
  cache : ContentAwareCache;
  heap : list CacheEntry;
  disk : FileSystem
}.

Global Instance CacheEntry_inhabited : Inhabited CacheEntry :=
  populate (newCacheEntry 0 (mkFileMetadata "" "" 0 0)).

(** Dereference of a shared pointer. *)
Definition deref (w : World) (e : nat) : CacheEntry := heap w !!! e.

(** *** Field updates *)

Definition with_cache (f : ContentAwareCache → ContentAwareCache) (w : World) : World :=
  {| cache := f (cache w); heap := heap w; disk := disk w |}.

Definition with_heap (f : list CacheEntry → list CacheEntry) (w : World) : World :=
  {| cache := cache w; heap := f (heap w); disk := disk w |}.

Definition with_disk (f : FileSystem → FileSystem) (w : World) : World :=
  {| cache := cache w; heap := heap w; disk := f (disk w) |}.

Definition set_maxCacheSize (v : Z) (c : ContentAwareCache) : ContentAwareCache :=
  mkCache v (currentCacheSize c) (cacheMap c) (lruList c) (cacheHits c)
    (cacheMisses c) (diskReads c) (diskWrites c) (fileTypePriorities c) (weak_this c).

Definition set_currentCacheSize (v : Z) (c : ContentAwareCache) : ContentAwareCache :=
  mkCache (maxCacheSize c) v (cacheMap c) (lruList c) (cacheHits c)
    (cacheMisses c) (diskReads c) (diskWrites c) (fileTypePriorities c) (weak_this c).

Definition set_cacheMap (v : gmap string nat) (c : ContentAwareCache) : ContentAwareCache :=
  mkCache (maxCacheSize c) (currentCacheSize c) v (lruList c) (cacheHits c)
    (cacheMisses c) (diskReads c) (diskWrites c) (fileTypePriorities c) (weak_this c).

Definition set_lruList (v : list string) (c : ContentAwareCache) : ContentAwareCache :=
  mkCache (maxCacheSize c) (currentCacheSize c) (cacheMap c) v (cacheHits c)
    (cacheMisses c) (diskReads c) (diskWrites c) (fileTypePriorities c) (weak_this c).

Definition set_cacheHits (v : Z) (c : ContentAwareCache) : ContentAwareCache :=
  mkCache (maxCacheSize c) (currentCacheSize c) (cacheMap c) (lruList c) v
    (cacheMisses c) (diskReads c) (diskWrites c) (fileTypePriorities c) (weak_this c).

Definition set_cacheMisses (v : Z) (c : ContentAwareCache) : ContentAwareCache :=
  mkCache (maxCacheSize c) (currentCacheSize c) (cacheMap c) (lruList c) (cacheHits c)
    v (diskReads c) (diskWrites c) (fileTypePriorities c) (weak_this c).

Definition set_diskReads (v : Z) (c : ContentAwareCache) : ContentAwareCache :=
  mkCache (maxCacheSize c) (currentCacheSize c) (cacheMap c) (lruList c) (cacheHits c)
    (cacheMisses c) v (diskWrites c) (fileTypePriorities c) (weak_this c).

Definition set_diskWrites (v : Z) (c : ContentAwareCache) : ContentAwareCache :=
  mkCache (maxCacheSize c) (currentCacheSize c) (cacheMap c) (lruList c) (cacheHits c)
    (cacheMisses c) (diskReads c) v (fileTypePriorities c) (weak_this c).

Definition set_fileTypePriorities (v : gmap string R) (c : ContentAwareCache) : ContentAwareCache :=
  mkCache (maxCacheSize c) (currentCacheSize c) (cacheMap c) (lruList c) (cacheHits c)
    (cacheMisses c) (diskReads c) (diskWrites c) v (weak_this c).

Definition set_weak_this (v : bool) (c : ContentAwareCache) : ContentAwareCache :=
  mkCache (maxCacheSize c) (currentCacheSize c) (cacheMap c) (lruList c) (cacheHits c)
    (cacheMisses c) (diskReads c) (diskWrites c) (fileTypePriorities c) v.

Definition set_priorityScore (s : R) (e : CacheEntry) : CacheEntry :=
  {| metadata := metadata e; stats := stats e; data := data e; priorityScore := s |}.

Definition set_data (d : list byte) (e : CacheEntry) : CacheEntry :=
  {| metadata := metadata e; stats := stats e; data := d; priorityScore := priorityScore e |}.

Definition set_stats (s : AccessStats) (e : CacheEntry) : CacheEntry :=
  {| metadata := metadata e; stats := s; data := data e; priorityScore := priorityScore e |}.

(** ** ContentAwareCache::ContentAwareCache *)

Definition default_priorities : gmap string R :=
  list_to_map
    [ (".txt", 0.7%R); (".cfg", 0.9%R); (".conf", 0.9%R); (".ini", 0.9%R);
      (".log", 0.6%R); (".json", 0.8%R); (".xml", 0.8%R); (".cpp", 0.7%R);
      (".h", 0.7%R); (".c", 0.7%R); (".py", 0.7%R); (".jpg", 0.4%R);
      (".png", 0.4%R); (".pdf", 0.3%R); (".exe", 0.1%R); (".so", 0.1%R);
      (".dll", 0.1%R) ].

Definition newContentAwareCache (maxSize : Z) : ContentAwareCache :=
  {| maxCacheSize := maxSize;
     currentCacheSize := 0;
     cacheMap := ∅;
     lruList := [];
     cacheHits := 0;
     cacheMisses := 0;
     diskReads := 0;
     diskWrites := 0;
     fileTypePriorities := default_priorities;
     weak_this := false |}.

(** [std::make_shared<ContentAwareCache>(maxSize)]: the shared pointer that
    takes the new object sets its [weak_this]. *)
Definition make_shared (maxSize : Z) : ContentAwareCache :=
  set_weak_this true (newContentAwareCache maxSize).

(** ** ContentAwareCache::getFileMetadata *)

(** [fs::file_size] and [fs::last_write_time] throw for a path that does
    not exist; the handler sets the size to 0 and the time to the clock. *)
Definition getFileMetadata (now : Z) (fsys : FileSystem) (path : string) : FileMetadata :=
  match files fsys !! path with
  | Some f =>
      {| filePath := path; fileType := path_extension path;
         fileSize := Z.of_nat (length (content f)); lastModified := written_at f |}
  | None =>
      {| filePath := path; fileType := path_extension path;
         fileSize := 0; lastModified := now |}
  end.

(** ** ContentAwareCache::calculatePriorityScore *)

(** [duration_cast<seconds>(now - lastAccessed).count()]: truncation
    towards zero of a difference of nanosecond ticks. *)
Definition seconds_since (now last : Z) : Z := Z.quot (now - last) 1000000000.

Definition log2f (x : R) : R := (ln x / ln 2)%R.

Definition calculatePriorityScore (priorities : gmap string R) (now : Z)
    (e : CacheEntry) : R :=
  let typePriority := default 0.5%R (priorities !! fileType (metadata e)) in
  let sizeScore :=
    if fileSize (metadata e) >? 1024
    then Rmin 1 (10240 / IZR (fileSize (metadata e)))
    else 1%R in
  let accessScore :=
    (0.1 + Rmin 0.9 (log2f (1 + IZR (accessCount (stats e))) / 10))%R in
  let duration := seconds_since now (lastAccessed (stats e)) in
  let recencyScore := exp (IZR (- duration) / 3600) in
  (typePriority * 0.3 + sizeScore * 0.2 + accessScore * 0.3 + recencyScore * 0.2)%R.

(** ** ContentAwareCache::updateLRU *)

(** The node of [path], if there is one, is unlinked and a new node is
    pushed at the front. *)
Definition updateLRU (path : string) (c : ContentAwareCache) : ContentAwareCache :=
  set_lruList (path :: filter (λ p, p ≠ path) (lruList c)) c.

(** ** ContentAwareCache::findEntryForEviction *)

(** [std::numeric_limits<float>::max()] *)
Definition FLT_MAX : R := ((2 - / 2 ^ 23) * 2 ^ 127)%R.

(** The loop over the map: [entries] is the sequence in which the
    unordered map is iterated, each path with the score of its entry. *)
Fixpoint scanForLowest (entries : list (string * R)) (candidatePath : string)
    (lowestScore : R) : string * R :=
  match entries with
  | [] => (candidatePath, lowestScore)
  | (path, score) :: rest =>
      if Rlt_dec score lowestScore
      then scanForLowest rest path score
      else scanForLowest rest candidatePath lowestScore
  end.

(** [lruList.back()] of a non-empty list *)
Definition lru_back (l : list string) : string := default "" (last l).

Definition selectVictim (entries : list (string * R)) (lru : list string) : string :=
  let candidatePath := (scanForLowest entries "" FLT_MAX).1 in
  if bool_decide (candidatePath = "") && negb (bool_decide (lru = []))
  then lru_back lru
  else candidatePath.

(** The paths of the map with the scores of their entries, in the
    iteration order of the map. *)
Definition scored_entries (w : World) : list (string * R) :=
  (λ kv, (kv.1, priorityScore (deref w kv.2))) <$> map_to_list (cacheMap (cache w)).

Definition findEntryForEviction (w : World) : string :=
  if bool_decide (cacheMap (cache w) = ∅) then ""
  else selectVictim (scored_entries w) (lruList (cache w)).

(** ** ContentAwareCache::evictFile *)

Definition evictFile (path : string) (w : World) : World :=
  match cacheMap (cache w) !! path with
  | None => w
  | Some e =>
      with_cache (λ c,
        set_cacheMap (delete path (cacheMap c))
          (set_lruList (filter (λ p, p ≠ path) (lruList c))
             (set_currentCacheSize
                (size_t_wrap (currentCacheSize c - getMemoryUsage (deref w e))) c))) w
  end.

(** ** ContentAwareCache::updateEntryScore and updateAllScores *)

Definition rescore (priorities : gmap string R) (now : Z) (e : CacheEntry) : CacheEntry :=
  set_priorityScore (calculatePriorityScore priorities now e) e.

Definition updateEntryScore (now : Z) (path : string) (w : World) : World :=
  match cacheMap (cache w) !! path with
  | Some e => with_heap (alter (rescore (fileTypePriorities (cache w)) now) e) w
  | None => w
  end.

Definition updateAllScores (now : Z) (w : World) : World :=
  with_heap (λ h,
    foldl (λ h kv, alter (rescore (fileTypePriorities (cache w)) now) kv.2 h) h
      (map_to_list (cacheMap (cache w)))) w.

(** ** ContentAwareCache::makeRoomInCache *)

Definition over_budget (requiredSize : Z) (w : World) : bool :=
  size_t_wrap (currentCacheSize (cache w) + requiredSize) >? maxCacheSize (cache w).

(** The eviction loop. An iteration whose victim is not in the map leaves
    the state as it was, and the source then repeats it for ever; every
    other iteration removes one entry. With as much fuel as the map has
    entries, running out of fuel is therefore the same as not terminating. *)
Fixpoint evictionLoop (fuel : nat) (requiredSize : Z) (w : World) : outcome World :=
  if over_budget requiredSize w && negb (bool_decide (cacheMap (cache w) = ∅)) then
    let victimPath := findEntryForEviction w in
    if bool_decide (victimPath = "") then Returns w
    else match fuel with
         | O => Fails NoProgress
         | S n => evictionLoop n requiredSize (evictFile victimPath w)
         end
  else Returns w.

Definition makeRoomInCache (now : Z) (requiredSize : Z) (w : World) : outcome World :=
  if negb (over_budget requiredSize w) then Returns w
  else
    w1 ← evictionLoop (size (cacheMap (cache w))) requiredSize (updateAllScores now w);
    if over_budget requiredSize w1
    then Returns (with_cache (λ c,
           set_maxCacheSize (size_t_wrap (currentCacheSize c + requiredSize)) c) w1)
    else Returns w1.

(** ** ContentAwareCache::loadFileIntoCache *)

(** The result is the [bool] of the source. The opening of the stream
    fails for a path in [read_denied]. *)
Definition loadFileIntoCache (now : Z) (path : string) (w : World) : outcome (bool * World) :=
  let meta := getFileMetadata now (disk w) path in
  if fileSize meta =? 0 then Returns (false, w)
  else
    w1 ← makeRoomInCache now (fileSize meta) w;
    if bool_decide (path ∈ read_denied (disk w1)) then Returns (false, w1)
    else
      let bytes := default [] (content <$> files (disk w1) !! path) in
      let e := length (heap w1) in
      let ent := set_data bytes (newCacheEntry now meta) in
      let w2 := with_heap (λ h, (h ++ [ent])%list) w1 in
      let w3 := with_cache (λ c,
                  set_diskReads (size_t_wrap (diskReads c + 1))
                    (updateLRU path
                       (set_currentCacheSize (size_t_wrap (currentCacheSize c + fileSize meta))
                          (set_cacheMap (<[path := e]> (cacheMap c)) c)))) w2 in
      let w4 := with_heap (alter (rescore (fileTypePriorities (cache w3)) now) e) w3 in
      Returns (true, w4).

(** ** ContentAwareCache::openFile *)

(** [None] is the null pointer of the source. *)
Definition openFile (now : Z) (path mode : string) (w : World)
    : outcome (option CacheFile * World) :=
  match cacheMap (cache w) !! path with
  | Some e =>
      Returns (Some (newCacheFile e mode (weak_this (cache w))),
               with_cache (λ c, updateLRU path
                 (set_cacheHits (size_t_wrap (cacheHits c + 1)) c)) w)
  | None =>
      let w1 := with_cache (λ c, set_cacheMisses (size_t_wrap (cacheMisses c + 1)) c) w in
      if contains "r" mode && negb (bool_decide (is_Some (files (disk w1) !! path)))
      then Returns (None, w1)
      else if contains "w" mode then
        let meta0 := getFileMetadata now (disk w1) path in
        let meta := mkFileMetadata (filePath meta0) (fileType meta0) 0 (lastModified meta0) in
        let e := length (heap w1) in
        let w2 := with_heap (λ h, (h ++ [newCacheEntry now meta])%list) w1 in
        let w3 := with_cache (λ c, updateLRU path
                    (set_cacheMap (<[path := e]> (cacheMap c)) c)) w2 in
        Returns (Some (newCacheFile e mode (weak_this (cache w))), w3)
      else
        '(loaded, w2) ← loadFileIntoCache now path w1;
        if (loaded : bool)
        then Returns ((λ e, newCacheFile e mode (weak_this (cache w2)))
                        <$> cacheMap (cache w2) !! path, w2)
        else Returns (None, w2)
  end.

(** ** CacheFile *)

Definition set_position (p : Z) (f : CacheFile) : CacheFile :=
  {| entry := entry f; position := p; mode := mode f; modified := modified f;
     cachePtr := cachePtr f |}.

Definition set_modified (b : bool) (f : CacheFile) : CacheFile :=
  {| entry := entry f; position := position f; mode := mode f; modified := b;
     cachePtr := cachePtr f |}.

(** The handle once its cache has been destroyed: the weak pointer has
    expired. *)
Definition expire (f : CacheFile) : CacheFile :=
  {| entry := entry f; position := position f; mode := mode f; modified := modified f;
     cachePtr := false |}.

Definition data_size (w : World) (f : CacheFile) : Z :=
  Z.of_nat (length (data (deref w (entry f)))).

(** *** CacheFile::read

    The result is the returned item count, the bytes copied into the
    caller's buffer and the handle. The copy is checked against the end of
    the vector and the final division against zero: both are undefined
    behaviour in the source. *)
Definition read (size count : Z) (f : CacheFile) (w : World)
    : outcome (Z * list byte * CacheFile) :=
  if negb (contains "r" (mode f)) then Returns (0, [], f)
  else
    let bytesToRead := size_t_wrap (size * count) in
    let bytesAvailable := size_t_wrap (data_size w f - position f) in
    let bytesToCopy := Z.min bytesToRead bytesAvailable in
    if (bytesToCopy >? 0) && (position f + bytesToCopy >? data_size w f)
    then Fails BufferOverrun
    else
      let copied :=
        if bytesToCopy >? 0
        then take (Z.to_nat bytesToCopy) (drop (Z.to_nat (position f)) (data (deref w (entry f))))
        else [] in
      let f' :=
        if bytesToCopy >? 0
        then set_position (size_t_wrap (position f + bytesToCopy)) f
        else f in
      if size =? 0 then Fails DivisionByZero
      else Returns (bytesToCopy / size, copied, f').

(** *** CacheFile::write *)

(** [std::memcpy(data.data() + pos, buffer, n)] *)
Definition memcpy_into (pos n : Z) (buffer : list byte) (d : list byte) : list byte :=
  (take (Z.to_nat pos) d ++ take (Z.to_nat n) buffer ++ drop (Z.to_nat (pos + n)) d)%list.

(** The block of [write] that grows the buffer up to [newEnd], the value
    of [position + bytesToWrite], under the lock of the cache. It does so
    only when [cachePtr.lock()] gives the cache: otherwise the buffer is
    left as it is. *)
Definition growBuffer (now : Z) (newEnd : Z) (f : CacheFile) (w : World) : outcome World :=
  if newEnd >? data_size w f then
    if cachePtr f then
      let oldSize := data_size w f in
      let newSize := newEnd in
      let additionalSpace := size_t_wrap (newSize - oldSize) in
      w' ← makeRoomInCache now additionalSpace w;
      Returns
        (with_cache (λ c,
           set_currentCacheSize (size_t_wrap (currentCacheSize c + additionalSpace)) c)
           (with_heap
              (alter (λ e, set_data (resize (Z.to_nat newSize) "000"%byte (data e)) e)
                 (entry f)) w'))
    else Returns w
  else Returns w.

(** [buffer] is the object the caller's pointer designates. Reading more
    bytes than it has, or writing past the end of the vector, is undefined
    behaviour. *)
Definition write (now : Z) (buffer : list byte) (size count : Z) (f : CacheFile)
    (w : World) : outcome (Z * CacheFile * World) :=
  if negb (contains "w" (mode f)) && negb (contains "a" (mode f)) then Returns (0, f, w)
  else
    let bytesToWrite := size_t_wrap (size * count) in
    let pos :=
      if contains "a" (mode f) && negb (position f =? data_size w f)
      then data_size w f else position f in
    w1 ← growBuffer now (size_t_wrap (pos + bytesToWrite)) f w;
    if (pos + bytesToWrite >? data_size w1 f)
       || (bytesToWrite >? Z.of_nat (length buffer))
    then Fails BufferOverrun
    else
      Returns (count,
               set_modified true (set_position (size_t_wrap (pos + bytesToWrite)) f),
               with_heap
                 (alter (λ e, set_data (memcpy_into pos bytesToWrite buffer (data e)) e)
                    (entry f)) w1).

(** *** CacheFile::seek *)

Definition SEEK_SET : Z := 0.
Definition SEEK_CUR : Z := 1.
Definition SEEK_END : Z := 2.

Definition seek (offset origin : Z) (f : CacheFile) (w : World) : Z * CacheFile :=
  let newPosition :=
    if origin =? SEEK_SET then Some (size_t_of_long offset)
    else if origin =? SEEK_CUR then Some (size_t_wrap (position f + offset))
    else if origin =? SEEK_END then Some (size_t_wrap (data_size w f + offset))
    else None in
  match newPosition with
  | None => (-1, f)
  | Some p => if p >? data_size w f then (-1, f) else (0, set_position p f)
  end.

(** *** CacheFile::tell *)

Definition long_of_size_t (z : Z) : Z := if z <? 2 ^ 63 then z else z - 2 ^ 64.

Definition tell (f : CacheFile) : Z := long_of_size_t (position f).

(** *** CacheFile::flush *)

(** Writing [d] to [path] through a [std::ofstream]; [None] when the
    stream cannot be opened. *)
Definition write_back (now : Z) (path : string) (d : list byte) (fsys : FileSystem)
    : option FileSystem :=
  if bool_decide (path ∈ write_denied fsys) then None
  else Some {| files := <[path := {| content := d; written_at := now |}]> (files fsys);
               read_denied := read_denied fsys;
               write_denied := write_denied fsys |}.

(** A stream that has been opened takes the whole buffer: the filesystem
    has no other failure than that of opening a path. The counter is
    touched only when [cachePtr.lock()] gives the cache. *)
Definition flushFile (now : Z) (f : CacheFile) (w : World) : Z * CacheFile * World :=
  if negb (modified f) then (0, f, w)
  else
    let e := deref w (entry f) in
    match write_back now (filePath (metadata e)) (data e) (disk w) with
    | None => (-1, f, w)
    | Some d =>
        (0, set_modified false f,
         if cachePtr f
         then with_cache (λ c, set_diskWrites (size_t_wrap (diskWrites c + 1)) c)
                (with_disk (λ _, d) w)
         else with_disk (λ _, d) w)
    end.

(** *** CacheFile::~CacheFile and ContentAwareCache::closeFile *)

(** The statistics are updated, and the score with them, only when
    [cachePtr.lock()] gives the cache. *)
Definition destroyFile (now : Z) (f : CacheFile) (w : World) : World :=
  let w1 := if modified f then (flushFile now f w).2 else w in
  if cachePtr f then
    let w2 := with_heap
                (alter (λ e, set_stats
                               {| accessCount := size_t_wrap (accessCount (stats e) + 1);
                                  lastAccessed := now |} e) (entry f)) w1 in
    updateEntryScore now (filePath (metadata (deref w2 (entry f)))) w2
  else w1.

Definition closeFile (now : Z) (file : option CacheFile) (w : World) : bool * World :=
  match file with
  | Some f => (true, destroyFile now f w)
  | None => (false, w)
  end.

(** ** ContentAwareCache::flush *)

Definition flushEntry (now : Z) (w : World) (kv : string * nat) : World :=
  let e := deref w kv.2 in
  match write_back now (filePath (metadata e)) (data e) (disk w) with
  | None => w
  | Some d =>
      with_cache (λ c, set_diskWrites (size_t_wrap (diskWrites c + 1)) c)
        (with_disk (λ _, d) w)
  end.

Definition flush (now : Z) (w : World) : World :=
  foldl (flushEntry now) w (map_to_list (cacheMap (cache w))).

(** ** ContentAwareCache::resizeCache *)

Definition resizeCache (now : Z) (newMaxSize : Z) (w : World) : outcome World :=
  w1 ← (if newMaxSize <? maxCacheSize (cache w)
        then makeRoomInCache now (size_t_wrap (maxCacheSize (cache w) - newMaxSize)) w
        else Returns w);
  Returns (with_cache (set_maxCacheSize newMaxSize) w1).

(** ** ContentAwareCache::setFileTypePriority *)

(** A dot is put in front of a non-empty extension that does not start
    with one. *)
Definition dotted (extension : string) : string :=
  match extension with
  | EmptyString => extension
  | String c _ => if Ascii.eqb c "." then extension else String "." extension
  end.

(** [std::max(0.0f, std::min(1.0f, priority))] *)
Definition clamp01 (priority : R) : R := Rmax 0 (Rmin 1 priority).

Definition rescoreIfType (priorities : gmap string R) (now : Z) (ext : string)
    (h : list CacheEntry) (kv : string * nat) : list CacheEntry :=
  if bool_decide (fileType (metadata (h !!! kv.2)) = ext)
  then alter (rescore priorities now) kv.2 h
  else h.

Definition setFileTypePriority (now : Z) (extension : string) (priority : R)
    (w : World) : World :=
  let ext := dotted extension in
  let w1 := with_cache (λ c,
              set_fileTypePriorities (<[ext := clamp01 priority]> (fileTypePriorities c)) c) w in
  with_heap (λ h,
    foldl (rescoreIfType (fileTypePriorities (cache w1)) now ext) h
      (map_to_list (cacheMap (cache w1)))) w1.

(** ** Observers *)

Definition getCacheSize (w : World) : Z := currentCacheSize (cache w).

Definition getCacheEntryCount (w : World) : Z := Z.of_nat (size (cacheMap (cache w))).

Definition getDiskReadCount (w : World) : Z := diskReads (cache w).

Definition getDiskWriteCount (w : World) : Z := diskWrites (cache w).

(** ** ContentAwareCache::getHitRate *)

(** The two counters are cast to [float] and the quotient is a [float]:
    [to_float] is the rounding of a real number to a [float], applied to
    each cast and to the quotient. *)
Definition getHitRate (to_float : R → R) (w : World) : R :=
  let totalAccesses := size_t_wrap (cacheHits (cache w) + cacheMisses (cache w)) in
  if totalAccesses =? 0 then 0%R
  else to_float (to_float (IZR (cacheHits (cache w))) / to_float (IZR totalAccesses))%R.

(** A fresh cache over a disk, with no entries and no handles, made with
    [std::make_shared] as main.cpp and test_cache.cpp make theirs. *)
Definition initial_world (maxSize : Z) (d : FileSystem) : World :=
  {| cache := make_shared maxSize; heap := []; disk := d |}.

(** ** main.cpp: the file commands of the shell

    The three commands open a handle, use it once and close it. The
    messages and the timing they print are left out: the result is what the
    message reports, the content read or the count [write] returned, and
    [None] where the source prints that the file could not be opened. The
    calls of one command read the clock one after the other. *)

(** The loop of [readFile]: chunks of [bufferSize] = 4096 bytes are read
    and appended to [content] until a read returns 0. A read that returns a
    positive count moves the cursor forward, so the loop goes round at most
    once for each byte of the buffer and once more. *)
Fixpoint readChunks (fuel : nat) (f : CacheFile) (w : World) (content : list byte)
    : outcome (list byte * CacheFile) :=
  '(bytesRead, buffer, f') ← read 1 4096 f w;
  if bytesRead >? 0 then
    match fuel with
    | O => Fails NoProgress
    | S n => readChunks n f' w (content ++ take (Z.to_nat bytesRead) buffer)%list
    end
  else Returns (content, f').

Definition readFile (opened closed : Z) (filename : string) (w : World)
    : outcome (option (list byte) * World) :=
  '(file, w1) ← openFile opened filename "r" w;
  match file with
  | None => Returns (None, w1)
  | Some f =>
      '(content, f') ← readChunks (S (Z.to_nat (data_size w1 f))) f w1 [];
      Returns (Some content, (closeFile closed (Some f') w1).2)
  end.

Definition writeFile (opened written closed : Z) (filename : string)
    (content : list byte) (w : World) : outcome (option Z * World) :=
  '(file, w1) ← openFile opened filename "w" w;
  match file with
  | None => Returns (None, w1)
  | Some f =>
      '(bytesWritten, f', w2) ← write written content 1 (Z.of_nat (length content)) f w1;
      Returns (Some bytesWritten, (closeFile closed (Some f') w2).2)
  end.

Definition appendFile (opened written closed : Z) (filename : string)
    (content : list byte) (w : World) : outcome (option Z * World) :=
  '(file, w1) ← openFile opened filename "a+" w;
  match file with
  | None => Returns (None, w1)
  | Some f =>
      '(bytesWritten, f', w2) ← write written content 1 (Z.of_nat (length content)) f w1;
      Returns (Some bytesWritten, (closeFile closed (Some f') w2).2)
  end.

(** * Vocabulary of the properties *)

(** ** Handles *)

(** The cursor of a handle is inside the buffer of its entry. *)
Definition cursor_in_bounds (w : World) (f : CacheFile) : Prop :=
  0 ≤ position f ≤ data_size w f.

(** [std::vector<char>::max_size()] *)
Definition vector_max_size : Z := 2 ^ 63 - 1.

(** The number of bytes [read] copies. *)
Definition bytes_copied (size count : Z) (f : CacheFile) (w : World) : Z :=
  Z.min (size_t_wrap (size * count)) (size_t_wrap (data_size w f - position f)).

(** Where [write] starts: the end of the buffer in append mode. *)
Definition write_start (f : CacheFile) (w : World) : Z :=
  if contains "a" (mode f) && negb (position f =? data_size w f)
  then data_size w f else position f.

(** The position a [seek] asks for, before any conversion to [size_t]. *)
Definition seek_target (offset origin : Z) (f : CacheFile) (w : World) : option Z :=
  if origin =? SEEK_SET then Some offset
  else if origin =? SEEK_CUR then Some (position f + offset)
  else if origin =? SEEK_END then Some (data_size w f + offset)
  else None.

(** ** Frames *)

(** Every path of the LRU list is a key of the entry map. *)
Definition lru_indexed (w : World) : Prop :=
  ∀ p, p ∈ lruList (cache w) → is_Some (cacheMap (cache w) !! p).

(** The counters and the priority table of two caches agree, and the one
    is owned by a shared pointer if the other is. *)
Definition same_counters (c c' : ContentAwareCache) : Prop :=
  cacheHits c' = cacheHits c ∧ cacheMisses c' = cacheMisses c ∧
  diskReads c' = diskReads c ∧ diskWrites c' = diskWrites c ∧
  fileTypePriorities c' = fileTypePriorities c ∧
  weak_this c' = weak_this c.

(** Two stores hold the same objects up to their scores. *)
Definition entries_rescored (h h' : list CacheEntry) : Prop :=
  length h' = length h ∧
  ∀ e, metadata (h' !!! e) = metadata (h !!! e) ∧
       stats (h' !!! e) = stats (h !!! e) ∧
       data (h' !!! e) = data (h !!! e).

(** What a run of evictions, or a call of [makeRoomInCache], leaves alone:
    counters, priority table and disk; the objects up to their scores; the
    map only loses keys. *)
Record room_made (w w' : World) : Prop := {
  rm_counters : same_counters (cache w) (cache w');
  rm_disk : disk w' = disk w;
  rm_heap : entries_rescored (heap w) (heap w');
  rm_map : ∀ p e, cacheMap (cache w') !! p = Some e → cacheMap (cache w) !! p = Some e;
  rm_lru : lru_indexed w → lru_indexed w'
}.

(** ** Engine states *)

(** Every priority of a table lies between 0 and 1. *)
Definition priorities_in_range (priorities : gmap string R) : Prop :=
  ∀ k v, priorities !! k = Some v → (0 <= v <= 1)%R.

(** Every resident entry can be written back. *)
Definition all_writable (w : World) : Prop :=
  ∀ p e, cacheMap (cache w) !! p = Some e →
         filePath (metadata (deref w e)) ∉ write_denied (disk w).

(** [fs::exists] *)
Definition file_exists (w : World) (path : string) : bool :=
  bool_decide (is_Some (files (disk w) !! path)).

(** One call, at the instant [now], of an operation that changes the
    state. *)
Inductive step_at (now : Z) : World → World → Prop :=
| step_openFile path mode w r w' :
    openFile now path mode w = Returns (r, w') → step_at now w w'
| step_write buffer size count f w n f' w' :
    cursor_in_bounds w f →
    write now buffer size count f w = Returns (n, f', w') → step_at now w w'
| step_evictFile path w :
    step_at now w (evictFile path w)
| step_flushFile f w :
    step_at now w (flushFile now f w).2
| step_closeFile file w :
    step_at now w (closeFile now file w).2
| step_flush w :
    step_at now w (flush now w)
| step_resizeCache newMaxSize w w' :
    resizeCache now newMaxSize w = Returns w' → step_at now w w'
| step_setFileTypePriority extension priority w :
    step_at now w (setFileTypePriority now extension priority w).

Definition step (w w' : World) : Prop := ∃ now, step_at now w w'.




(** The objects of [h] are still in [h'], with the metadata they had and
    buffers that are not shorter. *)
Definition objects_persist (h h' : list CacheEntry) : Prop :=
  (length h ≤ length h')%nat ∧
  ∀ e, (e < length h)%nat →
       metadata (h' !!! e) = metadata (h !!! e) ∧
       (length (data (h !!! e)) ≤ length (data (h' !!! e)))%nat.

(** [e] is the entry of some path of the map. *)
Definition resident (w : World) (e : nat) : Prop :=
  ∃ p, cacheMap (cache w) !! p = Some e.

(** The sum of the buffer lengths of the objects a list of map items
    points to. *)
Definition bytes_of (h : list CacheEntry) (l : list (string * nat)) : Z :=
  foldr (λ kv acc, getMemoryUsage (h !!! kv.2) + acc) 0 l.

(** The sum of [data.size()] over the entries of the map. *)
Definition resident_bytes (w : World) : Z :=
  bytes_of (heap w) (map_to_list (cacheMap (cache w))).

(** [currentCacheSize] is the sum of the buffer lengths, as a [size_t]. *)
Definition accounted (w : World) : Prop :=
  currentCacheSize (cache w) = size_t_wrap (resident_bytes w).

(** The pointers of the map designate objects, and no two paths share
    one. *)
Record map_well_formed (w : World) : Prop := {
  wf_live : ∀ p e, cacheMap (cache w) !! p = Some e → (e < length (heap w))%nat;
  wf_inj : ∀ p q e, cacheMap (cache w) !! p = Some e →
                    cacheMap (cache w) !! q = Some e → p = q
}.

(** The states that calls of the operations lead to from a new cache. *)
Definition reachable (w : World) : Prop :=
  ∃ maxSize d, rtc step (initial_world maxSize d) w.

(** ** Further invariants *)

(** The LRU list has no path twice, and its paths are the keys of the
    map. *)
Definition lru_consistent (w : World) : Prop :=
  NoDup (lruList (cache w)) ∧
  ∀ p, p ∈ lruList (cache w) ↔ is_Some (cacheMap (cache w) !! p).

(** Every entry of the map records the path it is the entry of. *)
Definition paths_agree (w : World) : Prop :=
  ∀ p e, cacheMap (cache w) !! p = Some e → filePath (metadata (deref w e)) = p.

(** The first factor of the score of an entry. *)
Definition type_priority (priorities : gmap string R) (e : CacheEntry) : R :=
  default 0.5%R (priorities !! fileType (metadata e)).

(** The buffer after a write of the first [n] bytes of [buffer] at [pos]:
    grown with zero bytes up to the end of the write when it is shorter. *)
Definition written_data (pos n : Z) (buffer d : list byte) : list byte :=
  memcpy_into pos n buffer
    (resize (Z.to_nat (Z.max (Z.of_nat (length d)) (pos + n))) "000"%byte d).

(** The bytes an open of [path] that does not create the entry gives
    access to: the buffer of the entry when the path is in the map, and
    otherwise the content of the backing file, which has to be non-empty
    and readable for the load to succeed. *)
Definition file_seen (w : World) (path : string) (d : list byte) : Prop :=
  match cacheMap (cache w) !! path with
  | Some e => data (deref w e) = d
  | None =>
      d ≠ [] ∧ (path ∉ read_denied (disk w)) ∧
      content <$> files (disk w) !! path = Some d
  end.

(** * test_cache.cpp: the LRU cache the tests compare with

    [LRUCache] holds whole files and no handles. Its items are values of
    the map, so there is no object store. *)

Module LRUCache.

Record CacheItem : Type := mkCacheItem {
  filePath : string;
  data : list byte
}.

Record t : Type := mk {
  maxCacheSize : Z;
  currentCacheSize : Z;
  lruList : list string;
  cache : gmap string CacheItem;
  cacheHits : Z;
  cacheMisses : Z;
  diskReads : Z
}.

(** [LRUCache::LRUCache] *)
Definition new (maxSize : Z) : t :=
  {| maxCacheSize := maxSize; currentCacheSize := 0; lruList := []; cache := ∅;
     cacheHits := 0; cacheMisses := 0; diskReads := 0 |}.

(** [cache[victimPath].first.data.size()]: [operator[]] makes an empty item
    for a path that is not a key. *)
Definition item_size (m : gmap string CacheItem) (path : string) : Z :=
  Z.of_nat (length (default [] (data <$> m !! path))).

(** The loop that makes room. It takes its victims from the back of the
    list, so it is written over the list from its back to its front; it
    stops when the file fits or the list is empty. The result is what is
    left of the list (back first), the size and the map. *)
Fixpoint evictFromBack (fileSize maxSize : Z) (backFirst : list string) (current : Z)
    (m : gmap string CacheItem) : list string * Z * gmap string CacheItem :=
  match backFirst with
  | [] => ([], current, m)
  | victimPath :: rest =>
      if size_t_wrap (current + fileSize) >? maxSize
      then evictFromBack fileSize maxSize rest
             (size_t_wrap (current - item_size m victimPath)) (delete victimPath m)
      else (backFirst, current, m)
  end.

(** [LRUCache::accessFile]. The stream cannot be opened when the file does
    not exist or cannot be read. On a hit the node of the path is unlinked
    from the list and a new node is pushed at the front. *)
Definition accessFile (fsys : FileSystem) (path : string) (c : t) : bool * t :=
  match cache c !! path with
  | Some _ =>
      (true,
       {| maxCacheSize := maxCacheSize c; currentCacheSize := currentCacheSize c;
          lruList := path :: filter (λ p, p ≠ path) (lruList c);
          cache := cache c;
          cacheHits := size_t_wrap (cacheHits c + 1);
          cacheMisses := cacheMisses c; diskReads := diskReads c |})
  | None =>
      let misses := size_t_wrap (cacheMisses c + 1) in
      match files fsys !! path with
      | Some file =>
          if bool_decide (path ∈ read_denied fsys)
          then (false, mk (maxCacheSize c) (currentCacheSize c) (lruList c) (cache c)
                         (cacheHits c) misses (diskReads c))
          else
            let fileSize := Z.of_nat (length (content file)) in
            let '(backFirst, current, m) :=
              evictFromBack fileSize (maxCacheSize c) (reverse (lruList c))
                (currentCacheSize c) (cache c) in
            if fileSize <=? maxCacheSize c
            then (true,
                  {| maxCacheSize := maxCacheSize c;
                     currentCacheSize := size_t_wrap (current + fileSize);
                     lruList := path :: reverse backFirst;
                     cache := <[path := mkCacheItem path (content file)]> m;
                     cacheHits := cacheHits c; cacheMisses := misses;
                     diskReads := size_t_wrap (diskReads c + 1) |})
            else (true,
                  {| maxCacheSize := maxCacheSize c; currentCacheSize := current;
                     lruList := reverse backFirst; cache := m;
                     cacheHits := cacheHits c; cacheMisses := misses;
                     diskReads := size_t_wrap (diskReads c + 1) |})
      | None =>
          (false, mk (maxCacheSize c) (currentCacheSize c) (lruList c) (cache c)
                    (cacheHits c) misses (diskReads c))
      end
  end.

(** The sum of the sizes of the items of a map. *)
Definition bytes (m : gmap string CacheItem) : Z :=
  foldr (λ kv acc, Z.of_nat (length (data kv.2)) + acc) 0 (map_to_list m).

(** The list indexes the map, the size is the sum of the sizes of the
    items, and it is within the bound. *)
Definition consistent (c : t) : Prop :=
  NoDup (lruList c) ∧
  (∀ p, p ∈ lruList c ↔ is_Some (cache c !! p)) ∧
  currentCacheSize c = bytes (cache c) ∧
  currentCacheSize c ≤ maxCacheSize c.

(** One access, over a disk whose files have sizes that [tellg] can
    report. *)
Definition step (c c' : t) : Prop :=
  ∃ fsys path,
    (∀ q file, files fsys !! q = Some file →
               Z.of_nat (length (content file)) ≤ vector_max_size) ∧
    c' = (accessFile fsys path c).2.

End LRUCache.

(** * Sample states *)

Module Sample.

Definition hello : list byte := ["h"; "e"; "l"; "l"; "o"]%byte.

Definition hello_disk : FileSystem :=
  {| files := {[ "a.txt" := {| content := hello; written_at := 0 |} ]};
     read_denied := ∅;
     write_denied := ∅ |}.

Definition empty_disk : FileSystem :=
  {| files := ∅; read_denied := ∅; write_denied := ∅ |}.

(** A disk with a.txt and the eight bytes of b.txt. *)
Definition two_files_disk : FileSystem :=
  {| files := {[ "a.txt" := {| content := hello; written_at := 0 |};
                 "b.txt" := {| content := replicate 8 "x"%byte; written_at := 0 |} ]};
     read_denied := ∅;
     write_denied := ∅ |}.

Definition world_after {A : Type} (o : outcome (A * World)) (otherwise : World) : World :=
  match o with
  | Returns r => r.2
  | Fails _ => otherwise
  end.

(** A cache of one mebibyte in front of a disk with the file a.txt. *)
Definition fresh_world : World := initial_world 1048576 hello_disk.

(** The same after [openFile("a.txt", "r")] at time 0. *)
Definition loaded_world : World :=
  world_after (openFile 0 "a.txt" "r" fresh_world) fresh_world.

(** Two handles on the entry of a.txt. *)
Definition reader : CacheFile := newCacheFile 0 "r+" true.

Definition appender : CacheFile := newCacheFile 0 "a" true.



(** The state after [openFile("b.txt", "w")] on the fresh cache, and the
    handle it returns. *)
Definition created_world : World :=
  world_after (openFile 0 "b.txt" "w" fresh_world) fresh_world.

Definition writer : CacheFile := newCacheFile 0 "w" true.

(** The state after writing five bytes through that handle. *)
Definition written_world : World :=
  match write 1 hello 1 5 writer created_world with
  | Returns r => r.2
  | Fails _ => created_world
  end.

Definition roomy_world : World := initial_world 1048576 empty_disk.

(** A cache that no [std::shared_ptr] owns (an object with automatic
    storage, say) in front of an empty disk: its [weak_from_this()] is
    empty. *)
Definition stack_world : World :=
  {| cache := newContentAwareCache 1048576; heap := []; disk := empty_disk |}.

(** A large cache over an empty disk in which a.txt and b.txt were created
    at the same instant and a.txt was then opened once more: a.txt is at
    the front of the LRU list and b.txt at its back. The scores are those
    [makeRoomInCache] computes before it looks for a victim. *)
Definition tie_world : World :=
  let w1 := world_after (openFile 0 "a.txt" "w" roomy_world) roomy_world in
  let w2 := world_after (openFile 0 "b.txt" "w" w1) w1 in
  let w3 := world_after (openFile 0 "a.txt" "r" w2) w2 in
  updateAllScores 0 w3.

(** A cache of ten bytes over an empty disk, and the same after
    [openFile("b.txt", "w")]. *)
Definition small_world : World := initial_world 10 empty_disk.

Definition small_created : World :=
  world_after (openFile 0 "b.txt" "w" small_world) small_world.

Definition eleven_bytes : list byte := replicate 11 "x"%byte.


End Sample.

Import Sample.

(** * Properties *)

(** Case analysis on the computation a bind of the goal starts with, when
    the bind is known to return: that computation returns as well. *)
Tactic Notation "returned" "as" simple_intropattern(w) "eqn" ":" ident(H) :=
  match goal with
  | |- context [mbind _ ?m] =>
      lazymatch m with
      | mbind _ _ => fail
      | _ => destruct m as [w|] eqn:H; [|discriminate]; cbn [mbind outcome_bind]
      end
  end.

(** Reflexivity of the frame relations and the frames of the private
    methods. *)
Create HintDb cache_frame discriminated.

(** ** Arithmetic of [size_t] *)

Lemma size_t_wrap_range (z : Z) : 0 ≤ size_t_wrap z < 2 ^ 64.
Proof. unfold size_t_wrap. apply Z.mod_pos_bound. lia. Qed.

Lemma size_t_wrap_small (z : Z) : 0 ≤ z < 2 ^ 64 → size_t_wrap z = z.
Proof. intros H. unfold size_t_wrap. apply Z.mod_small. exact H. Qed.

Lemma size_t_wrap_le (z : Z) : 0 ≤ z → size_t_wrap z ≤ z.
Proof. intros H. unfold size_t_wrap. apply Z.mod_le; lia. Qed.

Lemma size_t_wrap_negative (z : Z) : - 2 ^ 64 ≤ z < 0 → size_t_wrap z = z + 2 ^ 64.
Proof.
  intros H. unfold size_t_wrap.
  symmetry. apply (Z.mod_unique_pos z (2 ^ 64) (-1) (z + 2 ^ 64)); lia.
Qed.

(** ** The handle cursor *)

Lemma data_size_nonneg (w : World) (f : CacheFile) : 0 ≤ data_size w f.
Proof. unfold data_size. lia. Qed.

Lemma bytes_copied_fits (size count : Z) (f : CacheFile) (w : World) :
  cursor_in_bounds w f →
  0 ≤ bytes_copied size count f w ∧
  position f + bytes_copied size count f w ≤ data_size w f.
Proof.
  intros [Hlo Hhi]. unfold bytes_copied.
  pose proof (size_t_wrap_range (size * count)) as H1.
  pose proof (size_t_wrap_range (data_size w f - position f)) as H2.
  pose proof (size_t_wrap_le (data_size w f - position f)) as H3.
  lia.
Qed.

Lemma data_size_set_position (w : World) (p : Z) (f : CacheFile) :
  data_size w (set_position p f) = data_size w f.
Proof. reflexivity. Qed.

Lemma data_size_set_modified (w : World) (b : bool) (f : CacheFile) :
  data_size w (set_modified b f) = data_size w f.
Proof. reflexivity. Qed.

Lemma gtb_false (a b : Z) : a ≤ b → (a >? b) = false.
Proof. intros H. rewrite Z.gtb_ltb. apply Z.ltb_ge. exact H. Qed.

Lemma gtb_true (a b : Z) : b < a → (a >? b) = true.
Proof. intros H. rewrite Z.gtb_ltb. apply Z.ltb_lt. exact H. Qed.

Lemma read_returns (size count : Z) (f : CacheFile) (w : World) :
  contains "r" (mode f) = true → size ≠ 0 → cursor_in_bounds w f →
  ∃ bs f',
    read size count f w = Returns (bytes_copied size count f w / size, bs, f') ∧
    entry f' = entry f ∧
    cursor_in_bounds w f' ∧
    (data_size w f ≤ vector_max_size →
     position f' = position f + bytes_copied size count f w).
Proof.
  intros Hr Hs Hc. unfold read. rewrite Hr. cbn [negb].
  fold (bytes_copied size count f w).
  destruct (bytes_copied_fits size count f w Hc) as [H0 H1].
  rewrite (gtb_false _ _ H1), andb_false_r.
  replace (size =? 0) with false by (symmetry; apply Z.eqb_neq; exact Hs).
  do 2 eexists. split; [reflexivity|].
  destruct Hc as [Hlo Hhi].
  destruct (bytes_copied size count f w >? 0) eqn:Hp; cbn.
  - pose proof (size_t_wrap_range (position f + bytes_copied size count f w)).
    pose proof (size_t_wrap_le (position f + bytes_copied size count f w)).
    unfold cursor_in_bounds. rewrite data_size_set_position.
    cbn [position set_position entry].
    split; [reflexivity|]. split; [lia|].
    intros Hmax. apply size_t_wrap_small. unfold vector_max_size in Hmax. lia.
  - rewrite Z.gtb_ltb in Hp. apply Z.ltb_ge in Hp.
    unfold cursor_in_bounds. split; [reflexivity|]. split; lia.
Qed.

Lemma read_without_items (count : Z) (f : CacheFile) (w : World) :
  contains "r" (mode f) = true → read 0 count f w = Fails DivisionByZero.
Proof.
  intros Hr. unfold read. rewrite Hr. cbn [negb].
  rewrite Z.mul_0_l.
  pose proof (size_t_wrap_range (data_size w f - position f)) as Hav.
  replace (size_t_wrap 0) with 0 by reflexivity.
  rewrite Z.min_l by lia. reflexivity.
Qed.

Lemma read_division_fault_inv (size count : Z) (f : CacheFile) (w : World) :
  read size count f w = Fails DivisionByZero → size = 0.
Proof.
  unfold read. destruct (negb (contains "r" (mode f))); [discriminate|].
  destruct (_ && _); [discriminate|].
  destruct (size =? 0) eqn:Hs; [|discriminate].
  intros _. apply Z.eqb_eq. exact Hs.
Qed.

(** *** Seeking

    The three assumptions of this section are what the types of the source
    give: the cursor is inside the buffer, the buffer is a vector, and the
    offset is a [long]. *)
Section Seek.

Variables (offset origin : Z) (f : CacheFile) (w : World).

Hypothesis cursor_ok : cursor_in_bounds w f.
Hypothesis vector_ok : data_size w f ≤ vector_max_size.
Hypothesis offset_ok : - 2 ^ 63 ≤ offset < 2 ^ 63.

Lemma seek_unknown_origin :
  seek_target offset origin f w = None → seek offset origin f w = (-1, f).
Proof.
  unfold seek_target, seek.
  destruct (origin =? SEEK_SET); [discriminate|].
  destruct (origin =? SEEK_CUR); [discriminate|].
  destruct (origin =? SEEK_END); [discriminate|]. reflexivity.
Qed.

Lemma seek_as_target (t : Z) :
  seek_target offset origin f w = Some t →
  seek offset origin f w =
    if size_t_wrap t >? data_size w f then (-1, f)
    else (0, set_position (size_t_wrap t) f).
Proof.
  unfold seek_target, seek, size_t_of_long.
  destruct (origin =? SEEK_SET); [intros [= <-]; reflexivity|].
  destruct (origin =? SEEK_CUR); [intros [= <-]; reflexivity|].
  destruct (origin =? SEEK_END); [intros [= <-]; reflexivity|]. discriminate.
Qed.

Lemma seek_target_bounds (t : Z) :
  seek_target offset origin f w = Some t → - 2 ^ 63 ≤ t < 2 ^ 64.
Proof.
  destruct cursor_ok as [Hlo Hhi]. unfold seek_target, vector_max_size in *.
  destruct (origin =? SEEK_SET); [intros [= <-]; lia|].
  destruct (origin =? SEEK_CUR); [intros [= <-]; lia|].
  destruct (origin =? SEEK_END); [intros [= <-]; lia|]. discriminate.
Qed.

Lemma seek_rejects (t : Z) :
  seek_target offset origin f w = Some t →
  t < 0 ∨ data_size w f < t →
  seek offset origin f w = (-1, f).
Proof.
  intros Ht Hout.
  pose proof (seek_target_bounds t Ht) as Hb.
  rewrite (seek_as_target t Ht).
  unfold vector_max_size in *.
  destruct Hout as [Hneg | Hpast].
  - rewrite size_t_wrap_negative by lia. rewrite gtb_true by lia. reflexivity.
  - pose proof (data_size_nonneg w f).
    rewrite size_t_wrap_small by lia. rewrite gtb_true by lia. reflexivity.
Qed.

Lemma seek_accepts (t : Z) :
  seek_target offset origin f w = Some t →
  0 ≤ t ≤ data_size w f →
  seek offset origin f w = (0, set_position t f).
Proof.
  intros Ht Hin. unfold vector_max_size in *.
  rewrite (seek_as_target t Ht).
  rewrite size_t_wrap_small by lia. rewrite gtb_false by lia. reflexivity.
Qed.

End Seek.

(** ** What making room may change *)

Lemma same_counters_refl (c : ContentAwareCache) : same_counters c c.
Proof. unfold same_counters. done. Qed.

#[local] Hint Resolve same_counters_refl : cache_frame.

Lemma same_counters_trans (c1 c2 c3 : ContentAwareCache) :
  same_counters c1 c2 → same_counters c2 c3 → same_counters c1 c3.
Proof. unfold same_counters. intros (?&?&?&?&?&?) (?&?&?&?&?&?). repeat split; congruence. Qed.

Lemma entries_rescored_refl (h : list CacheEntry) : entries_rescored h h.
Proof. split; done. Qed.

#[local] Hint Resolve entries_rescored_refl : cache_frame.

Lemma entries_rescored_trans (h1 h2 h3 : list CacheEntry) :
  entries_rescored h1 h2 → entries_rescored h2 h3 → entries_rescored h1 h3.
Proof.
  intros [L1 E1] [L2 E2]. split; [congruence|].
  intros e. destruct (E1 e) as (?&?&?), (E2 e) as (?&?&?).
  repeat split; congruence.
Qed.

Lemma entries_rescored_alter (p : gmap string R) (now : Z) (e : nat) (h : list CacheEntry) :
  entries_rescored h (alter (rescore p now) e h).
Proof.
  split; [apply length_alter|].
  intros e'. rewrite list_lookup_total_alter.
  destruct (decide _) as [[-> _]|_]; done.
Qed.

Lemma entries_rescored_foldl (p : gmap string R) (now : Z) (l : list (string * nat))
    (h : list CacheEntry) :
  entries_rescored h (foldl (λ h kv, alter (rescore p now) kv.2 h) h l).
Proof.
  revert h. induction l as [|kv l IH]; intros h; cbn [foldl].
  - apply entries_rescored_refl.
  - eapply entries_rescored_trans; [apply entries_rescored_alter | apply IH].
Qed.

Lemma lru_back_elem (l : list string) : l ≠ [] → lru_back l ∈ l.
Proof.
  intros Hne. unfold lru_back.
  destruct (last l) as [x|] eqn:Hl.
  - apply last_Some_elem_of. exact Hl.
  - apply last_None in Hl. contradiction.
Qed.

(** The candidate of the scan is the initial one or a scanned path. *)
Lemma scanForLowest_candidate (entries : list (string * R)) (c0 : string) (s0 : R) :
  (scanForLowest entries c0 s0).1 = c0 ∨ (scanForLowest entries c0 s0).1 ∈ entries.*1.
Proof.
  revert c0 s0. induction entries as [|[p s] rest IH]; intros c0 s0; cbn.
  - by left.
  - destruct (Rlt_dec s s0).
    + right. destruct (IH p s) as [-> | Hin]; [left | right]; done.
    + destruct (IH c0 s0) as [Heq | Hin]; [by left | right; by right].
Qed.

Lemma scored_entries_keys (w : World) :
  (scored_entries w).*1 = (map_to_list (cacheMap (cache w))).*1.
Proof.
  unfold scored_entries. rewrite <- list_fmap_compose.
  apply list_fmap_ext. intros _ [p e] _. reflexivity.
Qed.

Lemma findEntryForEviction_resident (w : World) :
  lru_indexed w → findEntryForEviction w ≠ "" →
  is_Some (cacheMap (cache w) !! findEntryForEviction w).
Proof.
  intros Hlru. unfold findEntryForEviction.
  destruct (bool_decide _); [done|].
  unfold selectVictim.
  destruct (bool_decide ((scanForLowest _ _ _).1 = "")) eqn:Hc; cbn [andb].
  - destruct (bool_decide (lruList (cache w) = [])) eqn:Hl; cbn [negb].
    + apply bool_decide_eq_true in Hc. congruence.
    + apply bool_decide_eq_false in Hl. intros _. apply Hlru, lru_back_elem, Hl.
  - apply bool_decide_eq_false in Hc. intros _.
    destruct (scanForLowest_candidate (scored_entries w) "" FLT_MAX) as [Heq | Hin];
      [contradiction|].
    rewrite scored_entries_keys in Hin.
    apply list_elem_of_fmap in Hin as [[p e] [Hp Hin]].
    apply elem_of_map_to_list in Hin. cbn in Hp. rewrite Hp. eauto.
Qed.

Lemma room_made_refl (w : World) : room_made w w.
Proof.
  split; [apply same_counters_refl | done | apply entries_rescored_refl | done | done].
Qed.

#[local] Hint Resolve room_made_refl : cache_frame.

Lemma room_made_trans (w1 w2 w3 : World) :
  room_made w1 w2 → room_made w2 w3 → room_made w1 w3.
Proof.
  intros [C1 D1 H1 M1 L1] [C2 D2 H2 M2 L2]. split.
  - eapply same_counters_trans; eassumption.
  - congruence.
  - eapply entries_rescored_trans; eassumption.
  - eauto.
  - eauto.
Qed.

Lemma evictFile_cacheMap (path : string) (w : World) :
  cacheMap (cache (evictFile path w)) = delete path (cacheMap (cache w)).
Proof.
  unfold evictFile. destruct (cacheMap (cache w) !! path) eqn:Hp; [reflexivity|].
  symmetry. apply delete_id. exact Hp.
Qed.

Lemma evictFile_room_made (path : string) (w : World) : room_made w (evictFile path w).
Proof.
  unfold evictFile. destruct (cacheMap (cache w) !! path) as [e|] eqn:Hp;
    [|auto with cache_frame].
  split; cbn.
  - unfold same_counters. cbn. done.
  - reflexivity.
  - apply entries_rescored_refl.
  - intros p e' Hl. apply lookup_delete_Some in Hl. tauto.
  - intros Hlru p Hin. cbn in Hin. apply list_elem_of_filter in Hin as [Hne Hin].
    cbn. rewrite lookup_delete_ne by done. apply Hlru, Hin.
Qed.

#[local] Hint Resolve evictFile_room_made : cache_frame.

Lemma updateAllScores_room_made (now : Z) (w : World) : room_made w (updateAllScores now w).
Proof.
  split; cbn.
  - apply same_counters_refl.
  - reflexivity.
  - apply entries_rescored_foldl.
  - done.
  - done.
Qed.

#[local] Hint Resolve updateAllScores_room_made : cache_frame.

Lemma evictionLoop_returns (fuel : nat) (requiredSize : Z) (w : World) :
  lru_indexed w → (size (cacheMap (cache w)) ≤ fuel)%nat →
  ∃ w', evictionLoop fuel requiredSize w = Returns w' ∧ room_made w w'.
Proof.
  revert w. induction fuel as [|n IH]; intros w Hlru Hsize.
  - exists w. split; [|auto with cache_frame]. cbn.
    assert (cacheMap (cache w) = ∅) as ->
      by (apply map_size_empty_iff; lia).
    rewrite bool_decide_eq_true_2 by done. rewrite andb_false_r. reflexivity.
  - cbn [evictionLoop].
    destruct (over_budget requiredSize w && _) eqn:Hcond;
      [|exists w; split; [reflexivity | auto with cache_frame]].
    destruct (bool_decide (findEntryForEviction w = "")) eqn:Hv;
      [exists w; split; [reflexivity | auto with cache_frame]|].
    apply bool_decide_eq_false in Hv.
    pose proof (findEntryForEviction_resident w Hlru Hv) as Hres.
    pose proof (evictFile_room_made (findEntryForEviction w) w) as Hrm.
    destruct (IH (evictFile (findEntryForEviction w) w)) as (w' & Hrun & Hrm').
    + apply Hrm, Hlru.
    + rewrite evictFile_cacheMap, map_size_delete_Some by exact Hres.
      assert (size (cacheMap (cache w)) ≠ 0%nat)
        by (apply map_size_ne_0_lookup; destruct Hres; eauto).
      lia.
    + exists w'. split; [exact Hrun|]. eapply room_made_trans; eassumption.
Qed.

Lemma makeRoomInCache_returns (now requiredSize : Z) (w : World) :
  lru_indexed w →
  ∃ w', makeRoomInCache now requiredSize w = Returns w' ∧ room_made w w'.
Proof.
  intros Hlru. unfold makeRoomInCache.
  destruct (negb (over_budget requiredSize w));
    [exists w; split; [reflexivity | auto with cache_frame]|].
  pose proof (updateAllScores_room_made now w) as Hup.
  destruct (evictionLoop_returns (size (cacheMap (cache w))) requiredSize
              (updateAllScores now w)) as (w1 & Hrun & Hrm).
  - apply Hup, Hlru.
  - reflexivity.
  - rewrite Hrun. cbn.
    pose proof (room_made_trans _ _ _ Hup Hrm) as [C D H M L].
    destruct (over_budget requiredSize w1);
      eexists; (split; [reflexivity|]); split; assumption.
Qed.

(** A request that fits changes nothing. *)
Lemma makeRoomInCache_keeps_quick (now requiredSize : Z) (w : World) :
  over_budget requiredSize w = false → makeRoomInCache now requiredSize w = Returns w.
Proof. intros H. unfold makeRoomInCache. rewrite H. reflexivity. Qed.

(** ** Writing through a handle *)

Lemma write_start_bounds (f : CacheFile) (w : World) :
  cursor_in_bounds w f → 0 ≤ write_start f w ≤ data_size w f.
Proof.
  intros [Hlo Hhi]. unfold write_start.
  destruct (_ && _); lia.
Qed.

Lemma length_memcpy_into (pos n : Z) (buffer d : list byte) :
  0 ≤ pos → 0 ≤ n → pos + n ≤ Z.of_nat (length d) → n ≤ Z.of_nat (length buffer) →
  length (memcpy_into pos n buffer d) = length d.
Proof.
  intros Hp Hn Hfit Hbuf. unfold memcpy_into.
  rewrite !length_app, !length_take, length_drop. lia.
Qed.

Lemma deref_alter_data (g : list byte → list byte) (w : World) (e : nat) :
  (e < length (heap w))%nat →
  data (deref (with_heap (alter (λ x, set_data (g (data x)) x) e) w) e)
  = g (data (deref w e)).
Proof.
  intros Hlive. unfold deref. cbn.
  rewrite list_lookup_total_alter_eq by exact Hlive. reflexivity.
Qed.

Lemma write_refused (now : Z) (buffer : list byte) (size count : Z) (f : CacheFile)
    (w : World) :
  contains "w" (mode f) = false → contains "a" (mode f) = false →
  write now buffer size count f w = Returns (0, f, w).
Proof. intros Hw Ha. unfold write. rewrite Hw, Ha. reflexivity. Qed.

Lemma write_returns (now : Z) (buffer : list byte) (size count : Z) (f : CacheFile)
    (w : World) :
  contains "w" (mode f) || contains "a" (mode f) = true →
  cachePtr f = true →
  lru_indexed w → (entry f < length (heap w))%nat →
  cursor_in_bounds w f →
  0 ≤ size * count ≤ Z.of_nat (length buffer) →
  write_start f w + size * count ≤ vector_max_size →
  ∃ f' w',
    write now buffer size count f w = Returns (count, f', w') ∧
    entry f' = entry f ∧
    position f' = write_start f w + size * count ∧
    data_size w' f' = Z.max (data_size w f) (write_start f w + size * count) ∧
    lru_indexed w'.
Proof.
  intros Hmode Hptr Hlru Hlive Hc [Hn Hbuf] Hmax.
  pose proof (write_start_bounds f w Hc) as [Hs0 Hs1].
  unfold vector_max_size in Hmax.
  unfold write.
  replace (negb (contains "w" (mode f)) && negb (contains "a" (mode f))) with false
    by (destruct (contains "w" (mode f)), (contains "a" (mode f)); done).
  fold (write_start f w).
  rewrite (size_t_wrap_small (size * count)) by lia.
  rewrite (size_t_wrap_small (write_start f w + size * count)) by lia.
  unfold growBuffer. rewrite Hptr.
  destruct (write_start f w + size * count >? data_size w f) eqn:Hgrow.
  - rewrite Z.gtb_ltb in Hgrow. apply Z.ltb_lt in Hgrow.
    destruct (makeRoomInCache_returns now
                (size_t_wrap (write_start f w + size * count - data_size w f)) w Hlru)
      as (w1 & Hroom & Hrm).
    rewrite Hroom. cbn [mbind outcome_bind].
    destruct Hrm as [_ _ [Hlen Hsame] _ Hlru1].
    set (w2 := with_cache _ _).
    assert (data_size w2 f = write_start f w + size * count) as Hsz.
    { unfold data_size, w2, deref. cbn.
      rewrite list_lookup_total_alter_eq by lia. cbn.
      rewrite length_resize. lia. }
    rewrite Hsz, gtb_false by lia. rewrite gtb_false by lia. cbn [orb].
    do 2 eexists. split; [reflexivity|].
    split; [reflexivity|]. split; [reflexivity|].
    split.
    + unfold data_size at 1. cbn [entry set_modified set_position].
      rewrite deref_alter_data by (unfold w2; cbn; rewrite length_alter; lia).
      rewrite length_memcpy_into; fold (data_size w2 f); lia.
    + intros p Hin. cbn in *. apply Hlru1; done.
  - rewrite Z.gtb_ltb in Hgrow. apply Z.ltb_ge in Hgrow.
    cbn [mbind outcome_bind].
    rewrite gtb_false by lia. rewrite gtb_false by lia. cbn [orb].
    do 2 eexists. split; [reflexivity|].
    split; [reflexivity|]. split; [reflexivity|].
    split.
    + unfold data_size at 1. cbn [entry set_modified set_position].
      rewrite deref_alter_data by exact Hlive.
      rewrite length_memcpy_into; fold (data_size w f); lia.
    + intros p Hin. cbn in *. apply Hlru; done.
Qed.

(** ** Reading through a handle *)

Lemma loaded_world_lru_indexed : lru_indexed loaded_world.
Proof.
  intros p Hp. vm_compute in Hp.
  apply list_elem_of_singleton in Hp as ->. vm_compute. eauto.
Qed.

(** C10. [CacheFile::read] returns [bytesToCopy / size] without looking at
    [size]: on a handle opened for reading, the call divides by zero
    exactly when [size] is 0, and for any other [size] (with the cursor
    inside the buffer) it returns the number of bytes copied divided by
    [size]. *)
Theorem read_divides_by_unchecked_size (size count : Z) (f : CacheFile) (w : World) :
  contains "r" (mode f) = true →
  (read size count f w = Fails DivisionByZero ↔ size = 0) ∧
  (size ≠ 0 → cursor_in_bounds w f →
   ∃ bs f', read size count f w = Returns (bytes_copied size count f w / size, bs, f')).
Proof.
  intros Hr. split; [split|].
  - apply read_division_fault_inv.
  - intros ->. apply read_without_items, Hr.
  - intros Hs Hc.
    destruct (read_returns size count f w Hr Hs Hc) as (bs & f' & Hread & _).
    eauto.
Qed.

Lemma read_divides_by_unchecked_size_witness :
  contains "r" (mode reader) = true ∧
  read 0 5 reader loaded_world = Fails DivisionByZero ∧
  ∃ bs f', read 2 2 reader loaded_world
           = Returns (bytes_copied 2 2 reader loaded_world / 2, bs, f').
Proof.
  split; [reflexivity|].
  pose proof (read_divides_by_unchecked_size 0 5 reader loaded_world eq_refl) as [H0 _].
  pose proof (read_divides_by_unchecked_size 2 2 reader loaded_world eq_refl) as [_ H2].
  split.
  - apply H0. reflexivity.
  - apply H2; [discriminate | vm_compute; split; discriminate].
Defined.

(** ** The priority scorer *)

Lemma clamp01_range (p : R) : (0 <= clamp01 p <= 1)%R.
Proof.
  unfold clamp01, Rmax, Rmin.
  destruct (Rle_dec 1 p); destruct (Rle_dec 0 _); lra.
Qed.

Lemma default_priorities_in_range : priorities_in_range default_priorities.
Proof.
  intros k v Hk. unfold default_priorities in Hk.
  apply elem_of_list_to_map_2 in Hk.
  repeat (apply elem_of_cons in Hk as [[= _ ->] | Hk]; [lra|]).
  by apply elem_of_nil in Hk.
Qed.

Lemma priorities_in_range_insert (priorities : gmap string R) (k : string) (p : R) :
  priorities_in_range priorities →
  priorities_in_range (<[k := clamp01 p]> priorities).
Proof.
  intros Hin k' v Hk. rewrite lookup_insert in Hk.
  destruct (decide (k = k')).
  - injection Hk as <-. apply clamp01_range.
  - eapply Hin. exact Hk.
Qed.

Lemma log2f_nonneg (x : R) : (1 <= x)%R → (0 <= log2f x)%R.
Proof.
  intros Hx. unfold log2f.
  assert (0 < ln 2)%R as H2 by (pose proof ln_lt_2; lra).
  assert (0 <= ln x)%R as Hl.
  { destruct Hx as [Hlt | <-]; [|rewrite ln_1; lra].
    rewrite <- ln_1. left. apply ln_increasing; lra. }
  apply Rmult_le_pos; [exact Hl|]. left. apply Rinv_0_lt_compat. exact H2.
Qed.

Lemma recency_at_most_one (d : Z) : 0 ≤ d → (0 < exp (IZR (- d) / 3600) <= 1)%R.
Proof.
  intros Hd. split; [apply exp_pos|].
  assert (IZR (- d) <= 0)%R as Hneg by (apply IZR_le; lia).
  assert (IZR (- d) / 3600 <= 0)%R as Hq by lra.
  destruct Hq as [Hlt | ->]; [|rewrite exp_0; lra].
  rewrite <- exp_0. left. apply exp_increasing. exact Hlt.
Qed.

Lemma seconds_since_nonneg (now last : Z) : last ≤ now → 0 ≤ seconds_since now last.
Proof. intros H. unfold seconds_since. apply Z.quot_pos; lia. Qed.

Lemma size_score_range (n : Z) :
  (0 < (if n >? 1024 then Rmin 1 (10240 / IZR n) else 1) <= 1)%R.
Proof.
  destruct (n >? 1024) eqn:Hn; [|lra].
  rewrite Z.gtb_ltb in Hn. apply Z.ltb_lt in Hn.
  assert (1024 < IZR n)%R as Hr by (apply IZR_lt in Hn; exact Hn).
  assert (0 < 10240 / IZR n)%R as Hpos
    by (apply Rdiv_lt_0_compat; lra).
  unfold Rmin. destruct (Rle_dec 1 _); lra.
Qed.

(** The four subscores are between 0 and 1 and the weights add up to 1. *)
Lemma score_in_unit_interval (priorities : gmap string R) (now : Z) (e : CacheEntry) :
  priorities_in_range priorities →
  0 ≤ accessCount (stats e) →
  lastAccessed (stats e) ≤ now →
  (0 <= calculatePriorityScore priorities now e <= 1)%R.
Proof.
  intros Hp Hcount Hclock. unfold calculatePriorityScore.
  assert (0 <= default 0.5 (priorities !! fileType (metadata e)) <= 1)%R as Htype.
  { destruct (priorities !! fileType (metadata e)) as [v|] eqn:Hv; cbn; [|lra].
    eapply Hp, Hv. }
  pose proof (size_score_range (fileSize (metadata e))) as Hsize.
  pose proof (recency_at_most_one _ (seconds_since_nonneg _ _ Hclock)) as Hrec.
  assert (0 <= Rmin 0.9 (log2f (1 + IZR (accessCount (stats e))) / 10) <= 0.9)%R as Hacc.
  { assert (0 <= log2f (1 + IZR (accessCount (stats e))))%R as Hl.
    { apply log2f_nonneg. apply IZR_le in Hcount. lra. }
    unfold Rmin. destruct (Rle_dec 0.9 _); lra. }
  cbv zeta. lra.
Qed.



(** ** Flushing the cache *)

Lemma set_diskWrites_same (c : ContentAwareCache) : set_diskWrites (diskWrites c) c = c.
Proof. destruct c. reflexivity. Qed.

Lemma flushEntry_writable (now : Z) (w : World) (kv : string * nat) :
  filePath (metadata (deref w kv.2)) ∉ write_denied (disk w) →
  heap (flushEntry now w kv) = heap w ∧
  cache (flushEntry now w kv)
    = set_diskWrites (size_t_wrap (diskWrites (cache w) + 1)) (cache w) ∧
  write_denied (disk (flushEntry now w kv)) = write_denied (disk w).
Proof.
  intros Hw. unfold flushEntry, write_back.
  rewrite bool_decide_eq_false_2 by exact Hw. cbn. done.
Qed.

Lemma flush_entries_writable (now : Z) (l : list (string * nat)) (w : World) :
  (∀ kv, kv ∈ l → filePath (metadata (deref w kv.2)) ∉ write_denied (disk w)) →
  0 ≤ diskWrites (cache w) →
  diskWrites (cache w) + Z.of_nat (length l) < 2 ^ 64 →
  heap (foldl (flushEntry now) w l) = heap w ∧
  cache (foldl (flushEntry now) w l)
    = set_diskWrites (diskWrites (cache w) + Z.of_nat (length l)) (cache w) ∧
  write_denied (disk (foldl (flushEntry now) w l)) = write_denied (disk w).
Proof.
  revert w. induction l as [|kv l IH]; intros w Hall H0 Hmax.
  - cbn. rewrite Z.add_0_r, set_diskWrites_same. done.
  - cbn [foldl].
    destruct (flushEntry_writable now w kv) as (Hh & Hc & Hd).
    { apply Hall. by left. }
    rewrite size_t_wrap_small in Hc by (cbn [length] in Hmax; lia).
    destruct (IH (flushEntry now w kv)) as (Hh' & Hc' & Hd').
    + intros kv' Hin. unfold deref. rewrite Hh, Hd. apply Hall. by right.
    + rewrite Hc. cbn. lia.
    + rewrite Hc. cbn. cbn [length] in Hmax. lia.
    + rewrite Hh', Hc', Hd', Hh, Hc, Hd. cbn.
      split; [done|]. split; [|done].
      unfold set_diskWrites. cbn. f_equal. cbn [length]. lia.
Qed.

Lemma flush_writable (now : Z) (w : World) :
  all_writable w → 0 ≤ diskWrites (cache w) →
  diskWrites (cache w) + getCacheEntryCount w < 2 ^ 64 →
  heap (flush now w) = heap w ∧
  cache (flush now w)
    = set_diskWrites (diskWrites (cache w) + getCacheEntryCount w) (cache w) ∧
  write_denied (disk (flush now w)) = write_denied (disk w).
Proof.
  intros Hall H0 Hmax. unfold flush, getCacheEntryCount in *.
  rewrite <- (length_map_to_list (cacheMap (cache w))) in *.
  apply flush_entries_writable; [|exact H0|exact Hmax].
  intros [p e] Hin. apply elem_of_map_to_list in Hin. cbn. eapply Hall, Hin.
Qed.

(** C8. Two calls of [flush] in a row, when every entry can be written
    back, add twice the number of entries to [diskWrites] and leave the
    entry map and every entry, its buffer included, as they were. *)
Theorem flush_twice (now1 now2 : Z) (w : World) :
  all_writable w → 0 ≤ diskWrites (cache w) →
  diskWrites (cache w) + 2 * getCacheEntryCount w < 2 ^ 64 →
  getDiskWriteCount (flush now2 (flush now1 w))
    = getDiskWriteCount w + 2 * getCacheEntryCount w ∧
  cacheMap (cache (flush now2 (flush now1 w))) = cacheMap (cache w) ∧
  heap (flush now2 (flush now1 w)) = heap w.
Proof.
  intros Hall H0 Hmax.
  assert (0 ≤ getCacheEntryCount w) as Hn by (unfold getCacheEntryCount; lia).
  destruct (flush_writable now1 w Hall H0) as (Hh1 & Hc1 & Hd1); [lia|].
  assert (getCacheEntryCount (flush now1 w) = getCacheEntryCount w) as Hcount
    by (unfold getCacheEntryCount; rewrite Hc1; reflexivity).
  destruct (flush_writable now2 (flush now1 w)) as (Hh2 & Hc2 & Hd2).
  - intros p e Hp. unfold deref. rewrite Hh1, Hd1.
    rewrite Hc1 in Hp. exact (Hall p e Hp).
  - rewrite Hc1. cbn. lia.
  - rewrite Hcount, Hc1. cbn. lia.
  - unfold getDiskWriteCount. rewrite Hc2, Hh2, Hcount, Hc1, Hh1. cbn.
    split; [lia|done].
Qed.

Lemma flush_twice_witness :
  getDiskWriteCount (flush 2 (flush 1 loaded_world)) = 2 ∧
  cacheMap (cache (flush 2 (flush 1 loaded_world))) = cacheMap (cache loaded_world) ∧
  heap (flush 2 (flush 1 loaded_world)) = heap loaded_world.
Proof.
  apply (flush_twice 1 2 loaded_world).
  - intros p e Hp. vm_compute. discriminate.
  - vm_compute. discriminate.
  - vm_compute. reflexivity.
Defined.

(** ** Opening a file *)

Lemma evictionLoop_room_made (fuel : nat) (requiredSize : Z) (w w' : World) :
  evictionLoop fuel requiredSize w = Returns w' → room_made w w'.
Proof.
  revert w. induction fuel as [|n IH]; intros w; cbn [evictionLoop].
  - destruct (_ && _); [|intros [= <-]; auto with cache_frame].
    destruct (bool_decide _); [intros [= <-]; auto with cache_frame | discriminate].
  - destruct (_ && _); [|intros [= <-]; auto with cache_frame].
    destruct (bool_decide _); [intros [= <-]; auto with cache_frame|].
    intros Hrun. eapply room_made_trans; [apply evictFile_room_made | apply IH, Hrun].
Qed.

Lemma with_maxCacheSize_room_made (v : Z) (w : World) :
  room_made w (with_cache (set_maxCacheSize v) w).
Proof.
  split; cbn; [unfold same_counters; cbn; done | done
              | apply entries_rescored_refl | done | done].
Qed.

Lemma makeRoomInCache_room_made (now requiredSize : Z) (w w' : World) :
  makeRoomInCache now requiredSize w = Returns w' → room_made w w'.
Proof.
  unfold makeRoomInCache.
  destruct (negb _); [intros [= <-]; auto with cache_frame|].
  returned as w1 eqn:Hrun.
  pose proof (room_made_trans _ _ _ (updateAllScores_room_made now w)
                (evictionLoop_room_made _ _ _ _ Hrun)) as Hrm.
  destruct (over_budget requiredSize w1); intros [= <-]; [|exact Hrm].
  eapply room_made_trans; [exact Hrm|].
  apply (with_maxCacheSize_room_made _ w1).
Qed.

(** A failed load changes no counter; a successful one leaves the path in
    the map. *)
Lemma loadFileIntoCache_result (now : Z) (path : string) (w w' : World) (loaded : bool) :
  loadFileIntoCache now path w = Returns (loaded, w') →
  if loaded then is_Some (cacheMap (cache w') !! path)
  else same_counters (cache w) (cache w').
Proof.
  unfold loadFileIntoCache.
  destruct (fileSize _ =? 0); [intros [= <- <-]; apply same_counters_refl|].
  returned as w1 eqn:Hroom.
  apply makeRoomInCache_room_made in Hroom as [Hc _ _ _ _].
  destruct (bool_decide _); intros [= <- <-]; [exact Hc|].
  cbn. rewrite lookup_insert_eq. eauto.
Qed.

(** C6 (as amended). When [openFile] returns the null pointer, the miss
    counter has been incremented once and the hit, disk-read and
    disk-write counters are unchanged. *)
Theorem openFile_error_counters (now : Z) (path mode : string) (w w' : World) :
  openFile now path mode w = Returns (None, w') →
  cacheMisses (cache w') = size_t_wrap (cacheMisses (cache w) + 1) ∧
  cacheHits (cache w') = cacheHits (cache w) ∧
  diskReads (cache w') = diskReads (cache w) ∧
  diskWrites (cache w') = diskWrites (cache w).
Proof.
  unfold openFile.
  destruct (cacheMap (cache w) !! path); [discriminate|].
  destruct (_ && _); [intros [= <-]; cbn; done|].
  destruct (contains "w" mode); [discriminate|].
  returned as [loaded w2] eqn:Hload.
  apply loadFileIntoCache_result in Hload.
  destruct loaded.
  - destruct Hload as [e He]. rewrite He. discriminate.
  - intros [= <-]. destruct Hload as (Hh & Hm & Hr & Hw & _). cbn in *.
    rewrite Hh, Hm, Hr, Hw. done.
Qed.

Lemma openFile_error_counters_witness :
  let w' := world_after (openFile 0 "missing.txt" "r" fresh_world) fresh_world in
  openFile 0 "missing.txt" "r" fresh_world = Returns (None, w') ∧
  cacheMisses (cache w') = 1 ∧
  cacheHits (cache w') = 0 ∧ diskReads (cache w') = 0 ∧ diskWrites (cache w') = 0.
Proof.
  intros w'. split; [reflexivity|].
  apply (openFile_error_counters 0 "missing.txt" "r" fresh_world w').
  reflexivity.
Defined.

(** C6, counterexample. A read-mode open of a path that is neither cached
    nor on disk returns the null pointer and has counted a miss. *)
Lemma openFile_error_counts_miss :
  ∃ w', openFile 0 "missing.txt" "r" fresh_world = Returns (None, w') ∧
        cacheMisses (cache fresh_world) = 0 ∧ cacheMisses (cache w') = 1.
Proof. eexists. split; [reflexivity|]. split; reflexivity. Qed.

(** The two paths of an open whose mode contains 'w'. On a miss (and, if
    the mode also contains 'r', the file exists) the handle is over a new
    entry with an empty buffer and size 0, which is then the entry of the
    path; on a hit the handle is over the existing entry and no entry has
    been modified. *)
Lemma openFile_write_mode (now : Z) (path mode : string) (w : World) :
  contains "w" mode = true →
  match cacheMap (cache w) !! path with
  | Some e =>
      ∃ w', openFile now path mode w
            = Returns (Some (newCacheFile e mode (weak_this (cache w))), w') ∧
            heap w' = heap w ∧ cacheMap (cache w') = cacheMap (cache w)
  | None =>
      if contains "r" mode && negb (file_exists w path)
      then ∃ w', openFile now path mode w = Returns (None, w') ∧
                 cacheMap (cache w') = cacheMap (cache w)
      else ∃ f w', openFile now path mode w = Returns (Some f, w') ∧
                   cacheMap (cache w') !! path = Some (entry f) ∧
                   data (deref w' (entry f)) = [] ∧
                   fileSize (metadata (deref w' (entry f))) = 0
  end.
Proof.
  intros Hw. unfold openFile, file_exists.
  destruct (cacheMap (cache w) !! path) as [e|] eqn:Hp.
  - eexists. split; [reflexivity|]. done.
  - cbn [disk with_cache].
    destruct (contains "r" mode && negb _).
    + eexists. split; [reflexivity|]. done.
    + rewrite Hw. do 2 eexists. split; [reflexivity|].
      cbn. rewrite lookup_insert_eq. split; [reflexivity|].
      unfold deref. cbn. rewrite list_lookup_total_middle by reflexivity. done.
Qed.

(** C4, at the failing input. The backing file a.txt holds the five bytes
    of hello. An open with mode "w" that misses starts from an empty entry,
    though the file exists; the same open when a.txt is resident returns a
    handle over the old entry, whose buffer still has the five bytes and
    whose recorded size is still 5. So the command that writes the one byte
    J to a.txt leaves J in the file when a.txt is not resident, and Jello
    when a.txt has been read before. *)
Theorem openFile_write_mode_keeps_old_bytes :
  (∃ f w', openFile 0 "a.txt" "w" fresh_world = Returns (Some f, w') ∧
           cacheMap (cache w') !! "a.txt" = Some (entry f) ∧
           data (deref w' (entry f)) = [] ∧
           fileSize (metadata (deref w' (entry f))) = 0) ∧
  cacheMap (cache loaded_world) !! "a.txt" = Some 0%nat ∧
  (∃ f w', openFile 1 "a.txt" "w" loaded_world = Returns (Some f, w') ∧
           cacheMap (cache w') !! "a.txt" = Some (entry f) ∧
           data (deref w' (entry f)) = hello ∧
           fileSize (metadata (deref w' (entry f))) = 5) ∧
  (∃ w', writeFile 2 3 4 "a.txt" [ "J" ]%byte fresh_world = Returns (Some 1, w') ∧
         files (disk w') !! "a.txt" = Some (mkFile [ "J" ]%byte 4)) ∧
  (∃ w1 w2, readFile 0 1 "a.txt" fresh_world = Returns (Some hello, w1) ∧
            writeFile 2 3 4 "a.txt" [ "J" ]%byte w1 = Returns (Some 1, w2) ∧
            files (disk w2) !! "a.txt"
            = Some (mkFile [ "J"; "e"; "l"; "l"; "o" ]%byte 4)).
Proof.
  split; [do 2 eexists; split; [vm_compute; reflexivity|];
          split; [vm_compute; reflexivity|]; split; vm_compute; reflexivity|].
  split; [vm_compute; reflexivity|].
  split; [do 2 eexists; split; [vm_compute; reflexivity|];
          split; [vm_compute; reflexivity|]; split; vm_compute; reflexivity|].
  split.
  - eexists. split; vm_compute; reflexivity.
  - do 2 eexists. split; [vm_compute; reflexivity|]. split; vm_compute; reflexivity.
Qed.

(** ** Operations as steps *)

Lemma objects_persist_refl (h : list CacheEntry) : objects_persist h h.
Proof. split; [lia|]. intros e _. split; [done|lia]. Qed.

Lemma objects_persist_trans (h1 h2 h3 : list CacheEntry) :
  objects_persist h1 h2 → objects_persist h2 h3 → objects_persist h1 h3.
Proof.
  intros [L1 E1] [L2 E2]. split; [lia|].
  intros e He. destruct (E1 e He) as [M1 D1]. destruct (E2 e) as [M2 D2]; [lia|].
  split; [congruence|lia].
Qed.

#[local] Hint Resolve objects_persist_refl : cache_frame.

Lemma objects_persist_rescored (h h' : list CacheEntry) :
  entries_rescored h h' → objects_persist h h'.
Proof.
  intros [L E]. split; [lia|]. intros e _. destruct (E e) as (M & _ & D).
  rewrite M, D. split; [done|lia].
Qed.

Lemma objects_persist_app (h : list CacheEntry) (x : CacheEntry) :
  objects_persist h (h ++ [x])%list.
Proof.
  split; [rewrite length_app; lia|].
  intros e He. rewrite lookup_total_app_l by exact He. split; [done|lia].
Qed.

Lemma objects_persist_alter (g : CacheEntry → CacheEntry) (e : nat) (h : list CacheEntry) :
  (∀ x, metadata (g x) = metadata x) →
  (length (data (h !!! e)) ≤ length (data (g (h !!! e))))%nat →
  objects_persist h (alter g e h).
Proof.
  intros Hm Hd. split; [rewrite length_alter; lia|].
  intros e' He'. rewrite list_lookup_total_alter.
  destruct (decide _) as [[-> _]|_]; [|split; [done|lia]].
  split; [apply Hm | exact Hd].
Qed.

Lemma room_made_persist (w w' : World) :
  room_made w w' → objects_persist (heap w) (heap w').
Proof. intros [_ _ H _ _]. apply objects_persist_rescored, H. Qed.

Lemma length_memcpy_into_ge (pos n : Z) (buffer d : list byte) :
  0 ≤ n ≤ Z.of_nat (length buffer) →
  (length d ≤ length (memcpy_into pos n buffer d))%nat.
Proof.
  intros Hn. unfold memcpy_into.
  rewrite !length_app, !length_take, length_drop. lia.
Qed.

Lemma loadFileIntoCache_persist (now : Z) (path : string) (w w' : World) (loaded : bool) :
  loadFileIntoCache now path w = Returns (loaded, w') →
  objects_persist (heap w) (heap w').
Proof.
  unfold loadFileIntoCache.
  destruct (fileSize _ =? 0); [intros [= <- <-]; auto with cache_frame|].
  returned as w1 eqn:Hroom.
  apply makeRoomInCache_room_made, room_made_persist in Hroom.
  destruct (bool_decide _); intros [= <- <-]; [exact Hroom|].
  cbn. eapply objects_persist_trans; [exact Hroom|].
  eapply objects_persist_trans; [apply objects_persist_app|].
  apply objects_persist_rescored, entries_rescored_alter.
Qed.

Lemma openFile_persist (now : Z) (path mode : string) (w w' : World)
    (r : option CacheFile) :
  openFile now path mode w = Returns (r, w') → objects_persist (heap w) (heap w').
Proof.
  unfold openFile.
  destruct (cacheMap (cache w) !! path); [intros [= <- <-]; auto with cache_frame|].
  destruct (_ && _); [intros [= <- <-]; auto with cache_frame|].
  destruct (contains "w" mode); [intros [= <- <-]; apply objects_persist_app|].
  returned as [loaded w2] eqn:Hload.
  apply loadFileIntoCache_persist in Hload.
  destruct loaded; intros [= <- <-]; exact Hload.
Qed.

Lemma growBuffer_persist (now newEnd : Z) (f : CacheFile) (w w' : World) :
  growBuffer now newEnd f w = Returns w' → objects_persist (heap w) (heap w').
Proof.
  unfold growBuffer.
  destruct (newEnd >? data_size w f) eqn:Hg;
    [|intros [= <-]; auto with cache_frame].
  destruct (cachePtr f); [|intros [= <-]; auto with cache_frame].
  returned as w0 eqn:Hroom. intros [= <-].
  apply makeRoomInCache_room_made in Hroom as [_ _ [Hlen Hsame] _ _].
  eapply objects_persist_trans;
    [apply objects_persist_rescored; split; [exact Hlen | exact Hsame]|].
  cbn. apply objects_persist_alter; [done|]. cbn.
  rewrite length_resize.
  rewrite Z.gtb_ltb in Hg. apply Z.ltb_lt in Hg. unfold data_size, deref in Hg.
  destruct (Hsame (entry f)) as (_ & _ & Hd). rewrite Hd. lia.
Qed.

Lemma write_persist (now : Z) (buffer : list byte) (size count : Z) (f f' : CacheFile)
    (w w' : World) (n : Z) :
  write now buffer size count f w = Returns (n, f', w') →
  objects_persist (heap w) (heap w').
Proof.
  unfold write.
  destruct (_ && _); [intros [= <- <- <-]; auto with cache_frame|].
  returned as w1 eqn:Hgrow.
  apply growBuffer_persist in Hgrow.
  destruct (_ || _) eqn:Hchk; [discriminate|].
  apply orb_false_elim in Hchk as [_ Hbuf].
  rewrite Z.gtb_ltb in Hbuf. apply Z.ltb_ge in Hbuf.
  intros [= <- <- <-]. cbn.
  eapply objects_persist_trans; [exact Hgrow|].
  apply objects_persist_alter; [done|]. cbn.
  apply length_memcpy_into_ge.
  pose proof (size_t_wrap_range (size * count)). lia.
Qed.

Lemma flushFile_heap (now : Z) (f : CacheFile) (w : World) :
  heap (flushFile now f w).2 = heap w.
Proof.
  unfold flushFile. destruct (negb (modified f)); [reflexivity|].
  destruct (write_back _ _ _ _); [destruct (cachePtr f)|]; reflexivity.
Qed.

Lemma updateEntryScore_rescored (now : Z) (path : string) (w : World) :
  entries_rescored (heap w) (heap (updateEntryScore now path w)).
Proof.
  unfold updateEntryScore. destruct (cacheMap (cache w) !! path);
    [apply entries_rescored_alter | apply entries_rescored_refl].
Qed.

Lemma destroyFile_persist (now : Z) (f : CacheFile) (w : World) :
  objects_persist (heap w) (heap (destroyFile now f w)).
Proof.
  unfold destroyFile.
  set (w1 := if modified f then _ else w).
  assert (heap w1 = heap w) as Hw1
    by (unfold w1; destruct (modified f); [apply flushFile_heap | reflexivity]).
  destruct (cachePtr f); [|rewrite Hw1; auto with cache_frame].
  eapply objects_persist_trans;
    [|apply objects_persist_rescored, updateEntryScore_rescored].
  cbn. rewrite Hw1. apply objects_persist_alter; [done|]. cbn. lia.
Qed.

Lemma flushEntry_heap (now : Z) (w : World) (kv : string * nat) :
  heap (flushEntry now w kv) = heap w.
Proof. unfold flushEntry. destruct (write_back _ _ _ _); reflexivity. Qed.

Lemma flush_heap (now : Z) (w : World) : heap (flush now w) = heap w.
Proof.
  unfold flush. generalize (map_to_list (cacheMap (cache w))). intros l.
  revert w. induction l as [|kv l IH]; intros w; cbn [foldl]; [reflexivity|].
  rewrite IH. apply flushEntry_heap.
Qed.

Lemma resizeCache_room_made (now newMaxSize : Z) (w w' : World) :
  resizeCache now newMaxSize w = Returns w' → room_made w w'.
Proof.
  unfold resizeCache.
  destruct (newMaxSize <? maxCacheSize (cache w)).
  - returned as w1 eqn:Hroom. intros [= <-].
    eapply room_made_trans; [eapply makeRoomInCache_room_made, Hroom|].
    apply (with_maxCacheSize_room_made _ w1).
  - cbn [mbind outcome_bind]. intros [= <-]. apply (with_maxCacheSize_room_made _ w).
Qed.

Lemma rescoreIfType_rescored (p : gmap string R) (now : Z) (ext : string)
    (l : list (string * nat)) (h : list CacheEntry) :
  entries_rescored h (foldl (rescoreIfType p now ext) h l).
Proof.
  revert h. induction l as [|kv l IH]; intros h; cbn [foldl].
  - apply entries_rescored_refl.
  - eapply entries_rescored_trans; [|apply IH].
    unfold rescoreIfType. destruct (bool_decide _);
      [apply entries_rescored_alter | apply entries_rescored_refl].
Qed.

Lemma setFileTypePriority_rescored (now : Z) (extension : string) (priority : R)
    (w : World) :
  entries_rescored (heap w) (heap (setFileTypePriority now extension priority w)).
Proof. unfold setFileTypePriority. cbn. apply rescoreIfType_rescored. Qed.

(** No operation removes an object, changes its metadata or shortens its
    buffer. *)
Lemma step_persist (w w' : World) : step w w' → objects_persist (heap w) (heap w').
Proof.
  intros [now Hstep]. destruct Hstep.
  - eapply openFile_persist; eassumption.
  - eapply write_persist; eassumption.
  - eapply room_made_persist, evictFile_room_made.
  - rewrite flushFile_heap. auto with cache_frame.
  - destruct file; cbn; [apply destroyFile_persist | auto with cache_frame].
  - rewrite flush_heap. auto with cache_frame.
  - eapply room_made_persist; eapply resizeCache_room_made; eassumption.
  - apply objects_persist_rescored, setFileTypePriority_rescored.
Qed.

(** A handle that no operation is applied to keeps its cursor inside the
    buffer while others change the state. *)
Lemma step_cursor_in_bounds (w w' : World) (f : CacheFile) :
  step w w' → (entry f < length (heap w))%nat →
  cursor_in_bounds w f → cursor_in_bounds w' f.
Proof.
  intros Hstep Hlive [Hlo Hhi].
  destruct (step_persist w w' Hstep) as [_ Hobj].
  destruct (Hobj (entry f) Hlive) as [_ Hlen].
  unfold cursor_in_bounds, data_size, deref in *. lia.
Qed.

(** The cursor of a handle whose cache is alive stays between 0 and the
    length of the buffer. From a state where it does: [read] returns with
    the cursor still inside and not moved back; [write], when the handle
    allows it and its weak pointer locks, returns with the cursor at the
    end of what it wrote, inside the buffer grown if needed; [seek] to a
    position before the beginning or past the length returns -1 and leaves
    the handle as it was, and to any other position returns 0 and puts the
    cursor there; and no operation of the cache or of another handle takes
    the buffer from under the cursor. *)
Lemma cursor_stays_in_buffer (f : CacheFile) (w : World) :
  cursor_in_bounds w f → data_size w f ≤ vector_max_size →
  (∀ size count,
     contains "r" (mode f) = true → size ≠ 0 →
     ∃ n bs f', read size count f w = Returns (n, bs, f') ∧
                cursor_in_bounds w f' ∧ position f ≤ position f') ∧
  (∀ now buffer size count,
     contains "w" (mode f) || contains "a" (mode f) = true →
     cachePtr f = true →
     lru_indexed w → (entry f < length (heap w))%nat →
     0 ≤ size * count ≤ Z.of_nat (length buffer) →
     write_start f w + size * count ≤ vector_max_size →
     ∃ f' w', write now buffer size count f w = Returns (count, f', w') ∧
              cursor_in_bounds w' f' ∧
              position f' = write_start f w + size * count ∧
              data_size w' f' = Z.max (data_size w f) (position f')) ∧
  (∀ offset origin,
     - 2 ^ 63 ≤ offset < 2 ^ 63 →
     match seek_target offset origin f w with
     | Some t =>
         if bool_decide (0 ≤ t ≤ data_size w f)
         then seek offset origin f w = (0, set_position t f) ∧
              cursor_in_bounds w (set_position t f)
         else seek offset origin f w = (-1, f)
     | None => seek offset origin f w = (-1, f)
     end) ∧
  (∀ w', step w w' → (entry f < length (heap w))%nat → cursor_in_bounds w' f).
Proof.
  intros Hc Hmax. split; [|split; [|split]].
  - intros size count Hr Hs.
    destruct (read_returns size count f w Hr Hs Hc) as (bs & f' & Hread & _ & Hc' & Hpos).
    exists (bytes_copied size count f w / size), bs, f'.
    split; [exact Hread|]. split; [exact Hc'|].
    rewrite (Hpos Hmax). destruct (bytes_copied_fits size count f w Hc). lia.
  - intros now buffer size count Hm Hptr Hlru Hlive Hn Hfit.
    destruct (write_returns now buffer size count f w Hm Hptr Hlru Hlive Hc Hn Hfit)
      as (f' & w' & Hwrite & _ & Hpos & Hsize & _).
    exists f', w'. split; [exact Hwrite|].
    pose proof (write_start_bounds f w Hc).
    split; [|split; [exact Hpos|]].
    + unfold cursor_in_bounds. rewrite Hpos, Hsize. lia.
    + rewrite Hsize, Hpos. reflexivity.
  - intros offset origin Hoff.
    destruct (seek_target offset origin f w) as [t|] eqn:Ht;
      [|apply seek_unknown_origin, Ht].
    destruct (bool_decide (0 ≤ t ≤ data_size w f)) eqn:Hin.
    + apply bool_decide_eq_true in Hin. split.
      * apply seek_accepts; assumption.
      * unfold cursor_in_bounds. rewrite data_size_set_position. exact Hin.
    + apply bool_decide_eq_false in Hin.
      eapply seek_rejects; try eassumption. lia.
  - intros w' Hstep Hlive. eapply step_cursor_in_bounds; eassumption.
Qed.

Lemma cursor_stays_in_buffer_sample :
  (∃ n bs f', read 1 3 reader loaded_world = Returns (n, bs, f') ∧
              cursor_in_bounds loaded_world f' ∧ position reader ≤ position f') ∧
  (∃ f' w', write 1 hello 1 5 appender loaded_world = Returns (5, f', w') ∧
            cursor_in_bounds w' f' ∧
            position f' = write_start appender loaded_world + 1 * 5 ∧
            data_size w' f' = Z.max (data_size loaded_world appender) (position f')) ∧
  seek (-1) SEEK_SET reader loaded_world = (-1, reader) ∧
  seek 6 SEEK_CUR reader loaded_world = (-1, reader) ∧
  seek (-2) SEEK_END reader loaded_world = (0, set_position 3 reader) ∧
  cursor_in_bounds (flush 1 loaded_world) reader.
Proof.
  assert (cursor_in_bounds loaded_world reader) as Hc
    by (vm_compute; split; discriminate).
  assert (data_size loaded_world reader ≤ vector_max_size) as Hmax
    by (vm_compute; discriminate).
  destruct (cursor_stays_in_buffer reader loaded_world Hc Hmax)
    as (Hread & _ & Hseek & Hstep).
  destruct (cursor_stays_in_buffer appender loaded_world Hc Hmax) as (_ & Hwrite & _).
  split; [|split; [|split; [|split; [|split]]]].
  - apply Hread; [reflexivity | discriminate].
  - apply Hwrite.
    + reflexivity.
    + reflexivity.
    + exact loaded_world_lru_indexed.
    + vm_compute. lia.
    + vm_compute. split; discriminate.
    + vm_compute. discriminate.
  - apply (Hseek (-1) SEEK_SET). lia.
  - apply (Hseek 6 SEEK_CUR). lia.
  - apply (Hseek (-2) SEEK_END). lia.
  - apply Hstep; [exists 1; apply step_flush | vm_compute; lia].
Qed.

(** A write that ends past the buffer, through a handle whose weak pointer
    does not lock, skips the growth of lines 56-64 and copies past the end
    of the vector at line 66. *)
Lemma write_without_cache (now : Z) (buffer : list byte) (size count : Z)
    (f : CacheFile) (w : World) :
  contains "w" (mode f) || contains "a" (mode f) = true →
  cachePtr f = false →
  0 ≤ write_start f w → 0 ≤ size * count →
  write_start f w + size * count < 2 ^ 64 →
  data_size w f < write_start f w + size * count →
  write now buffer size count f w = Fails BufferOverrun.
Proof.
  intros Hmode Hptr Hs Hn Hfit Hgrow. unfold write.
  replace (negb (contains "w" (mode f)) && negb (contains "a" (mode f))) with false
    by (destruct (contains "w" (mode f)), (contains "a" (mode f)); done).
  fold (write_start f w).
  rewrite (size_t_wrap_small (size * count)) by lia.
  rewrite (size_t_wrap_small (write_start f w + size * count)) by lia.
  unfold growBuffer. rewrite Hptr.
  destruct (_ >? data_size w f); cbn [mbind outcome_bind];
    (replace (write_start f w + size * count >? data_size w f) with true
       by (symmetry; rewrite Z.gtb_ltb; apply Z.ltb_lt; lia));
    reflexivity.
Qed.

(** C9, at the failing input. [write] makes the buffer longer only when
    the handle's weak pointer to the cache locks (line 56); the copy of
    line 66 and the move of the cursor of line 67 come either way. A cache
    that no shared pointer owns hands out handles whose pointer never
    locks: the handle that [openFile("b.txt", "w")] returns on such a
    cache has its cursor at 0 in an empty buffer, and writing one byte
    through it copies past the end of the buffer. So does a write through
    a handle that has outlived its cache. *)
Theorem write_without_cache_overruns :
  (∃ f w', openFile 0 "b.txt" "w" stack_world = Returns (Some f, w') ∧
           cachePtr f = false ∧ cursor_in_bounds w' f ∧ data_size w' f = 0 ∧
           write 1 [ "x" ]%byte 1 1 f w' = Fails BufferOverrun) ∧
  cursor_in_bounds created_world (expire writer) ∧
  write 1 hello 1 5 (expire writer) created_world = Fails BufferOverrun.
Proof.
  split; [|split].
  - eexists _, _. split; [vm_compute; reflexivity|].
    split; [reflexivity|]. split; [vm_compute; split; discriminate|].
    split; [vm_compute; reflexivity|].
    apply write_without_cache; [reflexivity | reflexivity | | lia | |];
      vm_compute; (reflexivity || discriminate).
  - vm_compute. split; discriminate.
  - apply write_without_cache; [reflexivity | reflexivity | | lia | |];
      vm_compute; (reflexivity || discriminate).
Qed.

(** *** Admission *)

Lemma makeRoomInCache_disk (now requiredSize : Z) (w w' : World) :
  makeRoomInCache now requiredSize w = Returns w' → disk w' = disk w.
Proof. intros H. apply makeRoomInCache_room_made in H as [_ D _ _ _]. exact D. Qed.

Lemma openFile_admits_consistent (now : Z) (path mode : string) (w w' : World)
    (f : CacheFile) :
  cacheMap (cache w) !! path = None →
  openFile now path mode w = Returns (Some f, w') →
  cacheMap (cache w') !! path = Some (entry f) ∧
  fileSize (metadata (deref w' (entry f))) = data_size w' f.
Proof.
  intros Hmiss. unfold openFile. rewrite Hmiss.
  destruct (_ && _); [discriminate|].
  destruct (contains "w" mode).
  - intros [= <- <-]. cbn. rewrite lookup_insert_eq. split; [reflexivity|].
    unfold data_size, deref. cbn.
    rewrite list_lookup_total_middle by reflexivity. reflexivity.
  - unfold loadFileIntoCache.
    destruct (fileSize _ =? 0); [discriminate|].
    returned as w1 eqn:Hroom.
    apply makeRoomInCache_disk in Hroom.
    destruct (bool_decide _); [discriminate|].
    cbn. rewrite lookup_insert_eq. cbn. intros [= <- <-].
    split; [cbn; apply lookup_insert_eq|].
    unfold data_size, deref. cbn.
    rewrite list_lookup_total_alter_eq by (rewrite length_app; cbn; lia).
    rewrite list_lookup_total_middle by reflexivity. cbn.
    rewrite Hroom. unfold getFileMetadata. cbn.
    destruct (files (disk w) !! path); reflexivity.
Qed.

(** C3 (as amended). The recorded size equals the buffer length when
    [openFile] admits an entry. No operation changes the metadata of an
    entry afterwards, so the recorded size stays what it was at admission
    while a write may make the buffer longer. *)
Theorem metadata_size_fixed_at_admission :
  (∀ now path mode w w' f,
     cacheMap (cache w) !! path = None →
     openFile now path mode w = Returns (Some f, w') →
     cacheMap (cache w') !! path = Some (entry f) ∧
     fileSize (metadata (deref w' (entry f))) = data_size w' f) ∧
  (∀ w w' e,
     step w w' → (e < length (heap w))%nat →
     fileSize (metadata (deref w' e)) = fileSize (metadata (deref w e)) ∧
     (length (data (deref w e)) ≤ length (data (deref w' e)))%nat).
Proof.
  split.
  - intros now path mode w w' f. apply openFile_admits_consistent.
  - intros w w' e Hstep He.
    destruct (step_persist w w' Hstep) as [_ Hobj].
    destruct (Hobj e He) as [Hm Hd]. unfold deref. rewrite Hm. done.
Qed.

Lemma metadata_size_fixed_at_admission_witness :
  (cacheMap (cache loaded_world) !! "a.txt" = Some (entry reader) ∧
   fileSize (metadata (deref loaded_world (entry reader))) = data_size loaded_world reader) ∧
  (fileSize (metadata (deref written_world 0)) = fileSize (metadata (deref created_world 0)) ∧
   (length (data (deref created_world 0)) ≤ length (data (deref written_world 0)))%nat).
Proof.
  destruct metadata_size_fixed_at_admission as [Hadmit Hstep].
  split.
  - apply (Hadmit 0 "a.txt" "r" fresh_world loaded_world (newCacheFile 0 "r" true));
      reflexivity.
  - apply Hstep.
    + exists 1.
      apply (step_write 1 hello 1 5 writer created_world 5
               (set_modified true (set_position 5 writer)) written_world).
      * vm_compute. split; discriminate.
      * reflexivity.
    + vm_compute. lia.
Defined.

(** C3, counterexample. After [openFile("b.txt", "w")] and a write of five
    bytes, the entry of b.txt records size 0 and has a buffer of five
    bytes. *)
Lemma write_leaves_recorded_size :
  ∃ f w1 f' w2,
    openFile 0 "b.txt" "w" fresh_world = Returns (Some f, w1) ∧
    write 1 hello 1 5 f w1 = Returns (5, f', w2) ∧
    cacheMap (cache w2) !! "b.txt" = Some (entry f') ∧
    fileSize (metadata (deref w2 (entry f'))) = 0 ∧
    data_size w2 f' = 5.
Proof.
  do 4 eexists. split; [reflexivity|]. split; [reflexivity|].
  split; [reflexivity|]. split; reflexivity.
Qed.

(** ** Changing a type priority *)

Lemma rescore_metadata (p : gmap string R) (now : Z) (x : CacheEntry) :
  metadata (rescore p now x) = metadata x.
Proof. reflexivity. Qed.


Lemma rescoreIfType_step (p : gmap string R) (now : Z) (ext : string)
    (h : list CacheEntry) (kv : string * nat) (e : nat) (ent : CacheEntry) :
  h !! e = Some ent →
  rescoreIfType p now ext h kv !! e
  = Some (if bool_decide (kv.2 = e ∧ fileType (metadata ent) = ext)
          then rescore p now ent else ent).
Proof.
  intros He. unfold rescoreIfType.
  destruct (decide (kv.2 = e)) as [Heq | Hne].
  - rewrite Heq, (list_lookup_total_correct _ _ _ He).
    destruct (decide (fileType (metadata ent) = ext)) as [Ht | Ht].
    + rewrite !bool_decide_eq_true_2 by done.
      rewrite list_lookup_alter_eq, He. reflexivity.
    + rewrite !bool_decide_eq_false_2 by tauto. exact He.
  - rewrite (bool_decide_eq_false_2 (kv.2 = e ∧ _)) by tauto.
    destruct (bool_decide _); [|exact He].
    rewrite list_lookup_alter_ne by exact Hne. exact He.
Qed.

Lemma rescoreIfType_foldl (p : gmap string R) (now : Z) (ext : string)
    (l : list (string * nat)) (h : list CacheEntry) (e : nat) (ent : CacheEntry) :
  h !! e = Some ent →
  foldl (rescoreIfType p now ext) h l !! e
  = Some (if bool_decide (e ∈ l.*2 ∧ fileType (metadata ent) = ext)
          then rescore p now ent else ent).
Proof.
  revert h ent. induction l as [|kv l IH]; intros h ent He; cbn [foldl].
  - rewrite bool_decide_eq_false_2; [exact He|].
    intros [Hin _]. by apply elem_of_nil in Hin.
  - pose proof (rescoreIfType_step p now ext h kv e ent He) as Hstep.
    rewrite (IH _ _ Hstep). f_equal.
    repeat match goal with
           | |- context [bool_decide ?P] => destruct (bool_decide_reflect P)
           end; try reflexivity; exfalso;
      repeat match goal with
             | H : ¬ (_ ∧ _) |- _ => apply not_and_l in H
             | H : _ ∧ _ |- _ => destruct H
             | H : _ ∈ (_ :: _).*2 |- _ => rewrite fmap_cons in H; apply elem_of_cons in H
             | H : ¬ _ ∈ (_ :: _).*2 |- _ => rewrite fmap_cons, not_elem_of_cons in H
             | H : _ ∨ _ |- _ => destruct H
             end; cbn in *; congruence.
Qed.

Lemma resident_map_to_list (w : World) (e : nat) :
  e ∈ (map_to_list (cacheMap (cache w))).*2 ↔ resident w e.
Proof.
  unfold resident. rewrite list_elem_of_fmap. split.
  - intros [[p e'] [-> Hin]]. exists p. by apply elem_of_map_to_list.
  - intros [p Hp]. exists (p, e). split; [done|]. by apply elem_of_map_to_list.
Qed.

Lemma dotted_cases (extension : string) :
  (extension = "" → dotted extension = "") ∧
  (∀ rest, extension = String "." rest → dotted extension = extension) ∧
  (∀ c rest, extension = String c rest → c ≠ "."%char →
             dotted extension = String "." extension).
Proof.
  split_and!.
  - intros ->. reflexivity.
  - intros rest ->. reflexivity.
  - intros c rest -> Hc. cbn.
    destruct (Ascii.eqb_spec c "."); [contradiction | reflexivity].
Qed.

Lemma clamp01_cases (priority : R) :
  ((priority <= 0)%R → clamp01 priority = 0%R) ∧
  ((0 <= priority <= 1)%R → clamp01 priority = priority) ∧
  ((1 <= priority)%R → clamp01 priority = 1%R).
Proof.
  unfold clamp01, Rmax, Rmin.
  split_and!; intros H; destruct (Rle_dec 1 priority); destruct (Rle_dec 0 _); lra.
Qed.

(** C5 (as amended). [setFileTypePriority] stores a value under a key and
    changes no other row of the table. The key is the extension as it was
    given, in the case it was given, with a dot put in front when it is
    not empty and does not begin with one. The value is the priority
    clamped into the interval from 0 to 1: 0 for a priority below 0, 1 for
    one above 1, and the priority itself in between. The call replaces the
    score of the resident entries whose type is that key by their score
    under the new table and leaves every other entry as it was. *)
Theorem setFileTypePriority_effect (now : Z) (extension : string) (priority : R)
    (w : World) (e : nat) (ent : CacheEntry) :
  heap w !! e = Some ent →
  let w' := setFileTypePriority now extension priority w in
  ∃ (key : string) (value : R),
    (extension = "" → key = "") ∧
    (∀ rest, extension = String "." rest → key = extension) ∧
    (∀ c rest, extension = String c rest → c ≠ "."%char →
               key = String "." extension) ∧
    ((priority <= 0)%R → value = 0%R) ∧
    ((0 <= priority <= 1)%R → value = priority) ∧
    ((1 <= priority)%R → value = 1%R) ∧
    fileTypePriorities (cache w') = <[key := value]> (fileTypePriorities (cache w)) ∧
    cacheMap (cache w') = cacheMap (cache w) ∧
    (resident w e → fileType (metadata ent) = key →
     heap w' !! e = Some (rescore (fileTypePriorities (cache w')) now ent)) ∧
    (fileType (metadata ent) ≠ key → heap w' !! e = Some ent) ∧
    (¬ resident w e → heap w' !! e = Some ent).
Proof.
  intros He w'. exists (dotted extension), (clamp01 priority).
  destruct (dotted_cases extension) as (Hk0 & Hk1 & Hk2).
  destruct (clamp01_cases priority) as (Hv0 & Hv1 & Hv2).
  assert (heap w' !! e
          = Some (if bool_decide (e ∈ (map_to_list (cacheMap (cache w))).*2 ∧
                                  fileType (metadata ent) = dotted extension)
                  then rescore (fileTypePriorities (cache w')) now ent else ent)) as Hl
    by (apply (rescoreIfType_foldl _ now (dotted extension) _ (heap w) e ent He)).
  split_and!; try assumption; try reflexivity.
  - intros Hres Ht. rewrite Hl, bool_decide_eq_true_2; [reflexivity|].
    split; [apply resident_map_to_list, Hres | exact Ht].
  - intros Ht. rewrite Hl, bool_decide_eq_false_2; [reflexivity | tauto].
  - intros Hres. rewrite Hl, bool_decide_eq_false_2; [reflexivity|].
    rewrite resident_map_to_list. tauto.
Qed.

Lemma setFileTypePriority_effect_witness :
  let w' := setFileTypePriority 5 "txt" 2 loaded_world in
  fileTypePriorities (cache w') !! ".txt" = Some 1%R ∧
  heap w' !! 0%nat
  = Some (rescore (fileTypePriorities (cache w')) 5 (deref loaded_world 0)).
Proof.
  intros w'.
  destruct (setFileTypePriority_effect 5 "txt" 2 loaded_world 0 (deref loaded_world 0))
    as (key & value & _ & _ & Hkey & _ & _ & Hvalue & Htable & _ & Hsame & _ & _).
  - reflexivity.
  - assert (key = ".txt") as -> by (apply (Hkey "t"%char "xt"); [reflexivity | discriminate]).
    assert (value = 1%R) as -> by (apply Hvalue; lra).
    split.
    + fold w' in Htable. rewrite Htable. apply lookup_insert_eq.
    + apply Hsame; [exists "a.txt"; reflexivity | reflexivity].
Defined.

(** C5, counterexample. Given "TXT", the priority is stored under ".TXT":
    the lowercase key ".txt" keeps the priority it had. *)
Lemma setFileTypePriority_keeps_case :
  let table := fileTypePriorities (cache (setFileTypePriority 0 "TXT" 0.5 fresh_world)) in
  table !! ".TXT" = Some (clamp01 0.5) ∧
  table !! ".txt" = Some 0.7%R ∧
  clamp01 0.5 ≠ 0.7%R.
Proof.
  split; [reflexivity|]. split; [reflexivity|].
  unfold clamp01, Rmax, Rmin.
  destruct (Rle_dec 1 0.5); destruct (Rle_dec 0 _); lra.
Qed.

(** ** Choosing a victim *)

Lemma FLT_MAX_above_one : (1 < FLT_MAX)%R.
Proof.
  unfold FLT_MAX.
  assert (1 <= 2 ^ 23)%R as H23 by (apply pow_R1_Rle; lra).
  assert (1 <= 2 ^ 126)%R as H126 by (apply pow_R1_Rle; lra).
  assert (0 < / 2 ^ 23 <= 1)%R as Hinv.
  { split; [apply Rinv_0_lt_compat; lra|].
    rewrite <- Rinv_1. apply Rinv_le_contravar; lra. }
  replace (2 ^ 127)%R with (2 * 2 ^ 126)%R by (change 127%nat with (S 126); cbn [pow]; lra).
  nra.
Qed.

(** The scan keeps the first of the entries with the lowest score. *)
Lemma scanForLowest_first_lowest (p : string) (s : R) (rest : list (string * R))
    (c0 : string) (s0 : R) :
  (s < s0)%R → Forall (λ kv, s <= kv.2)%R rest →
  scanForLowest ((p, s) :: rest) c0 s0 = (p, s).
Proof.
  intros Hlt Hmin. cbn [scanForLowest].
  destruct (Rlt_dec s s0) as [_|Hn]; [|contradiction].
  clear Hlt. induction Hmin as [|[q t] rest Hq _ IH]; cbn [scanForLowest]; [reflexivity|].
  destruct (Rlt_dec t s) as [Hts|_]; [cbn in Hq; lra | exact IH].
Qed.

(** When the first scanned entry has a score that no other entry is below,
    it is the victim whatever the LRU list is. *)
Lemma selectVictim_first_lowest (p : string) (s : R) (rest : list (string * R))
    (lru : list string) :
  p ≠ "" → (s < FLT_MAX)%R → Forall (λ kv, s <= kv.2)%R rest →
  selectVictim ((p, s) :: rest) lru = p.
Proof.
  intros Hp Hlt Hmin. unfold selectVictim.
  rewrite (scanForLowest_first_lowest p s rest "" FLT_MAX Hlt Hmin). cbn [fst].
  rewrite bool_decide_eq_false_2 by exact Hp. reflexivity.
Qed.




(** The third part: no victim in an empty map. *)
Lemma findEntryForEviction_empty (w : World) :
  cacheMap (cache w) = ∅ → findEntryForEviction w = "".
Proof.
  intros Hempty. unfold findEntryForEviction.
  rewrite bool_decide_eq_true_2 by exact Hempty. reflexivity.
Qed.

(** *** A tie between two young entries *)

Lemma fresh_score_below_FLT_MAX (now : Z) (meta : FileMetadata) :
  (calculatePriorityScore default_priorities now (newCacheEntry now meta) < FLT_MAX)%R.
Proof.
  assert (0 <= calculatePriorityScore default_priorities now (newCacheEntry now meta) <= 1)%R
    as H by (apply score_in_unit_interval;
             [exact default_priorities_in_range | cbn; lia | cbn; lia]).
  pose proof FLT_MAX_above_one. lra.
Qed.

(** C1, at the failing input. a.txt and b.txt have the same score, the
    lowest there is; b.txt is the back of the LRU list; the victim is
    a.txt. *)
Theorem findEntryForEviction_tie_not_lru_back :
  priorityScore (deref tie_world 0) = priorityScore (deref tie_world 1) ∧
  cacheMap (cache tie_world) = {[ "a.txt" := 0%nat; "b.txt" := 1%nat ]} ∧
  lruList (cache tie_world) = ["a.txt"; "b.txt"] ∧
  lru_back (lruList (cache tie_world)) = "b.txt" ∧
  findEntryForEviction tie_world = "a.txt".
Proof.
  split; [vm_compute; reflexivity|]. split; [vm_compute; reflexivity|].
  split; [vm_compute; reflexivity|]. split; [vm_compute; reflexivity|].
  unfold findEntryForEviction.
  replace (bool_decide (cacheMap (cache tie_world) = ∅)) with false
    by (vm_compute; reflexivity).
  replace (lruList (cache tie_world)) with ["a.txt"; "b.txt"]
    by (vm_compute; reflexivity).
  set (meta := mkFileMetadata "a.txt" ".txt" 0 0).
  set (s := calculatePriorityScore default_priorities 0 (newCacheEntry 0 meta)).
  assert (scored_entries tie_world = [("a.txt", s); ("b.txt", s)]) as ->
    by (vm_compute; reflexivity).
  apply selectVictim_first_lowest.
  - discriminate.
  - apply fresh_score_below_FLT_MAX.
  - constructor; [right; reflexivity | constructor].
Qed.

(** ** Size accounting *)

Lemma small_created_victim :
  findEntryForEviction (updateAllScores 1 small_created) = "b.txt".
Proof.
  unfold findEntryForEviction.
  replace (bool_decide (cacheMap (cache (updateAllScores 1 small_created)) = ∅))
    with false by (vm_compute; reflexivity).
  set (meta := mkFileMetadata "b.txt" ".txt" 0 0).
  set (e := newCacheEntry 0 meta).
  assert (scored_entries (updateAllScores 1 small_created)
          = [("b.txt", calculatePriorityScore default_priorities 1 e)]) as ->
    by (vm_compute; reflexivity).
  apply selectVictim_first_lowest.
  - discriminate.
  - assert (0 <= calculatePriorityScore default_priorities 1 e <= 1)%R as H
      by (apply score_in_unit_interval;
          [exact default_priorities_in_range | cbn; lia | cbn; lia]).
    pose proof FLT_MAX_above_one. lra.
  - constructor.
Qed.

Lemma small_created_makeRoom :
  makeRoomInCache 1 11 small_created
  = Returns (with_cache (set_maxCacheSize 11)
               (evictFile "b.txt" (updateAllScores 1 small_created))).
Proof.
  unfold makeRoomInCache.
  replace (over_budget 11 small_created) with true by (vm_compute; reflexivity).
  cbn [negb].
  replace (size (cacheMap (cache small_created))) with 1%nat by (vm_compute; reflexivity).
  cbn [evictionLoop].
  replace (over_budget 11 (updateAllScores 1 small_created)) with true
    by (vm_compute; reflexivity).
  replace (bool_decide (cacheMap (cache (updateAllScores 1 small_created)) = ∅))
    with false by (vm_compute; reflexivity).
  cbn [andb negb]. rewrite small_created_victim.
  replace (bool_decide ("b.txt" = "")) with false by (vm_compute; reflexivity).
  replace (bool_decide
             (cacheMap (cache (evictFile "b.txt" (updateAllScores 1 small_created))) = ∅))
    with true by (vm_compute; reflexivity).
  rewrite andb_false_r. cbn [mbind outcome_bind].
  replace (over_budget 11 (evictFile "b.txt" (updateAllScores 1 small_created)))
    with true by (vm_compute; reflexivity).
  reflexivity.
Qed.

(** C2, at the failing input. In a cache of ten bytes, b.txt is opened
    for writing and eleven bytes are written through the handle. The call
    returns 11; making room has evicted the entry being written, the map is
    empty, and [currentCacheSize] is 11. *)
Theorem write_breaks_size_accounting :
  ∃ f' w',
    write 1 eleven_bytes 1 11 writer small_created = Returns (11, f', w') ∧
    cacheMap (cache w') = ∅ ∧
    resident_bytes w' = 0 ∧
    getCacheSize w' = 11.
Proof.
  unfold write.
  replace (negb (contains "w" (mode writer)) && negb (contains "a" (mode writer)))
    with false by reflexivity.
  replace (contains "a" (mode writer)) with false by reflexivity.
  cbn [andb]. change (position writer) with 0.
  change (size_t_wrap (0 + size_t_wrap (1 * 11))) with 11.
  change (size_t_wrap (1 * 11)) with 11.
  unfold growBuffer.
  replace (data_size small_created writer) with 0 by (vm_compute; reflexivity).
  change (11 >? 0) with true. change (cachePtr writer) with true. cbv iota.
  change (size_t_wrap (11 - 0)) with 11.
  rewrite small_created_makeRoom. cbn [mbind outcome_bind].
  set (w1 := with_cache _ (with_heap _ _)).
  replace (data_size w1 writer) with 11 by (vm_compute; reflexivity).
  replace ((0 + 11 >? 11) || (11 >? Z.of_nat (length eleven_bytes))) with false
    by (vm_compute; reflexivity).
  do 2 eexists. split; [reflexivity|].
  split; [vm_compute; reflexivity|]. split; vm_compute; reflexivity.
Qed.

(** *** Where the accounting holds *)

Lemma size_t_wrap_sub_l (a b : Z) : size_t_wrap (size_t_wrap a - b) = size_t_wrap (a - b).
Proof. unfold size_t_wrap. apply Zminus_mod_idemp_l. Qed.

Lemma size_t_wrap_add_l (a b : Z) : size_t_wrap (size_t_wrap a + b) = size_t_wrap (a + b).
Proof. unfold size_t_wrap. apply Zplus_mod_idemp_l. Qed.

Lemma size_t_wrap_add_r (a b : Z) : size_t_wrap (a + size_t_wrap b) = size_t_wrap (a + b).
Proof. unfold size_t_wrap. apply Zplus_mod_idemp_r. Qed.

Lemma bytes_of_perm (h : list CacheEntry) (l l' : list (string * nat)) :
  l ≡ₚ l' → bytes_of h l = bytes_of h l'.
Proof.
  intros Hp. induction Hp as [|kv l l' _ IH|kv kv' l|l1 l2 l3 _ IH1 _ IH2].
  - reflexivity.
  - cbn. unfold bytes_of in IH. rewrite IH. reflexivity.
  - cbn. lia.
  - congruence.
Qed.

Lemma bytes_of_ext (h h' : list CacheEntry) (l : list (string * nat)) :
  (∀ kv, kv ∈ l → length (data (h' !!! kv.2)) = length (data (h !!! kv.2))) →
  bytes_of h' l = bytes_of h l.
Proof.
  induction l as [|kv l IH]; intros Hsame; [reflexivity|].
  cbn. unfold bytes_of in IH. rewrite IH by (intros kv' Hin; apply Hsame; by right).
  unfold getMemoryUsage. rewrite (Hsame kv) by (by left). reflexivity.
Qed.

Lemma bytes_of_map_delete (h : list CacheEntry) (m : gmap string nat) (p : string) (e : nat) :
  m !! p = Some e →
  bytes_of h (map_to_list m)
  = getMemoryUsage (h !!! e) + bytes_of h (map_to_list (delete p m)).
Proof.
  intros Hp. rewrite <- (bytes_of_perm h _ _ (map_to_list_delete m p e Hp)). reflexivity.
Qed.

Lemma bytes_of_map_insert (h : list CacheEntry) (m : gmap string nat) (p : string) (e : nat) :
  m !! p = None →
  bytes_of h (map_to_list (<[p := e]> m))
  = getMemoryUsage (h !!! e) + bytes_of h (map_to_list m).
Proof.
  intros Hp. rewrite (bytes_of_perm h _ _ (map_to_list_insert m p e Hp)). reflexivity.
Qed.

(** A state with the same map and count, and buffers of the same length
    for the entries of the map, is accounted for as well. *)
Lemma accounted_same_resident (w w' : World) :
  currentCacheSize (cache w') = currentCacheSize (cache w) →
  cacheMap (cache w') = cacheMap (cache w) →
  (∀ p e, cacheMap (cache w) !! p = Some e →
          length (data (heap w' !!! e)) = length (data (heap w !!! e))) →
  accounted w → accounted w'.
Proof.
  intros Hc Hm Hd Hacc. unfold accounted, resident_bytes in *.
  rewrite Hc, Hm, Hacc. f_equal. symmetry. apply bytes_of_ext.
  intros [p e] Hin. apply elem_of_map_to_list in Hin. cbn. eapply Hd, Hin.
Qed.

Lemma accounted_rescored (w w' : World) :
  currentCacheSize (cache w') = currentCacheSize (cache w) →
  cacheMap (cache w') = cacheMap (cache w) →
  entries_rescored (heap w) (heap w') →
  accounted w → accounted w'.
Proof.
  intros Hc Hm [_ Hsame]. apply accounted_same_resident; [exact Hc | exact Hm|].
  intros p e _. destruct (Hsame e) as (_ & _ & ->). reflexivity.
Qed.

Lemma evictFile_accounted (path : string) (w : World) :
  accounted w → accounted (evictFile path w).
Proof.
  intros Hacc. unfold evictFile.
  destruct (cacheMap (cache w) !! path) as [e|] eqn:Hp; [|exact Hacc].
  unfold accounted, resident_bytes in *. cbn.
  rewrite Hacc, size_t_wrap_sub_l. f_equal.
  rewrite (bytes_of_map_delete _ _ _ _ Hp). unfold deref. lia.
Qed.

Lemma evictionLoop_accounted (fuel : nat) (requiredSize : Z) (w w' : World) :
  evictionLoop fuel requiredSize w = Returns w' → accounted w → accounted w'.
Proof.
  revert w. induction fuel as [|n IH]; intros w; cbn [evictionLoop].
  - destruct (_ && _); [|intros [= <-]; done].
    destruct (bool_decide _); [intros [= <-]; done | discriminate].
  - destruct (_ && _); [|intros [= <-]; done].
    destruct (bool_decide _); [intros [= <-]; done|].
    intros Hrun Hacc. eapply IH; [exact Hrun|]. apply evictFile_accounted, Hacc.
Qed.

Lemma makeRoomInCache_accounted (now requiredSize : Z) (w w' : World) :
  makeRoomInCache now requiredSize w = Returns w' → accounted w → accounted w'.
Proof.
  unfold makeRoomInCache.
  destruct (negb _); [intros [= <-]; done|].
  returned as w1 eqn:Hrun. intros Hret Hacc.
  assert (accounted w1) as Hacc1.
  { eapply evictionLoop_accounted; [exact Hrun|].
    eapply accounted_rescored; [| |apply (rm_heap _ _ (updateAllScores_room_made now w))|exact Hacc];
      reflexivity. }
  destruct (over_budget requiredSize w1); injection Hret as <-; exact Hacc1.
Qed.

Lemma room_made_well_formed (w w' : World) :
  room_made w w' → map_well_formed w → map_well_formed w'.
Proof.
  intros [_ _ [Hlen _] Hmap _] [Hlive Hinj]. split.
  - intros p e Hp. rewrite Hlen. eapply Hlive, Hmap, Hp.
  - intros p q e Hp Hq. eapply Hinj; eapply Hmap; eassumption.
Qed.

(** Admission of a new object for a path that has none. *)
Lemma admit_accounted (w w' : World) (path : string) (n : nat) :
  map_well_formed w → accounted w →
  cacheMap (cache w) !! path = None →
  cacheMap (cache w') = <[path := length (heap w)]> (cacheMap (cache w)) →
  currentCacheSize (cache w') = size_t_wrap (currentCacheSize (cache w) + Z.of_nat n) →
  length (heap w') = S (length (heap w)) →
  (∀ e, (e < length (heap w))%nat →
        length (data (heap w' !!! e)) = length (data (heap w !!! e))) →
  length (data (heap w' !!! length (heap w))) = n →
  accounted w' ∧ map_well_formed w'.
Proof.
  intros [Hlive Hinj] Hacc Hfresh Hm Hc Hlen Hold Hnew. split.
  - unfold accounted, resident_bytes in *.
    rewrite Hc, Hm, Hacc, size_t_wrap_add_l. f_equal.
    rewrite bytes_of_map_insert by exact Hfresh.
    unfold getMemoryUsage. rewrite Hnew.
    rewrite (bytes_of_ext (heap w) (heap w')); [lia|].
    intros [p e] Hin. apply elem_of_map_to_list in Hin. cbn.
    apply Hold. eapply Hlive, Hin.
  - split.
    + intros p e. rewrite Hm, Hlen, lookup_insert.
      destruct (decide (path = p)); [intros [= <-]; lia|].
      intros Hp. apply Hlive in Hp. lia.
    + intros p q e. rewrite Hm, !lookup_insert.
      destruct (decide (path = p)) as [<-|Hp]; destruct (decide (path = q)) as [<-|Hq];
        try done.
      * intros [= <-] Hq'. apply Hlive in Hq'. lia.
      * intros Hp' [= <-]. apply Hlive in Hp'. lia.
      * apply Hinj.
Qed.

Lemma openFile_accounted (now : Z) (path mode : string) (w w' : World)
    (r : option CacheFile) :
  map_well_formed w → accounted w →
  openFile now path mode w = Returns (r, w') →
  accounted w' ∧ map_well_formed w'.
Proof.
  intros Hwf Hacc. unfold openFile.
  destruct (cacheMap (cache w) !! path) as [e|] eqn:Hp.
  { intros [= <- <-]. split; [|destruct Hwf; split; assumption].
    eapply accounted_same_resident; [..|exact Hacc]; done. }
  set (w0 := with_cache _ w).
  assert (accounted w0 ∧ map_well_formed w0) as [Hacc0 Hwf0].
  { split; [|destruct Hwf; split; assumption].
    eapply accounted_same_resident; [..|exact Hacc]; done. }
  destruct (_ && _); [intros [= <- <-]; done|].
  destruct (contains "w" mode).
  - intros [= <- <-].
    apply (admit_accounted w0 _ path 0 Hwf0 Hacc0 Hp); cbn.
    + reflexivity.
    + rewrite Z.add_0_r. unfold accounted in Hacc. rewrite Hacc.
      unfold size_t_wrap. rewrite Zmod_mod. reflexivity.
    + rewrite length_app. cbn. lia.
    + intros e He. rewrite lookup_total_app_l by exact He. reflexivity.
    + rewrite list_lookup_total_middle by reflexivity. reflexivity.
  - unfold loadFileIntoCache.
    destruct (fileSize _ =? 0); [intros [= <- <-]; done|].
    returned as w1 eqn:Hroom.
    pose proof (makeRoomInCache_accounted _ _ _ _ Hroom Hacc0) as Hacc1.
    pose proof (makeRoomInCache_room_made _ _ _ _ Hroom) as Hrm.
    pose proof (room_made_well_formed _ _ Hrm Hwf0) as Hwf1.
    assert (cacheMap (cache w1) !! path = None) as Hp1.
    { destruct (cacheMap (cache w1) !! path) as [e|] eqn:He; [|reflexivity].
      apply (rm_map _ _ Hrm) in He. cbn in He. congruence. }
    destruct (bool_decide _); [intros [= <- <-]; done|].
    cbn. rewrite lookup_insert_eq. cbn. intros [= <- <-].
    set (bytes := default [] (content <$> files (disk w1) !! path)).
    apply (admit_accounted w1 _ path (length bytes) Hwf1 Hacc1 Hp1); cbn.
    + reflexivity.
    + f_equal. f_equal. unfold bytes, getFileMetadata.
      rewrite (rm_disk _ _ Hrm). cbn.
      destruct (files (disk w) !! path); reflexivity.
    + rewrite length_alter, length_app. cbn. lia.
    + intros e He. rewrite list_lookup_total_alter_ne by lia.
      rewrite lookup_total_app_l by exact He. reflexivity.
    + rewrite list_lookup_total_alter_eq by (rewrite length_app; cbn; lia).
      rewrite list_lookup_total_middle by reflexivity. reflexivity.
Qed.

Lemma flushFile_cache_frame (now : Z) (f : CacheFile) (w : World) :
  currentCacheSize (cache (flushFile now f w).2) = currentCacheSize (cache w) ∧
  cacheMap (cache (flushFile now f w).2) = cacheMap (cache w).
Proof.
  unfold flushFile. destruct (negb (modified f)); [done|].
  destruct (write_back _ _ _ _); [destruct (cachePtr f)|]; done.
Qed.

Lemma flush_cache_frame (now : Z) (w : World) :
  currentCacheSize (cache (flush now w)) = currentCacheSize (cache w) ∧
  cacheMap (cache (flush now w)) = cacheMap (cache w).
Proof.
  unfold flush. generalize (map_to_list (cacheMap (cache w))). intros l.
  revert w. induction l as [|kv l IH]; intros w; cbn [foldl]; [done|].
  destruct (IH (flushEntry now w kv)) as [-> ->].
  unfold flushEntry. destruct (write_back _ _ _ _); done.
Qed.

Lemma destroyFile_frame (now : Z) (f : CacheFile) (w : World) :
  currentCacheSize (cache (destroyFile now f w)) = currentCacheSize (cache w) ∧
  cacheMap (cache (destroyFile now f w)) = cacheMap (cache w) ∧
  length (heap (destroyFile now f w)) = length (heap w) ∧
  ∀ e, data (heap (destroyFile now f w) !!! e) = data (heap w !!! e).
Proof.
  unfold destroyFile.
  set (w1 := if modified f then _ else w).
  assert (heap w1 = heap w ∧ currentCacheSize (cache w1) = currentCacheSize (cache w) ∧
          cacheMap (cache w1) = cacheMap (cache w)) as (Hh & Hc & Hm).
  { unfold w1. destruct (modified f); [|done].
    destruct (flushFile_cache_frame now f w). rewrite flushFile_heap. done. }
  destruct (cachePtr f); [|rewrite Hh, Hc, Hm; done].
  set (w2 := with_heap _ w1).
  destruct (updateEntryScore_rescored now (filePath (metadata (deref w2 (entry f)))) w2)
    as [Hlen Hsame].
  assert (cache (updateEntryScore now (filePath (metadata (deref w2 (entry f)))) w2)
          = cache w1) as Hcache
    by (unfold updateEntryScore; destruct (_ !! _); reflexivity).
  rewrite Hcache, Hc, Hm, Hlen. cbn. rewrite length_alter, Hh.
  repeat split. intros e. destruct (Hsame e) as (_ & _ & ->). cbn.
  rewrite list_lookup_total_alter, Hh.
  destruct (decide _) as [[-> _]|_]; reflexivity.
Qed.

Lemma closeFile_accounted (now : Z) (file : option CacheFile) (w : World) :
  map_well_formed w → accounted w →
  accounted (closeFile now file w).2 ∧ map_well_formed (closeFile now file w).2.
Proof.
  intros Hwf Hacc. destruct file as [f|]; [|done]. cbn.
  destruct (destroyFile_frame now f w) as (Hc & Hm & Hlen & Hd). split.
  - eapply accounted_same_resident; [exact Hc | exact Hm | | exact Hacc].
    intros p e _. rewrite Hd. reflexivity.
  - destruct Hwf as [Hlive Hinj]. split; rewrite Hm; [rewrite Hlen|]; assumption.
Qed.

Lemma flush_accounted (now : Z) (w : World) :
  map_well_formed w → accounted w →
  accounted (flush now w) ∧ map_well_formed (flush now w).
Proof.
  intros [Hlive Hinj] Hacc. destruct (flush_cache_frame now w) as [Hc Hm]. split.
  - eapply accounted_same_resident; [exact Hc | exact Hm | | exact Hacc].
    intros p e _. rewrite flush_heap. reflexivity.
  - split; rewrite Hm; [rewrite flush_heap|]; assumption.
Qed.

Lemma resizeCache_accounted (now newMaxSize : Z) (w w' : World) :
  map_well_formed w → accounted w →
  resizeCache now newMaxSize w = Returns w' →
  accounted w' ∧ map_well_formed w'.
Proof.
  intros Hwf Hacc Hres. split.
  - revert Hres. unfold resizeCache.
    destruct (newMaxSize <? maxCacheSize (cache w)).
    + returned as w1 eqn:Hroom. intros [= <-].
      apply (makeRoomInCache_accounted _ _ _ _ Hroom Hacc).
    + cbn [mbind outcome_bind]. intros [= <-]. exact Hacc.
  - eapply room_made_well_formed; [eapply resizeCache_room_made, Hres | exact Hwf].
Qed.

Lemma setFileTypePriority_accounted (now : Z) (extension : string) (priority : R)
    (w : World) :
  map_well_formed w → accounted w →
  accounted (setFileTypePriority now extension priority w) ∧
  map_well_formed (setFileTypePriority now extension priority w).
Proof.
  intros [Hlive Hinj] Hacc.
  pose proof (setFileTypePriority_rescored now extension priority w) as Hres. split.
  - eapply accounted_rescored; [| |exact Hres|exact Hacc]; reflexivity.
  - destruct Hres as [Hlen _]. split; [intros p e Hp; rewrite Hlen; eapply Hlive, Hp|].
    exact Hinj.
Qed.

(** A write keeps the count right when the buffer does not grow, and when
    the entry it grows is in the map once room has been made. *)
Lemma write_accounted (now : Z) (buffer : list byte) (size count : Z) (f f' : CacheFile)
    (w w' : World) (n : Z) :
  map_well_formed w → accounted w → cursor_in_bounds w f →
  write now buffer size count f w = Returns (n, f', w') →
  resident w' (entry f) ∨ data_size w' f = data_size w f →
  accounted w' ∧ map_well_formed w'.
Proof.
  intros Hwf Hacc Hcur. unfold write.
  destruct (_ && _); [intros [= <- <- <-]; done|].
  fold (write_start f w).
  pose proof (write_start_bounds f w Hcur) as [Hs0 Hs1].
  set (bytes := size_t_wrap (size * count)).
  assert (0 ≤ bytes) as Hb by apply size_t_wrap_range.
  returned as w1 eqn:Hgrow.
  destruct (_ || _) eqn:Hchk; [discriminate|].
  apply orb_false_elim in Hchk as [Hfit Hbuf].
  rewrite Z.gtb_ltb in Hfit, Hbuf. apply Z.ltb_ge in Hfit, Hbuf.
  intros [= <- <- <-] Hres.
  set (w2 := with_heap _ w1).
  assert (∀ e, length (data (heap w2 !!! e)) = length (data (heap w1 !!! e))) as Hcopy.
  { intros e. unfold w2. cbn. rewrite list_lookup_total_alter.
    destruct (decide _) as [[<- Hlive]|_]; [|reflexivity]. cbn.
    apply length_memcpy_into; try lia. exact Hfit. }
  assert (cacheMap (cache w2) = cacheMap (cache w1)) as Hm2 by reflexivity.
  assert (length (heap w2) = length (heap w1)) as Hlen2
    by (unfold w2; cbn; apply length_alter).
  assert (accounted w1 ∧ map_well_formed w1) as [Hacc1 Hwf1].
  { revert Hgrow. unfold growBuffer.
    destruct (_ >? data_size w f) eqn:Hg; [|intros [= <-]; done].
    destruct (cachePtr f); [|intros [= <-]; done].
    rewrite Z.gtb_ltb in Hg. apply Z.ltb_lt in Hg.
    returned as w0 eqn:Hroom. intros [= Hw1].
    pose proof (makeRoomInCache_accounted _ _ _ _ Hroom Hacc) as Hacc0.
    pose proof (makeRoomInCache_room_made _ _ _ _ Hroom) as Hrm.
    destruct (room_made_well_formed _ _ Hrm Hwf) as [Hlive0 Hinj0].
    destruct (rm_heap _ _ Hrm) as [Hlen0 Hsame0].
    assert (data_size w0 f = data_size w f) as Hsz0
      by (unfold data_size, deref; destruct (Hsame0 (entry f)) as (_ & _ & ->); done).
    assert (cacheMap (cache w1) = cacheMap (cache w0)) as Hm1 by (subst w1; reflexivity).
    assert (length (heap w1) = length (heap w0)) as Hlen1
      by (subst w1; cbn; apply length_alter).
    split; [|split; rewrite Hm1; [rewrite Hlen1|]; assumption].
    destruct Hres as [[p Hp] | Hsame].
    - change (cacheMap (cache w1) !! p = Some (entry f)) in Hp. rewrite Hm1 in Hp.
      unfold accounted, resident_bytes in *. rewrite Hm1.
      rewrite (bytes_of_map_delete _ _ _ _ Hp).
      rewrite (bytes_of_map_delete _ _ _ _ Hp) in Hacc0.
      assert (bytes_of (heap w1) (map_to_list (delete p (cacheMap (cache w0))))
              = bytes_of (heap w0) (map_to_list (delete p (cacheMap (cache w0))))) as ->.
      { apply bytes_of_ext. intros [q e] Hin. apply elem_of_map_to_list in Hin. cbn.
        apply lookup_delete_Some in Hin as [Hne Hq].
        subst w1. cbn. rewrite list_lookup_total_alter_ne; [reflexivity|].
        intros Heq. subst e. apply Hne. eapply Hinj0; eassumption. }
      subst w1. cbn. rewrite Hacc0. unfold getMemoryUsage.
      rewrite list_lookup_total_alter_eq by (eapply Hlive0, Hp). cbn.
      rewrite length_resize.
      rewrite size_t_wrap_add_l, size_t_wrap_add_r. f_equal.
      unfold data_size, deref in *.
      pose proof (size_t_wrap_range (write_start f w + bytes)). lia.
    - exfalso. unfold data_size, deref in Hsame.
      change (heap (with_heap _ w1)) with (heap w2) in Hsame. rewrite Hcopy in Hsame.
      assert (entry f < length (heap w0) ∨ length (heap w0) ≤ entry f)%nat as [Hin|Hout] by lia.
      + subst w1. cbn in Hsame.
        rewrite list_lookup_total_alter_eq in Hsame by exact Hin. cbn in Hsame.
        rewrite length_resize in Hsame. unfold data_size, deref in Hg.
        pose proof (size_t_wrap_range (write_start f w + bytes)). lia.
      + unfold data_size, deref in Hfit. subst w1. cbn in Hfit.
        rewrite list_lookup_total_alter in Hfit.
        destruct (decide _) as [[_ Hlt]|_] in Hfit; [lia|].
        unfold data_size, deref in Hg, Hsz0. rewrite Hsz0 in Hfit.
        assert (size_t_wrap (write_start f w + bytes) ≤ write_start f w + bytes)
          by (apply size_t_wrap_le; lia).
        lia. }
  split.
  - apply (accounted_same_resident w1 w2); [reflexivity | exact Hm2 | | exact Hacc1].
    intros p e _. apply Hcopy.
  - destruct Hwf1 as [Hlive1 Hinj1]. split; rewrite Hm2; [rewrite Hlen2|]; assumption.
Qed.

Lemma growBuffer_well_formed (now newEnd : Z) (f : CacheFile) (w w' : World) :
  growBuffer now newEnd f w = Returns w' → map_well_formed w → map_well_formed w'.
Proof.
  unfold growBuffer. destruct (newEnd >? data_size w f); [|intros [= <-]; done].
  destruct (cachePtr f); [|intros [= <-]; done].
  returned as w0 eqn:Hroom. intros [= <-] Hwf.
  apply makeRoomInCache_room_made in Hroom.
  destruct (room_made_well_formed _ _ Hroom Hwf) as [Hlive Hinj].
  split; cbn; [intros p e Hp; rewrite length_alter; eapply Hlive, Hp | exact Hinj].
Qed.

Lemma write_well_formed (now : Z) (buffer : list byte) (size count : Z) (f f' : CacheFile)
    (w w' : World) (n : Z) :
  write now buffer size count f w = Returns (n, f', w') →
  map_well_formed w → map_well_formed w'.
Proof.
  unfold write. destruct (_ && _); [intros [= <- <- <-]; done|].
  returned as w1 eqn:Hgrow. destruct (_ || _); [discriminate|].
  intros [= <- <- <-] Hwf.
  destruct (growBuffer_well_formed _ _ _ _ _ Hgrow Hwf) as [Hlive Hinj].
  split; cbn; [intros p e Hp; rewrite length_alter; eapply Hlive, Hp | exact Hinj].
Qed.

Lemma initial_world_accounted (maxSize : Z) (d : FileSystem) :
  accounted (initial_world maxSize d) ∧ map_well_formed (initial_world maxSize d).
Proof.
  split; [reflexivity|]. split; cbn; intros p; intros; simplify_map_eq.
Qed.

(** Every operation keeps the count equal to the sum of the buffer
    lengths, with one exception: a write that changes the length of the
    buffer of an entry which is not in the map when the write returns. *)
Lemma step_accounted (w w' : World) :
  step w w' → map_well_formed w → accounted w →
  map_well_formed w' ∧
  (accounted w' ∨
   ∃ now buffer size count f n f',
     write now buffer size count f w = Returns (n, f', w') ∧
     ¬ resident w' (entry f) ∧ data_size w' f ≠ data_size w f).
Proof.
  intros [now Hstep] Hwf Hacc. destruct Hstep.
  - destruct (openFile_accounted _ _ _ _ _ _ Hwf Hacc H). eauto.
  - split; [eapply write_well_formed; eassumption|].
    destruct (decide (entry f ∈ (map_to_list (cacheMap (cache w'))).*2)) as [Hres | Hres];
      [left; eapply write_accounted; try eassumption;
       left; apply resident_map_to_list, Hres|].
    destruct (decide (data_size w' f = data_size w f)) as [Hsame | Hdiff];
      [left; eapply write_accounted; try eassumption; by right|].
    right. exists now, buffer, size, count, f, n, f'. split; [assumption|].
    split; [|exact Hdiff]. intros Hr. apply Hres, resident_map_to_list, Hr.
  - split; [eapply room_made_well_formed; [apply evictFile_room_made | exact Hwf]|].
    left. apply evictFile_accounted, Hacc.
  - destruct (flushFile_cache_frame now f w) as [Hc Hm]. split.
    + destruct Hwf as [Hlive Hinj].
      split; rewrite Hm; [rewrite flushFile_heap|]; assumption.
    + left. eapply accounted_same_resident; [exact Hc | exact Hm | | exact Hacc].
      intros p e _. rewrite flushFile_heap. reflexivity.
  - destruct (closeFile_accounted now file w Hwf Hacc). eauto.
  - destruct (flush_accounted now w Hwf Hacc). eauto.
  - destruct (resizeCache_accounted _ _ _ _ Hwf Hacc H). eauto.
  - destruct (setFileTypePriority_accounted now extension priority w Hwf Hacc). eauto.
Qed.

(** ** Invariants of the reachable states *)

Lemma flushFile_cache (now : Z) (f : CacheFile) (w : World) :
  ∃ n, cache (flushFile now f w).2 = set_diskWrites n (cache w).
Proof.
  unfold flushFile. destruct (negb (modified f));
    [exists (diskWrites (cache w)); symmetry; apply set_diskWrites_same|].
  destruct (write_back _ _ _ _); [destruct (cachePtr f)|]; cbn; [eauto| |];
    exists (diskWrites (cache w)); symmetry; apply set_diskWrites_same.
Qed.

Lemma flush_cache (now : Z) (w : World) :
  ∃ n, cache (flush now w) = set_diskWrites n (cache w).
Proof.
  unfold flush. generalize (map_to_list (cacheMap (cache w))). intros l.
  revert w. induction l as [|kv l IH]; intros w; cbn [foldl].
  - exists (diskWrites (cache w)). symmetry. apply set_diskWrites_same.
  - destruct (IH (flushEntry now w kv)) as [n ->].
    unfold flushEntry. destruct (write_back _ _ _ _); cbn; eauto.
Qed.

Lemma destroyFile_cache (now : Z) (f : CacheFile) (w : World) :
  ∃ n, cache (destroyFile now f w) = set_diskWrites n (cache w).
Proof.
  unfold destroyFile.
  set (w1 := if modified f then _ else w).
  assert (∃ n, cache w1 = set_diskWrites n (cache w)) as [n Hn].
  { unfold w1. destruct (modified f); [apply flushFile_cache|].
    exists (diskWrites (cache w)). symmetry. apply set_diskWrites_same. }
  exists n. rewrite <- Hn. destruct (cachePtr f); [|reflexivity].
  unfold updateEntryScore. destruct (_ !! _); reflexivity.
Qed.

Lemma updateLRU_indexed (path : string) (c : ContentAwareCache) (m : gmap string nat) :
  is_Some (m !! path) →
  (∀ p, p ∈ lruList c → p ≠ path → is_Some (m !! p)) →
  ∀ p, p ∈ lruList (updateLRU path c) → is_Some (m !! p).
Proof.
  intros Hpath Hold p Hin. cbn in Hin.
  apply elem_of_cons in Hin as [-> | Hin]; [exact Hpath|].
  apply list_elem_of_filter in Hin as [Hne Hin]. apply Hold; assumption.
Qed.

Lemma openFile_lru_indexed (now : Z) (path mode : string) (w w' : World)
    (r : option CacheFile) :
  openFile now path mode w = Returns (r, w') → lru_indexed w → lru_indexed w'.
Proof.
  unfold openFile. intros Hopen Hlru.
  destruct (cacheMap (cache w) !! path) as [e|] eqn:Hp.
  { injection Hopen as <- <-. intros p Hin. cbn in *.
    apply elem_of_cons in Hin as [-> | Hin]; [eauto|].
    apply list_elem_of_filter in Hin as [_ Hin]. apply Hlru, Hin. }
  destruct (_ && _); [injection Hopen as <- <-; exact Hlru|].
  destruct (contains "w" mode).
  - injection Hopen as <- <-. intros p Hin. cbn in *.
    apply elem_of_cons in Hin as [-> | Hin]; [rewrite lookup_insert_eq; eauto|].
    apply list_elem_of_filter in Hin as [Hne Hin].
    rewrite lookup_insert_ne by done. apply Hlru, Hin.
  - revert Hopen. unfold loadFileIntoCache.
    destruct (fileSize _ =? 0); [intros [= <- <-]; exact Hlru|].
    returned as w1 eqn:Hroom.
    apply makeRoomInCache_room_made in Hroom.
    pose proof (rm_lru _ _ Hroom Hlru) as Hlru1.
    destruct (bool_decide _); [intros [= <- <-]; exact Hlru1|].
    cbn. rewrite lookup_insert_eq. cbn. intros [= <- <-].
    intros p Hin. cbn in *.
    apply elem_of_cons in Hin as [-> | Hin]; [rewrite lookup_insert_eq; eauto|].
    apply list_elem_of_filter in Hin as [Hne Hin].
    rewrite lookup_insert_ne by done. apply Hlru1, Hin.
Qed.

Lemma openFile_table (now : Z) (path mode : string) (w w' : World)
    (r : option CacheFile) :
  openFile now path mode w = Returns (r, w') →
  fileTypePriorities (cache w') = fileTypePriorities (cache w).
Proof.
  unfold openFile.
  destruct (cacheMap (cache w) !! path); [intros [= <- <-]; reflexivity|].
  destruct (_ && _); [intros [= <- <-]; reflexivity|].
  destruct (contains "w" mode); [intros [= <- <-]; reflexivity|].
  unfold loadFileIntoCache.
  destruct (fileSize _ =? 0); [intros [= <- <-]; reflexivity|].
  returned as w1 eqn:Hroom.
  apply makeRoomInCache_room_made in Hroom as [(_ & _ & _ & _ & Ht & _) _ _ _ _].
  destruct (bool_decide _); [intros [= <- <-]; exact Ht|].
  cbn. rewrite lookup_insert_eq. cbn. intros [= <- <-]. exact Ht.
Qed.

Lemma write_cache_frame (now : Z) (buffer : list byte) (size count : Z) (f f' : CacheFile)
    (w w' : World) (n : Z) :
  write now buffer size count f w = Returns (n, f', w') →
  fileTypePriorities (cache w') = fileTypePriorities (cache w) ∧
  (lru_indexed w → lru_indexed w').
Proof.
  unfold write. destruct (_ && _); [intros [= <- <- <-]; done|].
  returned as w1 eqn:Hgrow. destruct (_ || _); [discriminate|].
  intros [= <- <- <-]. cbn.
  revert Hgrow. unfold growBuffer.
  destruct (_ >? data_size w f); [|intros [= <-]; done].
  destruct (cachePtr f); [|intros [= <-]; done].
  returned as w0 eqn:Hroom. intros [= <-].
  apply makeRoomInCache_room_made in Hroom as [(_ & _ & _ & _ & Ht & _) _ _ _ Hlru].
  split; [exact Ht|]. intros H p Hin. apply (Hlru H p Hin).
Qed.

(** The invariants that the theorems on handles and on the scorer assume
    hold in every state a new cache can reach. *)
Lemma step_invariants (w w' : World) :
  step w w' →
  lru_indexed w ∧ priorities_in_range (fileTypePriorities (cache w)) →
  lru_indexed w' ∧ priorities_in_range (fileTypePriorities (cache w')).
Proof.
  intros [now Hstep] [Hlru Hpri]. destruct Hstep.
  - split; [eapply openFile_lru_indexed; eassumption|].
    erewrite openFile_table by eassumption. exact Hpri.
  - destruct (write_cache_frame _ _ _ _ _ _ _ _ _ H0) as [Ht Hl].
    split; [apply Hl, Hlru | rewrite Ht; exact Hpri].
  - destruct (evictFile_room_made path w) as [(_ & _ & _ & _ & Ht & _) _ _ _ Hl].
    split; [apply Hl, Hlru | rewrite Ht; exact Hpri].
  - destruct (flushFile_cache now f w) as [n Hn].
    unfold lru_indexed. rewrite Hn. done.
  - destruct file as [f|]; [|done]. cbn.
    destruct (destroyFile_cache now f w) as [n Hn].
    unfold lru_indexed. rewrite Hn. done.
  - destruct (flush_cache now w) as [n Hn].
    unfold lru_indexed. rewrite Hn. done.
  - destruct (resizeCache_room_made _ _ _ _ H) as [(_ & _ & _ & _ & Ht & _) _ _ _ Hl].
    split; [apply Hl, Hlru | rewrite Ht; exact Hpri].
  - split; [exact Hlru|]. cbn. apply priorities_in_range_insert, Hpri.
Qed.

Lemma step_well_formed (w w' : World) :
  step w w' → map_well_formed w → map_well_formed w'.
Proof.
  intros [now Hstep] Hwf. destruct Hstep.
  - unfold openFile in H.
    destruct (cacheMap (cache w) !! path) as [e|] eqn:Hp.
    { injection H as <- <-. destruct Hwf. split; assumption. }
    set (w0 := with_cache _ w) in H.
    assert (map_well_formed w0) as Hwf0 by (destruct Hwf; split; assumption).
    destruct (_ && _); [injection H as <- <-; exact Hwf0|].
    destruct (contains "w" _).
    + injection H as <- <-. destruct Hwf0 as [Hlive Hinj]. split; cbn.
      * intros p e. rewrite length_app, lookup_insert. cbn.
        destruct (decide (path = p)); [intros [= <-]; lia|].
        intros Hq. apply Hlive in Hq. cbn in Hq. lia.
      * intros p q e. rewrite !lookup_insert.
        destruct (decide (path = p)); destruct (decide (path = q)); try congruence.
        -- intros [= <-] Hq. apply Hlive in Hq. cbn in Hq. lia.
        -- intros Hq [= <-]. apply Hlive in Hq. cbn in Hq. lia.
        -- apply Hinj.
    + revert H. unfold loadFileIntoCache.
      destruct (fileSize _ =? 0); [intros [= <- <-]; exact Hwf0|].
      returned as w1 eqn:Hroom.
      apply makeRoomInCache_room_made in Hroom.
      destruct (room_made_well_formed _ _ Hroom Hwf0) as [Hlive Hinj].
      destruct (bool_decide _); [intros [= <- <-]; split; assumption|].
      cbn. rewrite lookup_insert_eq. cbn. intros [= <- <-]. split; cbn.
      * intros p e. rewrite length_alter, length_app, lookup_insert. cbn.
        destruct (decide (path = p)); [intros [= <-]; lia|].
        intros Hq. apply Hlive in Hq. lia.
      * intros p q e. rewrite !lookup_insert.
        destruct (decide (path = p)); destruct (decide (path = q)); try congruence.
        -- intros [= <-] Hq. apply Hlive in Hq. lia.
        -- intros Hq [= <-]. apply Hlive in Hq. lia.
        -- apply Hinj.
  - eapply write_well_formed; eassumption.
  - eapply room_made_well_formed; [apply evictFile_room_made | exact Hwf].
  - destruct (flushFile_cache_frame now f w) as [_ Hm]. destruct Hwf as [Hlive Hinj].
    split; rewrite Hm; [rewrite flushFile_heap|]; assumption.
  - destruct file as [f|]; [|exact Hwf]. cbn.
    destruct (destroyFile_frame now f w) as (_ & Hm & Hlen & _).
    destruct Hwf as [Hlive Hinj]. split; rewrite Hm; [rewrite Hlen|]; assumption.
  - destruct (flush_cache_frame now w) as [_ Hm]. destruct Hwf as [Hlive Hinj].
    split; rewrite Hm; [rewrite flush_heap|]; assumption.
  - eapply room_made_well_formed; [eapply resizeCache_room_made; eassumption | exact Hwf].
  - destruct (setFileTypePriority_rescored now extension priority w) as [Hlen _].
    destruct Hwf as [Hlive Hinj].
    split; [intros p e Hp; rewrite Hlen; eapply Hlive, Hp | exact Hinj].
Qed.

Lemma reachable_invariants (w : World) :
  reachable w →
  lru_indexed w ∧ priorities_in_range (fileTypePriorities (cache w)) ∧
  map_well_formed w.
Proof.
  intros (maxSize & d & Hrun).
  revert w Hrun. apply rtc_ind_r; [|intros w1 w2 Hrun Hstep IH].
  - split; [|split].
    + intros p Hin. by apply elem_of_nil in Hin.
    + exact default_priorities_in_range.
    + apply initial_world_accounted.
  - destruct IH as (Hlru & Hpri & Hwf).
    destruct (step_invariants _ _ Hstep (conj Hlru Hpri)) as [Hlru' Hpri'].
    split; [exact Hlru'|]. split; [exact Hpri'|].
    eapply step_well_formed; eassumption.
Qed.

(** No operation changes whether a shared pointer owns the cache, so the
    handles of a cache made with [std::make_shared] have a weak pointer
    that locks. *)
Lemma openFile_weak_this (now : Z) (path mode : string) (w w' : World)
    (r : option CacheFile) :
  openFile now path mode w = Returns (r, w') →
  weak_this (cache w') = weak_this (cache w).
Proof.
  unfold openFile.
  destruct (cacheMap (cache w) !! path); [intros [= <- <-]; reflexivity|].
  destruct (_ && _); [intros [= <- <-]; reflexivity|].
  destruct (contains "w" mode); [intros [= <- <-]; reflexivity|].
  unfold loadFileIntoCache.
  destruct (fileSize _ =? 0); [intros [= <- <-]; reflexivity|].
  returned as w1 eqn:Hroom.
  apply makeRoomInCache_room_made in Hroom as [(_ & _ & _ & _ & _ & Ht) _ _ _ _].
  destruct (bool_decide _); [intros [= <- <-]; exact Ht|].
  cbn. rewrite lookup_insert_eq. cbn. intros [= <- <-]. exact Ht.
Qed.

Lemma write_weak_this (now : Z) (buffer : list byte) (size count : Z) (f f' : CacheFile)
    (w w' : World) (n : Z) :
  write now buffer size count f w = Returns (n, f', w') →
  weak_this (cache w') = weak_this (cache w).
Proof.
  unfold write. destruct (_ && _); [intros [= <- <- <-]; done|].
  returned as w1 eqn:Hgrow.
  destruct (_ || _); [discriminate|]. intros [= <- <- <-]. cbn.
  revert Hgrow. unfold growBuffer.
  destruct (_ >? data_size w f); [|intros [= <-]; done].
  destruct (cachePtr f); [|intros [= <-]; done].
  returned as w0 eqn:Hroom. intros [= <-].
  apply makeRoomInCache_room_made in Hroom as [(_ & _ & _ & _ & _ & Ht) _ _ _ _].
  exact Ht.
Qed.

Lemma step_weak_this (w w' : World) :
  step w w' → weak_this (cache w') = weak_this (cache w).
Proof.
  intros [now Hstep]. destruct Hstep.
  - eapply openFile_weak_this; eassumption.
  - eapply write_weak_this; eassumption.
  - destruct (evictFile_room_made path w) as [(_ & _ & _ & _ & _ & Ht) _ _ _ _].
    exact Ht.
  - destruct (flushFile_cache now f w) as [n ->]. reflexivity.
  - destruct file as [f|]; [|reflexivity]. cbn.
    destruct (destroyFile_cache now f w) as [n ->]. reflexivity.
  - destruct (flush_cache now w) as [n ->]. reflexivity.
  - destruct (resizeCache_room_made _ _ _ _ H) as [(_ & _ & _ & _ & _ & Ht) _ _ _ _].
    exact Ht.
  - reflexivity.
Qed.

Lemma reachable_weak_this (w : World) : reachable w → weak_this (cache w) = true.
Proof.
  intros (maxSize & d & Hrun).
  revert w Hrun. apply rtc_ind_r; [reflexivity|].
  intros w1 w2 _ Hstep IH. rewrite (step_weak_this _ _ Hstep). exact IH.
Qed.

(** ** Scores along a run with a clock that does not go back *)

Section ScoresAt.

Variable now : Z.













End ScoresAt.




(** * Further properties of the handles *)

(** ** The bytes a write leaves in the buffer *)

Lemma resize_to_max (pos n : Z) (d : list byte) :
  pos + n ≤ Z.of_nat (length d) →
  resize (Z.to_nat (Z.max (Z.of_nat (length d)) (pos + n))) "000"%byte d = d.
Proof.
  intros H. rewrite Z.max_l by lia. rewrite Nat2Z.id. apply resize_all.
Qed.

Lemma write_effect (now : Z) (buffer : list byte) (size count : Z) (f : CacheFile)
    (w : World) :
  contains "w" (mode f) || contains "a" (mode f) = true →
  cachePtr f = true ∨ write_start f w + size * count ≤ data_size w f →
  lru_indexed w → (entry f < length (heap w))%nat →
  0 ≤ write_start f w ≤ data_size w f →
  0 ≤ size * count ≤ Z.of_nat (length buffer) →
  write_start f w + size * count ≤ vector_max_size →
  ∃ w',
    write now buffer size count f w
    = Returns (count,
               set_modified true (set_position (write_start f w + size * count) f),
               w') ∧
    data (deref w' (entry f))
    = written_data (write_start f w) (size * count) buffer (data (deref w (entry f))) ∧
    (∀ e, e ≠ entry f → data (deref w' e) = data (deref w e)) ∧
    (∀ e, metadata (deref w' e) = metadata (deref w e) ∧
          stats (deref w' e) = stats (deref w e)) ∧
    length (heap w') = length (heap w) ∧
    disk w' = disk w ∧
    same_counters (cache w) (cache w') ∧
    (∀ p e, cacheMap (cache w') !! p = Some e → cacheMap (cache w) !! p = Some e) ∧
    (write_start f w + size * count ≤ data_size w f → cache w' = cache w).
Proof.
  intros Hmode Hptr Hlru Hlive [Hs0 Hs1] [Hn Hbuf] Hmax.
  unfold vector_max_size in Hmax.
  unfold write.
  replace (negb (contains "w" (mode f)) && negb (contains "a" (mode f))) with false
    by (destruct (contains "w" (mode f)), (contains "a" (mode f)); done).
  fold (write_start f w).
  rewrite (size_t_wrap_small (size * count)) by lia.
  rewrite (size_t_wrap_small (write_start f w + size * count)) by lia.
  unfold growBuffer.
  destruct (write_start f w + size * count >? data_size w f) eqn:Hgrow.
  - rewrite Z.gtb_ltb in Hgrow. apply Z.ltb_lt in Hgrow.
    destruct Hptr as [Hptr | Hfits]; [rewrite Hptr | lia].
    destruct (makeRoomInCache_returns now
                (size_t_wrap (write_start f w + size * count - data_size w f)) w Hlru)
      as (w1 & Hroom & Hrm).
    rewrite Hroom. cbn [mbind outcome_bind].
    destruct Hrm as [Hcnt Hdisk [Hlen Hsame] Hmap _].
    set (w2 := with_cache _ _).
    assert (data_size w2 f = write_start f w + size * count) as Hsz.
    { unfold data_size, w2, deref. cbn.
      rewrite list_lookup_total_alter_eq by lia. cbn.
      rewrite length_resize. lia. }
    rewrite Hsz, gtb_false by lia. rewrite gtb_false by lia. cbn [orb].
    eexists. split; [reflexivity|].
    split_and!.
    + unfold deref, w2. cbn.
      rewrite !list_lookup_total_alter_eq by (rewrite ?length_alter; lia). cbn.
      destruct (Hsame (entry f)) as (_ & _ & ->).
      unfold written_data. f_equal. f_equal. fold (deref w (entry f)).
      unfold data_size in Hgrow. lia.
    + intros e He. unfold deref, w2. cbn.
      rewrite !list_lookup_total_alter_ne by done. apply Hsame.
    + intros e. unfold deref, w2. cbn.
      destruct (decide (e = entry f)) as [->|He].
      * rewrite !list_lookup_total_alter_eq by (rewrite ?length_alter; lia). cbn.
        split; apply Hsame.
      * rewrite !list_lookup_total_alter_ne by done. split; apply Hsame.
    + unfold w2. cbn. rewrite !length_alter. exact Hlen.
    + exact Hdisk.
    + unfold w2, same_counters in *. cbn. exact Hcnt.
    + exact Hmap.
    + lia.
  - rewrite Z.gtb_ltb in Hgrow. apply Z.ltb_ge in Hgrow.
    cbn [mbind outcome_bind].
    rewrite gtb_false by lia. rewrite gtb_false by lia. cbn [orb].
    eexists. split; [reflexivity|].
    split_and!.
    + unfold deref. cbn. rewrite list_lookup_total_alter_eq by lia. cbn.
      unfold written_data. fold (deref w (entry f)).
      rewrite resize_to_max; [done|]. unfold data_size in Hgrow. lia.
    + intros e He. unfold deref. cbn. rewrite list_lookup_total_alter_ne by done. done.
    + intros e. unfold deref. cbn. destruct (decide (e = entry f)) as [->|He].
      * rewrite list_lookup_total_alter_eq by lia. done.
      * rewrite list_lookup_total_alter_ne by done. done.
    + cbn. apply length_alter.
    + done.
    + apply same_counters_refl.
    + done.
    + done.
Qed.

Lemma write_start_append (f : CacheFile) (w : World) :
  contains "a" (mode f) = true → write_start f w = data_size w f.
Proof.
  intros Ha. unfold write_start. rewrite Ha. cbn [andb].
  destruct (position f =? data_size w f) eqn:Hp; cbn [negb]; [|reflexivity].
  apply Z.eqb_eq. exact Hp.
Qed.

Lemma written_data_append (n : Z) (buffer d : list byte) :
  0 ≤ n ≤ Z.of_nat (length buffer) →
  written_data (Z.of_nat (length d)) n buffer d = (d ++ take (Z.to_nat n) buffer)%list.
Proof.
  intros Hn. unfold written_data, memcpy_into.
  rewrite Z.max_r by lia.
  rewrite Z2Nat.inj_add, !Nat2Z.id by lia.
  rewrite resize_ge by lia.
  rewrite take_app_length.
  rewrite drop_ge; [by rewrite app_nil_r|].
  rewrite length_app, length_replicate. lia.
Qed.

Lemma written_data_inside (pos n : Z) (buffer d : list byte) :
  pos + n ≤ Z.of_nat (length d) →
  written_data pos n buffer d
  = (take (Z.to_nat pos) d ++ take (Z.to_nat n) buffer ++ drop (Z.to_nat (pos + n)) d)%list.
Proof. intros H. unfold written_data. rewrite resize_to_max by exact H. reflexivity. Qed.

(** X1. Append mode: a write through a handle whose mode has an 'a', and
    whose weak pointer to the cache locks (the test of line 56 that lets
    the buffer grow), puts the bytes after the last byte of the buffer,
    wherever the cursor of the handle was, leaves the cursor at the new
    end and marks the handle as modified; no other buffer changes. *)
Theorem write_appends (now : Z) (buffer : list byte) (size count : Z) (f : CacheFile)
    (w : World) :
  contains "a" (mode f) = true →
  cachePtr f = true →
  lru_indexed w → (entry f < length (heap w))%nat →
  0 ≤ size * count ≤ Z.of_nat (length buffer) →
  data_size w f + size * count ≤ vector_max_size →
  ∃ f' w',
    write now buffer size count f w = Returns (count, f', w') ∧
    data (deref w' (entry f))
    = (data (deref w (entry f)) ++ take (Z.to_nat (size * count)) buffer)%list ∧
    entry f' = entry f ∧ position f' = data_size w' f' ∧ modified f' = true ∧
    ∀ e, e ≠ entry f → data (deref w' e) = data (deref w e).
Proof.
  intros Ha Hptr Hlru Hlive Hn Hmax.
  pose proof (write_start_append f w Ha) as Hstart.
  pose proof (data_size_nonneg w f) as Hsz.
  destruct (write_effect now buffer size count f w) as (w' & Hw & Hdata & Hother & _);
    [by rewrite Ha, orb_true_r | by left | done | done | lia | done | lia |].
  exists (set_modified true (set_position (write_start f w + size * count) f)), w'.
  rewrite Hstart in Hdata. unfold data_size in Hdata at 1.
  rewrite written_data_append in Hdata by done.
  split_and!; [exact Hw | exact Hdata | done | | done | exact Hother].
  unfold data_size. cbn [position entry set_modified set_position].
  rewrite Hdata, length_app, length_take, Hstart. unfold data_size. lia.
Qed.

Lemma write_appends_witness :
  ∃ f' w',
    write 1 hello 1 5 appender loaded_world = Returns (5, f', w') ∧
    data (deref w' 0) = (hello ++ hello)%list ∧
    position f' = data_size w' f'.
Proof.
  destruct (write_appends 1 hello 1 5 appender loaded_world)
    as (f' & w' & Hw & Hdata & _ & Hpos & _);
    [reflexivity | reflexivity | apply loaded_world_lru_indexed | vm_compute; lia
    | vm_compute; split; discriminate | vm_compute; discriminate |].
  exists f', w'. split; [exact Hw|]. split; [exact Hdata | exact Hpos].
Defined.

(** X2. A write that ends inside the buffer, through a handle without append
    mode, replaces the bytes under the cursor and nothing else: the buffer
    keeps its length, the bytes before and after the written range stay, and
    the cache object (sizes, map, LRU list, counters) is the same as before,
    so nothing is evicted. *)
Theorem write_in_place (now : Z) (buffer : list byte) (size count : Z) (f : CacheFile)
    (w : World) :
  contains "w" (mode f) = true → contains "a" (mode f) = false →
  lru_indexed w → (entry f < length (heap w))%nat →
  0 ≤ position f →
  0 ≤ size * count ≤ Z.of_nat (length buffer) →
  position f + size * count ≤ data_size w f →
  data_size w f ≤ vector_max_size →
  ∃ f' w',
    write now buffer size count f w = Returns (count, f', w') ∧
    data (deref w' (entry f))
    = (take (Z.to_nat (position f)) (data (deref w (entry f)))
       ++ take (Z.to_nat (size * count)) buffer
       ++ drop (Z.to_nat (position f + size * count)) (data (deref w (entry f))))%list ∧
    data_size w' f = data_size w f ∧
    position f' = position f + size * count ∧
    cache w' = cache w.
Proof.
  intros Hw Ha Hlru Hlive Hpos Hn Hend Hmax.
  assert (write_start f w = position f) as Hstart
    by (unfold write_start; rewrite Ha; reflexivity).
  destruct (write_effect now buffer size count f w)
    as (w' & Hwr & Hdata & _ & _ & _ & _ & _ & _ & Hcache);
    [by rewrite Hw | right; lia | done | done | lia | done | lia |].
  rewrite Hstart in *.
  rewrite written_data_inside in Hdata by (unfold data_size in Hend; lia).
  do 2 eexists. split; [exact Hwr|].
  split_and!; [exact Hdata | | done | by apply Hcache].
  unfold data_size. rewrite Hdata.
  rewrite !length_app, !length_take, length_drop.
  unfold data_size in Hend. lia.
Qed.

Lemma write_in_place_witness :
  ∃ f' w',
    write 1 [ "J" ]%byte 1 1 (newCacheFile 0 "w" true) loaded_world = Returns (1, f', w') ∧
    data (deref w' 0) = [ "J"; "e"; "l"; "l"; "o" ]%byte ∧
    cache w' = cache loaded_world.
Proof.
  destruct (write_in_place 1 [ "J" ]%byte 1 1 (newCacheFile 0 "w" true) loaded_world)
    as (f' & w' & Hw & Hdata & _ & _ & Hcache);
    [reflexivity | reflexivity | apply loaded_world_lru_indexed | vm_compute; lia
    | vm_compute; discriminate | vm_compute; split; discriminate
    | vm_compute; discriminate | vm_compute; discriminate |].
  exists f', w'. split; [exact Hw|]. split; [exact Hdata | exact Hcache].
Defined.

Lemma alter_set_data_frame (g : list byte → list byte) (e0 : nat) (h : list CacheEntry) :
  length (alter (λ x, set_data (g (data x)) x) e0 h) = length h ∧
  (∀ e, metadata (alter (λ x, set_data (g (data x)) x) e0 h !!! e) = metadata (h !!! e) ∧
        stats (alter (λ x, set_data (g (data x)) x) e0 h !!! e) = stats (h !!! e)) ∧
  (∀ e, e ≠ e0 → data (alter (λ x, set_data (g (data x)) x) e0 h !!! e) = data (h !!! e)).
Proof.
  split; [apply length_alter|]. split.
  - intros e. destruct (decide (e = e0)) as [->|He].
    + destruct (decide (e0 < length h)%nat) as [Hl|Hl].
      * rewrite list_lookup_total_alter_eq by done. done.
      * rewrite !list_lookup_total_alt.
        rewrite !(proj2 (lookup_ge_None _ _)) by (rewrite ?length_alter; lia). done.
    + rewrite list_lookup_total_alter_ne by done. done.
  - intros e He. rewrite list_lookup_total_alter_ne by done. done.
Qed.

Lemma growBuffer_frame (now newEnd : Z) (f : CacheFile) (w w' : World) :
  growBuffer now newEnd f w = Returns w' →
  disk w' = disk w ∧ same_counters (cache w) (cache w') ∧
  (∀ p e, cacheMap (cache w') !! p = Some e → cacheMap (cache w) !! p = Some e) ∧
  length (heap w') = length (heap w) ∧
  (∀ e, metadata (deref w' e) = metadata (deref w e) ∧
        stats (deref w' e) = stats (deref w e)) ∧
  (∀ e, e ≠ entry f → data (deref w' e) = data (deref w e)).
Proof.
  unfold growBuffer.
  destruct (newEnd >? data_size w f) eqn:Hg;
    [|intros [= <-]; split_and!; auto with cache_frame].
  destruct (cachePtr f); [|intros [= <-]; split_and!; auto with cache_frame].
  returned as w0 eqn:Hroom. intros [= <-].
  apply makeRoomInCache_room_made in Hroom as [Hcnt Hdisk [Hlen Hsame] Hmap _].
  destruct (alter_set_data_frame (resize (Z.to_nat newEnd) "000"%byte) (entry f) (heap w0))
    as (Hl & Hms & Hd).
  unfold deref. cbn. split_and!.
  - exact Hdisk.
  - exact Hcnt.
  - exact Hmap.
  - rewrite Hl. exact Hlen.
  - intros e. destruct (Hms e) as [-> ->]. split; apply Hsame.
  - intros e He. rewrite Hd by done. apply Hsame.
Qed.

(** X3. What a write leaves alone. A write through a handle never touches
    the disk (the cache is write-back), the counters or the priority table;
    it adds no key to the entry map; it changes no metadata and no access
    statistics (a write is not counted as an access, and the recorded file
    size is not updated); and the only buffer it can change is that of the
    entry of the handle. *)
Theorem write_changes_one_buffer (now : Z) (buffer : list byte) (size count : Z)
    (f f' : CacheFile) (w w' : World) (n : Z) :
  write now buffer size count f w = Returns (n, f', w') →
  disk w' = disk w ∧ same_counters (cache w) (cache w') ∧
  (∀ p e, cacheMap (cache w') !! p = Some e → cacheMap (cache w) !! p = Some e) ∧
  length (heap w') = length (heap w) ∧
  (∀ e, metadata (deref w' e) = metadata (deref w e) ∧
        stats (deref w' e) = stats (deref w e)) ∧
  (∀ e, e ≠ entry f → data (deref w' e) = data (deref w e)) ∧
  entry f' = entry f ∧ mode f' = mode f.
Proof.
  unfold write.
  destruct (_ && _); [intros [= <- <- <-]; split_and!; auto with cache_frame|].
  returned as w1 eqn:Hgrow.
  apply growBuffer_frame in Hgrow as (Hdisk & Hcnt & Hmap & Hlen & Hms & Hd).
  destruct (_ || _); [discriminate|].
  intros [= <- <- <-].
  set (pos := if _ && _ then _ else _).
  destruct (alter_set_data_frame (memcpy_into pos (size_t_wrap (size * count)) buffer)
              (entry f) (heap w1)) as (Hl' & Hms' & Hd').
  unfold deref in *. cbn. split_and!.
  - exact Hdisk.
  - exact Hcnt.
  - exact Hmap.
  - rewrite Hl'. exact Hlen.
  - intros e. destruct (Hms' e) as [-> ->]. apply Hms.
  - intros e He. rewrite Hd' by done. apply Hd, He.
  - reflexivity.
  - reflexivity.
Qed.

Lemma write_changes_one_buffer_witness :
  disk written_world = disk created_world ∧
  same_counters (cache created_world) (cache written_world) ∧
  length (heap written_world) = length (heap created_world).
Proof.
  destruct (write_changes_one_buffer 1 hello 1 5 writer
              (set_modified true (set_position 5 writer)) created_world written_world 5)
    as (Hdisk & Hcnt & _ & Hlen & _); [vm_compute; reflexivity|].
  split; [exact Hdisk|]. split; [exact Hcnt | exact Hlen].
Defined.

(** ** The bytes a read returns *)

Lemma set_position_same (f : CacheFile) : set_position (position f) f = f.
Proof. destruct f. reflexivity. Qed.

Lemma read_effect (size count : Z) (f : CacheFile) (w : World) :
  contains "r" (mode f) = true → size ≠ 0 → cursor_in_bounds w f →
  data_size w f ≤ vector_max_size →
  read size count f w
  = Returns (bytes_copied size count f w / size,
             take (Z.to_nat (bytes_copied size count f w))
               (drop (Z.to_nat (position f)) (data (deref w (entry f)))),
             set_position (position f + bytes_copied size count f w) f).
Proof.
  intros Hr Hs Hc Hmax. unfold read. rewrite Hr. cbn [negb].
  fold (bytes_copied size count f w).
  destruct (bytes_copied_fits size count f w Hc) as [H0 H1].
  rewrite (gtb_false _ _ H1), andb_false_r.
  replace (size =? 0) with false by (symmetry; apply Z.eqb_neq; exact Hs).
  destruct Hc as [Hlo Hhi]. unfold vector_max_size in Hmax.
  destruct (bytes_copied size count f w >? 0) eqn:Hp.
  - rewrite size_t_wrap_small by lia. reflexivity.
  - rewrite Z.gtb_ltb in Hp. apply Z.ltb_ge in Hp.
    replace (bytes_copied size count f w) with 0 by lia.
    rewrite Z.add_0_r, set_position_same. reflexivity.
Qed.

Lemma bytes_copied_value (size count : Z) (f : CacheFile) (w : World) :
  cursor_in_bounds w f → 0 ≤ size * count < 2 ^ 64 → data_size w f ≤ vector_max_size →
  bytes_copied size count f w = Z.min (size * count) (data_size w f - position f).
Proof.
  intros [Hlo Hhi] Hn Hmax. unfold bytes_copied, vector_max_size in *.
  rewrite !size_t_wrap_small by lia. reflexivity.
Qed.

(** X4. Reads compose. When the first of two consecutive reads gets all the
    items it asks for, the two reads together return what one read of both
    counts returns: the same bytes in the same order, the sum of the item
    counts, and the same final cursor. *)
Theorem read_twice (size count1 count2 : Z) (f : CacheFile) (w : World) :
  contains "r" (mode f) = true → cursor_in_bounds w f →
  data_size w f ≤ vector_max_size →
  0 < size → 0 ≤ count1 → 0 ≤ count2 →
  size * (count1 + count2) < 2 ^ 64 →
  position f + size * count1 ≤ data_size w f →
  ∃ bs1 f1 n2 bs2 f2,
    read size count1 f w = Returns (count1, bs1, f1) ∧
    read size count2 f1 w = Returns (n2, bs2, f2) ∧
    read size (count1 + count2) f w = Returns (count1 + n2, (bs1 ++ bs2)%list, f2).
Proof.
  intros Hr Hc Hmax Hs Hc1 Hc2 Hlim Hfit.
  assert (0 ≤ size * count1 ∧ 0 ≤ size * count2) as [Hn1 Hn2] by nia.
  assert (size * (count1 + count2) = size * count1 + size * count2) as Hsum by lia.
  pose proof Hc as [Hlo Hhi].
  assert (bytes_copied size count1 f w = size * count1) as Hk1
    by (rewrite bytes_copied_value by (done || lia); lia).
  set (f1 := set_position (position f + size * count1) f).
  assert (cursor_in_bounds w f1) as Hcf1
    by (unfold cursor_in_bounds, f1; rewrite data_size_set_position; cbn; lia).
  assert (bytes_copied size count2 f1 w
          = Z.min (size * count2) (data_size w f - (position f + size * count1))) as Hk2
    by (rewrite bytes_copied_value by (done || lia); reflexivity).
  assert (bytes_copied size (count1 + count2) f w
          = size * count1 + bytes_copied size count2 f1 w) as Hk12
    by (rewrite bytes_copied_value by (done || lia); lia).
  assert (0 ≤ bytes_copied size count2 f1 w) as Hk2pos by lia.
  eexists _, f1, _, _, _. split_and!.
  - rewrite read_effect by (done || lia). rewrite Hk1.
    replace (size * count1 / size) with count1
      by (rewrite Z.mul_comm, Z.div_mul; lia).
    reflexivity.
  - rewrite read_effect by (done || lia). reflexivity.
  - rewrite read_effect by (done || lia). rewrite Hk12.
    replace ((size * count1 + bytes_copied size count2 f1 w) / size)
      with (count1 + bytes_copied size count2 f1 w / size)
      by (rewrite (Z.mul_comm size count1), Z.div_add_l; lia).
    cbn [position entry f1 set_position].
    rewrite (Z2Nat.inj_add (size * count1)) by lia.
    rewrite <- take_take_drop, drop_drop.
    rewrite <- Z2Nat.inj_add by lia.
    f_equal. f_equal. unfold f1, set_position; cbn; f_equal; lia.
Qed.

Lemma read_twice_witness :
  ∃ bs1 f1 n2 bs2 f2,
    read 1 2 reader loaded_world = Returns (2, bs1, f1) ∧
    read 1 9 f1 loaded_world = Returns (n2, bs2, f2) ∧
    read 1 (2 + 9) reader loaded_world = Returns (2 + n2, (bs1 ++ bs2)%list, f2).
Proof.
  apply (read_twice 1 2 9 reader loaded_world);
    [reflexivity | vm_compute; split; discriminate | vm_compute; discriminate
    | lia | lia | lia | lia | vm_compute; discriminate].
Defined.

(** X5. A short read. When fewer bytes are left than the call asks for, the
    read copies all the bytes that are left and moves the cursor to the end
    of the buffer, also over the bytes of an incomplete last item, which the
    returned count does not include; every read after it returns 0 items
    and leaves the handle as it is. *)
Theorem read_up_to_end (size count : Z) (f : CacheFile) (w : World) :
  contains "r" (mode f) = true → cursor_in_bounds w f →
  data_size w f ≤ vector_max_size →
  0 < size → 0 ≤ count → size * count < 2 ^ 64 →
  data_size w f - position f ≤ size * count →
  ∃ f',
    read size count f w
    = Returns ((data_size w f - position f) / size,
               drop (Z.to_nat (position f)) (data (deref w (entry f))), f') ∧
    position f' = data_size w f ∧
    ∀ count', read size count' f' w = Returns (0, [], f').
Proof.
  intros Hr Hc Hmax Hs Hcount Hlim Hshort.
  pose proof Hc as [Hlo Hhi].
  assert (bytes_copied size count f w = data_size w f - position f) as Hk
    by (rewrite bytes_copied_value by (done || nia); lia).
  exists (set_position (data_size w f) f). split_and!.
  - rewrite read_effect by (done || lia). rewrite Hk.
    rewrite take_ge by (rewrite length_drop; unfold data_size; lia).
    do 3 f_equal. lia.
  - reflexivity.
  - intros count'.
    assert (cursor_in_bounds w (set_position (data_size w f) f)) as Hc'
      by (unfold cursor_in_bounds; rewrite data_size_set_position; cbn; lia).
    rewrite read_effect by (done || lia).
    assert (bytes_copied size count' (set_position (data_size w f) f) w = 0) as ->.
    { unfold bytes_copied. rewrite data_size_set_position. cbn [position set_position].
      rewrite Z.sub_diag. replace (size_t_wrap 0) with 0 by reflexivity.
      pose proof (size_t_wrap_range (size * count')). lia. }
    cbn [position set_position]. rewrite Z.add_0_r.
    rewrite Z.div_0_l by lia. reflexivity.
Qed.

Lemma read_up_to_end_witness :
  ∃ f',
    read 2 4 reader loaded_world = Returns (2, hello, f') ∧
    position f' = 5 ∧
    ∀ count', read 2 count' f' loaded_world = Returns (0, [], f').
Proof.
  apply (read_up_to_end 2 4 reader loaded_world);
    [reflexivity | vm_compute; split; discriminate | vm_compute; discriminate
    | lia | lia | lia | vm_compute; discriminate].
Defined.

(** ** The cursor as the caller sees it *)

(** X6. [tell] after [seek]: a seek to a target inside the buffer is accepted
    and [tell] then returns that target; a seek to any other target is
    rejected and [tell] still returns the old cursor. In both cases [tell]
    is a position of the buffer, never negative. *)
Theorem tell_after_seek (offset origin t : Z) (f : CacheFile) (w : World) :
  cursor_in_bounds w f → data_size w f ≤ vector_max_size →
  - 2 ^ 63 ≤ offset < 2 ^ 63 →
  seek_target offset origin f w = Some t →
  tell (seek offset origin f w).2
  = (if bool_decide (0 ≤ t ≤ data_size w f) then t else position f) ∧
  (seek offset origin f w).1 = (if bool_decide (0 ≤ t ≤ data_size w f) then 0 else -1) ∧
  0 ≤ tell (seek offset origin f w).2 ≤ data_size w f.
Proof.
  intros Hc Hmax Hoff Ht. pose proof Hc as [Hlo Hhi].
  pose proof Hmax as Hmax'. unfold vector_max_size in Hmax'.
  assert (∀ p, 0 ≤ p ≤ data_size w f → long_of_size_t p = p) as Hlong.
  { intros p Hp. unfold long_of_size_t.
    destruct (p <? 2 ^ 63) eqn:E; [reflexivity|]. apply Z.ltb_ge in E. lia. }
  destruct (bool_decide_reflect (0 ≤ t ≤ data_size w f)) as [Hin|Hout].
  - rewrite (seek_accepts offset origin f w Hmax t Ht Hin).
    unfold tell. cbn [snd fst position set_position]. rewrite Hlong by done. done.
  - rewrite (seek_rejects offset origin f w Hc Hmax Hoff t Ht) by lia.
    unfold tell. cbn [snd fst]. rewrite Hlong by done. done.
Qed.

Lemma tell_after_seek_witness :
  tell (seek (-2) SEEK_END reader loaded_world).2 = 3 ∧
  tell (seek 6 SEEK_CUR reader loaded_world).2 = 0.
Proof.
  split.
  - apply (tell_after_seek (-2) SEEK_END 3 reader loaded_world);
      [vm_compute; split; discriminate | vm_compute; discriminate | lia | reflexivity].
  - apply (tell_after_seek 6 SEEK_CUR 6 reader loaded_world);
      [vm_compute; split; discriminate | vm_compute; discriminate | lia | reflexivity].
Defined.

(** ** Writing a handle back *)

(** X7. [CacheFile::flush]. On a handle that is not modified it returns 0
    and does nothing. On a modified handle whose path cannot be opened for
    writing it returns -1 and changes nothing: the handle stays modified.
    And whenever it returns 0 on a modified handle, the file of that path
    holds exactly the buffer of the entry (whether or not the entry is
    still in the map), no other file has changed, the write counter has
    gone up by one if the handle's weak pointer to the cache locks and is
    as it was if not, no buffer has changed, and the handle is clean, so
    that flushing it again returns 0 without writing. *)
Theorem flushFile_writes_back (now : Z) (f : CacheFile) (w : World) :
  let path := filePath (metadata (deref w (entry f))) in
  (modified f = false → flushFile now f w = (0, f, w)) ∧
  (modified f = true → path ∈ write_denied (disk w) →
   flushFile now f w = (-1, f, w)) ∧
  (modified f = true →
   ∀ f' w',
     flushFile now f w = (0, f', w') →
     f' = set_modified false f ∧
     files (disk w') !! path
     = Some {| content := data (deref w (entry f)); written_at := now |} ∧
     (∀ q, q ≠ path → files (disk w') !! q = files (disk w) !! q) ∧
     diskWrites (cache w')
     = (if cachePtr f then size_t_wrap (diskWrites (cache w) + 1)
        else diskWrites (cache w)) ∧
     heap w' = heap w ∧
     ∀ now', flushFile now' f' w' = (0, f', w')).
Proof.
  intros path. split_and!.
  - intros Hm. unfold flushFile. rewrite Hm. reflexivity.
  - intros Hm Hden. unfold flushFile, write_back. rewrite Hm. cbn [negb].
    fold path. rewrite bool_decide_eq_true_2 by exact Hden. reflexivity.
  - intros Hm f' w'. unfold flushFile, write_back. rewrite Hm. cbn [negb].
    fold path. destruct (bool_decide (path ∈ write_denied (disk w))); [discriminate|].
    intros [= <- <-]. destruct (cachePtr f); cbn; split_and!; try done.
    + apply lookup_insert_eq.
    + intros q Hq. apply lookup_insert_ne. done.
    + apply lookup_insert_eq.
    + intros q Hq. apply lookup_insert_ne. done.
Qed.

Lemma flushFile_writes_back_witness :
  flushFile 2 writer created_world = (0, writer, created_world) ∧
  (∃ f' w',
     flushFile 2 (set_modified true writer) written_world = (0, f', w') ∧
     files (disk w') !! "b.txt" = Some {| content := hello; written_at := 2 |} ∧
     diskWrites (cache w') = 1 ∧
     flushFile 3 f' w' = (0, f', w')) ∧
  (∃ f' w',
     flushFile 2 (expire (set_modified true writer)) written_world = (0, f', w') ∧
     files (disk w') !! "b.txt" = Some {| content := hello; written_at := 2 |} ∧
     diskWrites (cache w') = 0).
Proof.
  split; [|split].
  - pose proof (flushFile_writes_back 2 writer created_world) as H.
    cbv zeta in H. destruct H as (H & _). apply H. reflexivity.
  - pose proof (flushFile_writes_back 2 (set_modified true writer) written_world) as H.
    cbv zeta in H. destruct H as (_ & _ & H).
    eexists _, _. split; [vm_compute; reflexivity|].
    destruct (H eq_refl _ _ ltac:(vm_compute; reflexivity))
      as (_ & Hfile & _ & Hcount & _ & Hagain).
    split; [|split; [|apply Hagain]].
    + etransitivity; [exact Hfile|]. vm_compute. reflexivity.
    + etransitivity; [exact Hcount|]. vm_compute. reflexivity.
  - pose proof (flushFile_writes_back 2 (expire (set_modified true writer))
                  written_world) as H.
    cbv zeta in H. destruct H as (_ & _ & H).
    eexists _, _. split; [vm_compute; reflexivity|].
    destruct (H eq_refl _ _ ltac:(vm_compute; reflexivity))
      as (_ & Hfile & _ & Hcount & _).
    split.
    + etransitivity; [exact Hfile|]. vm_compute. reflexivity.
    + etransitivity; [exact Hcount|]. vm_compute. reflexivity.
Defined.

(** ** The hit rate *)

(** X8. [getHitRate], for every rounding to [float] that is monotone and
    exact at 0 and at 1 (as the rounding of IEEE 754 is): the result is 0
    as long as nothing was opened, and otherwise a number between 0 and 1,
    provided the sum of the two counters has not overflowed [size_t]. It
    is 0 when there was no hit, and 1 when there was an open and the
    hits and the opens round to the same [float], as they do when there
    was no miss. *)
Theorem getHitRate_range (to_float : R → R) (w : World) :
  (∀ x y, (x <= y)%R → (to_float x <= to_float y)%R) →
  to_float 0%R = 0%R → to_float 1%R = 1%R →
  0 ≤ cacheHits (cache w) → 0 ≤ cacheMisses (cache w) →
  cacheHits (cache w) + cacheMisses (cache w) < 2 ^ 64 →
  (0 <= getHitRate to_float w <= 1)%R ∧
  (cacheHits (cache w) = 0 → getHitRate to_float w = 0%R) ∧
  (0 < cacheHits (cache w) + cacheMisses (cache w) →
   to_float (IZR (cacheHits (cache w)))
   = to_float (IZR (cacheHits (cache w) + cacheMisses (cache w))) →
   getHitRate to_float w = 1%R) ∧
  (0 < cacheHits (cache w) → cacheMisses (cache w) = 0 →
   getHitRate to_float w = 1%R).
Proof.
  intros Hmono H0 H1 Hh Hm Hsum. unfold getHitRate.
  rewrite size_t_wrap_small by lia.
  set (h := cacheHits (cache w)) in *. set (m := cacheMisses (cache w)) in *.
  destruct (h + m =? 0) eqn:Htot.
  - apply Z.eqb_eq in Htot. split_and!; [lra | lra | done | lia | lia].
  - apply Z.eqb_neq in Htot.
    assert (1 <= to_float (IZR (h + m)))%R as Hpos
      by (rewrite <- H1; apply Hmono, IZR_le; lia).
    assert (0 <= to_float (IZR h))%R as Hh'
      by (rewrite <- H0; apply Hmono, IZR_le; lia).
    assert (to_float (IZR h) <= to_float (IZR (h + m)))%R as Hle
      by (apply Hmono, IZR_le; lia).
    set (a := to_float (IZR h)) in *. set (b := to_float (IZR (h + m))) in *.
    assert (a / b * b = a)%R as Hdiv by (field; lra).
    assert (0 <= a / b <= 1)%R as [Hq0 Hq1].
    { split; apply Rmult_le_reg_r with b; try lra; rewrite Hdiv; lra. }
    assert ((a = b :> R) → to_float (a / b)%R = 1%R) as Hsame.
    { intros Hab. rewrite Hab. replace (b / b)%R with 1%R by (field; lra). exact H1. }
    split_and!.
    + rewrite <- H0. apply Hmono, Hq0.
    + rewrite <- H1. apply Hmono, Hq1.
    + intros Hz. unfold a. rewrite Hz, H0.
      replace (0 / b)%R with 0%R by (field; lra). exact H0.
    + intros _ Hab. apply Hsame, Hab.
    + intros _ Hm0. apply Hsame. unfold a, b. rewrite Hm0, Z.add_0_r. reflexivity.
Qed.

Lemma getHitRate_range_witness :
  (0 <= getHitRate (λ x, x) loaded_world <= 1)%R ∧
  getHitRate (λ x, x) loaded_world = 0%R.
Proof.
  destruct (getHitRate_range (λ x, x) loaded_world) as (Hr & Hz & _);
    [intros x y Hxy; exact Hxy | reflexivity | reflexivity
    | vm_compute; discriminate | vm_compute; discriminate | vm_compute; reflexivity|].
  split; [exact Hr|]. apply Hz. vm_compute. reflexivity.
Defined.

(** ** Closing a handle *)

Lemma destroyFile_flushed (now : Z) (f : CacheFile) (w : World) :
  let w1 := if modified f then (flushFile now f w).2 else w in
  heap w1 = heap w ∧ cacheMap (cache w1) = cacheMap (cache w) ∧
  fileTypePriorities (cache w1) = fileTypePriorities (cache w).
Proof.
  destruct (modified f) eqn:Hm; cbn; [|done].
  unfold flushFile. rewrite Hm. cbn [negb].
  destruct (write_back _ _ _ _); [destruct (cachePtr f)|]; done.
Qed.

(** The destructor of a handle whose weak pointer locks: what it does to
    the entries. *)
Lemma destroyFile_with_cache (now : Z) (f : CacheFile) (w : World) :
  (entry f < length (heap w))%nat →
  cachePtr f = true →
  let w' := (closeFile now (Some f) w).2 in
  (closeFile now (Some f) w).1 = true ∧
  stats (deref w' (entry f))
  = {| accessCount := size_t_wrap (accessCount (stats (deref w (entry f))) + 1);
       lastAccessed := now |} ∧
  (∀ e, e ≠ entry f → stats (deref w' e) = stats (deref w e)) ∧
  (∀ e, data (deref w' e) = data (deref w e) ∧
        metadata (deref w' e) = metadata (deref w e)) ∧
  match cacheMap (cache w) !! filePath (metadata (deref w (entry f))) with
  | Some e' =>
      (e' < length (heap w))%nat →
      priorityScore (deref w' e')
      = calculatePriorityScore (fileTypePriorities (cache w)) now (deref w' e') ∧
      ∀ e, e ≠ e' → priorityScore (deref w' e) = priorityScore (deref w e)
  | None => ∀ e, priorityScore (deref w' e) = priorityScore (deref w e)
  end.
Proof.
  intros Hlive Hptr w'. subst w'. cbn [closeFile fst snd]. unfold destroyFile.
  rewrite Hptr.
  destruct (destroyFile_flushed now f w) as (Hh & Hm & Ht).
  set (w1 := if modified f then _ else w) in *.
  set (tick := λ e : CacheEntry, set_stats _ e).
  set (w2 := with_heap (alter tick (entry f)) w1).
  assert (heap w2 = alter tick (entry f) (heap w)) as Hw2
    by (unfold w2; cbn; rewrite Hh; reflexivity).
  assert (filePath (metadata (deref w2 (entry f))) = filePath (metadata (deref w (entry f))))
    as Hpath.
  { unfold deref. rewrite Hw2, list_lookup_total_alter_eq by done. reflexivity. }
  rewrite Hpath. unfold updateEntryScore.
  replace (cacheMap (cache w2)) with (cacheMap (cache w)) by (symmetry; exact Hm).
  replace (fileTypePriorities (cache w2)) with (fileTypePriorities (cache w))
    by (symmetry; exact Ht).
  assert (∀ e, data (alter tick (entry f) (heap w) !!! e) = data (heap w !!! e) ∧
               metadata (alter tick (entry f) (heap w) !!! e) = metadata (heap w !!! e) ∧
               priorityScore (alter tick (entry f) (heap w) !!! e)
               = priorityScore (heap w !!! e)) as Htick.
  { intros e. destruct (decide (e = entry f)) as [->|He].
    - rewrite list_lookup_total_alter_eq by done. done.
    - rewrite list_lookup_total_alter_ne by done. done. }
  split; [reflexivity|].
  destruct (cacheMap (cache w) !! filePath (metadata (deref w (entry f)))) as [e'|] eqn:He'.
  - unfold deref. cbn [heap with_heap]. rewrite Hw2.
    set (h2 := alter tick (entry f) (heap w)) in *.
    set (sc := rescore (fileTypePriorities (cache w)) now).
    assert (∀ e, stats (alter sc e' h2 !!! e) = stats (h2 !!! e) ∧
                 data (alter sc e' h2 !!! e) = data (h2 !!! e) ∧
                 metadata (alter sc e' h2 !!! e) = metadata (h2 !!! e)) as Hsc.
    { intros e. pose proof (entries_rescored_alter (fileTypePriorities (cache w)) now e' h2)
        as [_ Hr]. destruct (Hr e) as (? & ? & ?). done. }
    split_and!.
    + destruct (Hsc (entry f)) as (-> & _). unfold h2.
      rewrite list_lookup_total_alter_eq by done. reflexivity.
    + intros e He. destruct (Hsc e) as (-> & _). unfold h2.
      rewrite list_lookup_total_alter_ne by done. reflexivity.
    + intros e. destruct (Hsc e) as (_ & -> & ->). destruct (Htick e) as (-> & -> & _). done.
    + intros Hlive'. split.
      * rewrite list_lookup_total_alter_eq by (unfold h2; rewrite length_alter; done).
        reflexivity.
      * intros e He. rewrite list_lookup_total_alter_ne by done. apply Htick.
  - unfold deref. rewrite Hw2. split_and!.
    + rewrite list_lookup_total_alter_eq by done. reflexivity.
    + intros e He. rewrite list_lookup_total_alter_ne by done. reflexivity.
    + intros e. destruct (Htick e) as (-> & -> & _). done.
    + intros e. apply Htick.
Qed.

(** X9. Closing a handle counts as one access of its entry when the
    handle's weak pointer to the cache locks (the test of line 14), and
    touches no entry when it does not. [closeFile] on a handle returns
    [true]. With the pointer locking, the entry of the handle has its
    access count raised by one and its last access set to the instant of
    the call; no buffer and no metadata change, and no other entry's
    statistics; the score that is recomputed is that of the entry the map
    holds for the path of the handle's entry, with the statistics after
    the update: the handle's own entry when it is still resident, and no
    score at all when its path has left the map. Without it, the state is
    the one the write-back of a modified handle leaves, and every entry is
    as it was. *)
Theorem closeFile_records_access (now : Z) (f : CacheFile) (w : World) :
  (entry f < length (heap w))%nat →
  let w' := (closeFile now (Some f) w).2 in
  (closeFile now (Some f) w).1 = true ∧
  (cachePtr f = true →
   stats (deref w' (entry f))
   = {| accessCount := size_t_wrap (accessCount (stats (deref w (entry f))) + 1);
        lastAccessed := now |} ∧
   (∀ e, e ≠ entry f → stats (deref w' e) = stats (deref w e)) ∧
   (∀ e, data (deref w' e) = data (deref w e) ∧
         metadata (deref w' e) = metadata (deref w e)) ∧
   match cacheMap (cache w) !! filePath (metadata (deref w (entry f))) with
   | Some e' =>
       (e' < length (heap w))%nat →
       priorityScore (deref w' e')
       = calculatePriorityScore (fileTypePriorities (cache w)) now (deref w' e') ∧
       ∀ e, e ≠ e' → priorityScore (deref w' e) = priorityScore (deref w e)
   | None => ∀ e, priorityScore (deref w' e) = priorityScore (deref w e)
   end) ∧
  (cachePtr f = false →
   w' = (if modified f then (flushFile now f w).2 else w) ∧ heap w' = heap w).
Proof.
  intros Hlive w'. split; [reflexivity|]. split.
  - intros Hptr. apply (destroyFile_with_cache now f w Hlive Hptr).
  - intros Hptr. subst w'. cbn [closeFile snd]. unfold destroyFile. rewrite Hptr.
    split; [reflexivity|].
    destruct (modified f); [apply flushFile_heap | reflexivity].
Qed.

Lemma closeFile_records_access_witness :
  let w' := (closeFile 9 (Some reader) loaded_world).2 in
  stats (deref w' 0) = {| accessCount := 1; lastAccessed := 9 |} ∧
  priorityScore (deref w' 0)
  = calculatePriorityScore (fileTypePriorities (cache loaded_world)) 9 (deref w' 0) ∧
  heap (closeFile 9 (Some (expire reader)) loaded_world).2 = heap loaded_world.
Proof.
  assert (entry reader < length (heap loaded_world))%nat as Hlive by (vm_compute; lia).
  pose proof (closeFile_records_access 9 reader loaded_world Hlive) as H.
  cbv zeta in H. destruct H as (_ & H & _).
  destruct (H eq_refl) as (Hstats & _ & _ & Hscore).
  split; [exact Hstats|]. split.
  - replace (cacheMap (cache loaded_world)
               !! filePath (metadata (deref loaded_world (entry reader))))
      with (Some 0%nat) in Hscore by (vm_compute; reflexivity).
    apply Hscore. exact Hlive.
  - pose proof (closeFile_records_access 9 (expire reader) loaded_world Hlive) as H'.
    cbv zeta in H'. destruct H' as (_ & _ & H').
    apply (H' eq_refl).
Defined.

(** ** The LRU list as an index of the map *)

Lemma lru_touch {V : Type} (path : string) (l : list string) (m m' : gmap string V) :
  NoDup l ∧ (∀ p, p ∈ l ↔ is_Some (m !! p)) →
  is_Some (m' !! path) → (∀ p, p ≠ path → m' !! p = m !! p) →
  NoDup (path :: filter (λ p, p ≠ path) l) ∧
  ∀ p, p ∈ path :: filter (λ p, p ≠ path) l ↔ is_Some (m' !! p).
Proof.
  intros [Hnd Hkeys] Hpath Hrest. split.
  - apply NoDup_cons. split; [|apply NoDup_filter, Hnd].
    intros Hin. apply list_elem_of_filter in Hin as [Hne _]. done.
  - intros p. rewrite elem_of_cons, list_elem_of_filter.
    destruct (decide (p = path)) as [->|Hne]; [by split; auto|].
    rewrite Hrest by done. rewrite Hkeys. split; [intros [?|[_ ?]]; done | auto].
Qed.

Lemma lru_drop {V : Type} (path : string) (l : list string) (m : gmap string V) :
  NoDup l ∧ (∀ p, p ∈ l ↔ is_Some (m !! p)) →
  NoDup (filter (λ p, p ≠ path) l) ∧
  ∀ p, p ∈ filter (λ p, p ≠ path) l ↔ is_Some (delete path m !! p).
Proof.
  intros [Hnd Hkeys]. split; [apply NoDup_filter, Hnd|].
  intros p. rewrite list_elem_of_filter.
  destruct (decide (p = path)) as [->|Hne].
  - rewrite lookup_delete_eq. split; [intros [? _]; done | intros [? ?]; done].
  - rewrite lookup_delete_ne by done. rewrite Hkeys. split; [intros [_ ?]; done | auto].
Qed.

Lemma lru_consistent_same (w w' : World) :
  lruList (cache w') = lruList (cache w) → cacheMap (cache w') = cacheMap (cache w) →
  lru_consistent w → lru_consistent w'.
Proof. unfold lru_consistent. intros -> ->. done. Qed.

Lemma lru_consistent_indexed (w : World) : lru_consistent w → lru_indexed w.
Proof. intros [_ Hkeys] p Hin. apply Hkeys, Hin. Qed.

Lemma evictFile_consistent (path : string) (w : World) :
  lru_consistent w → lru_consistent (evictFile path w).
Proof.
  intros Hc. unfold evictFile. destruct (cacheMap (cache w) !! path); [|exact Hc].
  unfold lru_consistent. cbn. apply lru_drop, Hc.
Qed.

Lemma evictionLoop_consistent (fuel : nat) (requiredSize : Z) (w w' : World) :
  evictionLoop fuel requiredSize w = Returns w' → lru_consistent w → lru_consistent w'.
Proof.
  revert w. induction fuel as [|n IH]; intros w; cbn [evictionLoop].
  - destruct (_ && _); [|intros [= <-]; done].
    destruct (bool_decide _); [intros [= <-]; done | discriminate].
  - destruct (_ && _); [|intros [= <-]; done].
    destruct (bool_decide _); [intros [= <-]; done|].
    intros Hloop Hc. eapply IH; [exact Hloop|]. apply evictFile_consistent, Hc.
Qed.

Lemma makeRoomInCache_consistent (now requiredSize : Z) (w w' : World) :
  makeRoomInCache now requiredSize w = Returns w' → lru_consistent w → lru_consistent w'.
Proof.
  unfold makeRoomInCache. destruct (negb _); [intros [= <-]; done|].
  returned as w1 eqn:Hloop. intros Hret Hc.
  apply evictionLoop_consistent in Hloop; [|exact Hc].
  destruct (over_budget requiredSize w1); injection Hret as <-; exact Hloop.
Qed.

Lemma openFile_consistent (now : Z) (path mode : string) (w w' : World)
    (r : option CacheFile) :
  openFile now path mode w = Returns (r, w') → lru_consistent w → lru_consistent w'.
Proof.
  unfold openFile. intros Hopen Hc.
  destruct (cacheMap (cache w) !! path) as [e|] eqn:Hp.
  { injection Hopen as <- <-. unfold lru_consistent. cbn.
    apply (lru_touch path _ (cacheMap (cache w))); [exact Hc | by rewrite Hp | done]. }
  destruct (_ && _); [injection Hopen as <- <-; exact Hc|].
  destruct (contains "w" mode).
  - injection Hopen as <- <-. unfold lru_consistent. cbn.
    apply (lru_touch path _ (cacheMap (cache w))); [exact Hc | by rewrite lookup_insert_eq |].
    intros p Hne. by rewrite lookup_insert_ne.
  - revert Hopen. unfold loadFileIntoCache.
    destruct (fileSize _ =? 0); [intros [= <- <-]; exact Hc|].
    returned as w1 eqn:Hroom.
    apply makeRoomInCache_consistent in Hroom; [|exact Hc].
    destruct (bool_decide _); [intros [= <- <-]; exact Hroom|].
    cbn. rewrite lookup_insert_eq. cbn. intros [= <- <-].
    unfold lru_consistent. cbn.
    apply (lru_touch path _ (cacheMap (cache w1)));
      [exact Hroom | by rewrite lookup_insert_eq |].
    intros p Hne. by rewrite lookup_insert_ne.
Qed.

Lemma write_consistent (now : Z) (buffer : list byte) (size count : Z) (f f' : CacheFile)
    (w w' : World) (n : Z) :
  write now buffer size count f w = Returns (n, f', w') →
  lru_consistent w → lru_consistent w'.
Proof.
  unfold write. destruct (_ && _); [intros [= <- <- <-]; done|].
  returned as w1 eqn:Hgrow. destruct (_ || _); [discriminate|].
  intros [= <- <- <-]. cbn.
  revert Hgrow. unfold growBuffer.
  destruct (_ >? data_size w f); [|intros [= <-]; done].
  destruct (cachePtr f); [|intros [= <-]; done].
  returned as w0 eqn:Hroom. intros [= <-] Hc.
  apply makeRoomInCache_consistent in Hroom; [|exact Hc]. exact Hroom.
Qed.

Lemma resizeCache_consistent (now newMaxSize : Z) (w w' : World) :
  resizeCache now newMaxSize w = Returns w' → lru_consistent w → lru_consistent w'.
Proof.
  unfold resizeCache. destruct (newMaxSize <? _).
  - returned as w1 eqn:Hroom. intros [= <-] Hc.
    apply makeRoomInCache_consistent in Hroom; [|exact Hc]. exact Hroom.
  - cbn [mbind outcome_bind]. intros [= <-]. done.
Qed.

Lemma step_consistent (w w' : World) : step w w' → lru_consistent w → lru_consistent w'.
Proof.
  intros [now Hstep] Hc. destruct Hstep.
  - eapply openFile_consistent; eassumption.
  - eapply write_consistent; eassumption.
  - apply evictFile_consistent, Hc.
  - destruct (flushFile_cache now f w) as [n Hn].
    eapply lru_consistent_same; [| |exact Hc]; rewrite Hn; reflexivity.
  - destruct file as [f|]; [|exact Hc]. cbn.
    destruct (destroyFile_cache now f w) as [n Hn].
    eapply lru_consistent_same; [| |exact Hc]; rewrite Hn; reflexivity.
  - destruct (flush_cache now w) as [n Hn].
    eapply lru_consistent_same; [| |exact Hc]; rewrite Hn; reflexivity.
  - eapply resizeCache_consistent; eassumption.
  - exact Hc.
Qed.

Lemma reachable_consistent (w : World) : reachable w → lru_consistent w.
Proof.
  intros (maxSize & d & Hrun).
  revert w Hrun. apply rtc_ind_r; [|intros w1 w2 _ Hstep IH].
  - split; [apply NoDup_nil_2|]. intros p. cbn. rewrite lookup_empty.
    split; [intros Hin; by apply elem_of_nil in Hin | intros [? ?]; done].
  - eapply step_consistent; eassumption.
Qed.

Lemma loaded_world_reachable : reachable loaded_world.
Proof.
  exists 1048576, hello_disk. apply rtc_once. exists 0.
  apply (step_openFile 0 "a.txt" "r" fresh_world (Some (newCacheFile 0 "r" true))).
  vm_compute. reflexivity.
Qed.

(** X10. The LRU list indexes the map. In every state that calls of the
    operations lead to from a new cache, the LRU list holds no path twice
    and holds exactly the paths that are keys of the entry map; so the
    number of its nodes is the number of entries. *)
Theorem lru_list_indexes_map (w : World) :
  reachable w →
  NoDup (lruList (cache w)) ∧
  (∀ p, p ∈ lruList (cache w) ↔ is_Some (cacheMap (cache w) !! p)) ∧
  Z.of_nat (length (lruList (cache w))) = getCacheEntryCount w.
Proof.
  intros Hr. destruct (reachable_consistent w Hr) as [Hnd Hkeys].
  split; [exact Hnd|]. split; [exact Hkeys|].
  unfold getCacheEntryCount. f_equal.
  rewrite <- (length_map_to_list (cacheMap (cache w))).
  rewrite <- (length_fmap fst (map_to_list _)).
  apply Permutation_length, NoDup_Permutation;
    [exact Hnd | apply NoDup_fst_map_to_list|].
  intros p. rewrite Hkeys. rewrite list_elem_of_fmap. split.
  - intros [e He]. exists (p, e). split; [reflexivity|]. by apply elem_of_map_to_list.
  - intros ([q e] & -> & Hin). apply elem_of_map_to_list in Hin. eauto.
Qed.

Lemma lru_list_indexes_map_witness :
  NoDup (lruList (cache loaded_world)) ∧
  Z.of_nat (length (lruList (cache loaded_world))) = getCacheEntryCount loaded_world.
Proof.
  destruct (lru_list_indexes_map loaded_world loaded_world_reachable) as (Hnd & _ & Hlen).
  split; [exact Hnd | exact Hlen].
Defined.

(** ** Making room *)

Lemma findEntryForEviction_nonempty (w : World) :
  lru_consistent w → cacheMap (cache w) ≠ ∅ → cacheMap (cache w) !! "" = None →
  findEntryForEviction w ≠ "".
Proof.
  intros [_ Hkeys] Hne Hnokey. unfold findEntryForEviction.
  rewrite bool_decide_eq_false_2 by exact Hne.
  unfold selectVictim.
  destruct (bool_decide_reflect ((scanForLowest (scored_entries w) "" FLT_MAX).1 = ""))
    as [Hc|Hc]; [|exact Hc].
  assert (lruList (cache w) ≠ []) as Hlru.
  { apply map_choose in Hne as (p & e & Hp).
    assert (p ∈ lruList (cache w)) as Hin by (apply Hkeys; eauto).
    intros Hnil. rewrite Hnil in Hin. by apply elem_of_nil in Hin. }
  rewrite (bool_decide_eq_false_2 _ Hlru). cbn [negb andb].
  intros Hback. pose proof (lru_back_elem _ Hlru) as Hin.
  rewrite Hback in Hin. apply Hkeys in Hin as [e He]. congruence.
Qed.

Lemma evictFile_no_key (path q : string) (w : World) :
  cacheMap (cache w) !! q = None → cacheMap (cache (evictFile path w)) !! q = None.
Proof. intros H. rewrite evictFile_cacheMap. apply lookup_delete_None. auto. Qed.

Lemma evictionLoop_done (fuel : nat) (requiredSize : Z) (w w' : World) :
  evictionLoop fuel requiredSize w = Returns w' →
  lru_consistent w → cacheMap (cache w) !! "" = None →
  over_budget requiredSize w' = false ∨ cacheMap (cache w') = ∅.
Proof.
  assert (∀ w, lru_consistent w → cacheMap (cache w) !! "" = None →
               over_budget requiredSize w
               && negb (bool_decide (cacheMap (cache w) = ∅)) = true →
               bool_decide (findEntryForEviction w = "") = false) as Hvictim.
  { intros w0 Hc Hk Hcond. apply andb_true_iff in Hcond as [_ Hne].
    apply negb_true_iff, bool_decide_eq_false in Hne.
    apply bool_decide_eq_false. by apply findEntryForEviction_nonempty. }
  assert (∀ w, over_budget requiredSize w
               && negb (bool_decide (cacheMap (cache w) = ∅)) = false →
               over_budget requiredSize w = false ∨ cacheMap (cache w) = ∅) as Hstop.
  { intros w0 Hcond. apply andb_false_iff in Hcond as [Hb|Hm]; [by left|].
    right. apply negb_false_iff, bool_decide_eq_true in Hm. exact Hm. }
  revert w. induction fuel as [|n IH]; intros w; cbn [evictionLoop].
  - destruct (_ && _) eqn:Hcond; [|intros [= <-] _ _; by apply Hstop].
    intros Hret Hc Hk. rewrite (Hvictim w Hc Hk Hcond) in Hret. discriminate.
  - destruct (_ && _) eqn:Hcond; [|intros [= <-] _ _; by apply Hstop].
    intros Hret Hc Hk. rewrite (Hvictim w Hc Hk Hcond) in Hret.
    eapply IH; [exact Hret | apply evictFile_consistent, Hc | apply evictFile_no_key, Hk].
Qed.

Lemma evictionLoop_maxCacheSize (fuel : nat) (requiredSize : Z) (w w' : World) :
  evictionLoop fuel requiredSize w = Returns w' →
  maxCacheSize (cache w') = maxCacheSize (cache w).
Proof.
  assert (∀ path w, maxCacheSize (cache (evictFile path w)) = maxCacheSize (cache w))
    as Hevict.
  { intros path w0. unfold evictFile. destruct (cacheMap (cache w0) !! path); reflexivity. }
  revert w. induction fuel as [|n IH]; intros w; cbn [evictionLoop].
  - destruct (_ && _); [|intros [= <-]; done].
    destruct (bool_decide _); [intros [= <-]; done | discriminate].
  - destruct (_ && _); [|intros [= <-]; done].
    destruct (bool_decide _); [intros [= <-]; done|].
    intros Hrun. rewrite (IH _ Hrun). apply Hevict.
Qed.

Lemma makeRoomInCache_bound (now requiredSize : Z) (w w' : World) :
  makeRoomInCache now requiredSize w = Returns w' →
  lru_consistent w → cacheMap (cache w) !! "" = None →
  over_budget requiredSize w' = false ∧
  (maxCacheSize (cache w') = maxCacheSize (cache w) ∨
   cacheMap (cache w') = ∅ ∧
   maxCacheSize (cache w) < maxCacheSize (cache w') ∧
   maxCacheSize (cache w') = size_t_wrap (currentCacheSize (cache w') + requiredSize)).
Proof.
  unfold makeRoomInCache. destruct (over_budget requiredSize w) eqn:Hover; cbn [negb].
  2: { intros [= <-] _ _. split; [exact Hover | by left]. }
  returned as w1 eqn:Hloop. intros Hret Hc Hk.
  pose proof (evictionLoop_maxCacheSize _ _ _ _ Hloop) as Hmax. cbn in Hmax.
  pose proof (evictionLoop_done _ _ _ _ Hloop Hc Hk) as Hdone.
  destruct (over_budget requiredSize w1) eqn:Hover1; injection Hret as <-.
  - destruct Hdone as [?|Hempty]; [congruence|]. split.
    + unfold over_budget. cbn. apply gtb_false. lia.
    + right. cbn. split; [exact Hempty|]. split; [|reflexivity].
      unfold over_budget in Hover1. rewrite Hmax in Hover1.
      rewrite Z.gtb_ltb in Hover1. apply Z.ltb_lt in Hover1. exact Hover1.
  - split; [exact Hover1 | left; exact Hmax].
Qed.

(** X11. [makeRoomInCache] ends with room for the request. From a state whose
    LRU list indexes the map and in which the empty string is not a key, the
    call returns, and when it returns [currentCacheSize + requiredSize] is
    at most [maxCacheSize]. The bound is the old one unless every entry has
    been evicted and the request still does not fit: only then is it raised,
    to exactly [currentCacheSize + requiredSize]. The disk is not written:
    an evicted buffer is dropped from the map as it is. *)
Theorem makeRoomInCache_makes_room (now requiredSize : Z) (w : World) :
  lru_consistent w → cacheMap (cache w) !! "" = None →
  ∃ w',
    makeRoomInCache now requiredSize w = Returns w' ∧
    size_t_wrap (currentCacheSize (cache w') + requiredSize) ≤ maxCacheSize (cache w') ∧
    (maxCacheSize (cache w') = maxCacheSize (cache w) ∨
     cacheMap (cache w') = ∅ ∧
     maxCacheSize (cache w) < maxCacheSize (cache w') ∧
     maxCacheSize (cache w') = size_t_wrap (currentCacheSize (cache w') + requiredSize)) ∧
    disk w' = disk w ∧ diskWrites (cache w') = diskWrites (cache w).
Proof.
  intros Hc Hk.
  destruct (makeRoomInCache_returns now requiredSize w (lru_consistent_indexed w Hc))
    as (w' & Hret & Hrm).
  exists w'. split; [exact Hret|].
  destruct Hrm as [(_ & _ & _ & Hdw & _) Hdisk _ _ _].
  destruct (makeRoomInCache_bound _ _ _ _ Hret Hc Hk) as [Hfit Hmax].
  unfold over_budget in Hfit. rewrite Z.gtb_ltb in Hfit. apply Z.ltb_ge in Hfit.
  split_and!; assumption.
Qed.

Lemma small_created_reachable : reachable small_created.
Proof.
  exists 10, empty_disk. apply rtc_once. exists 0.
  apply (step_openFile 0 "b.txt" "w" small_world (Some (newCacheFile 0 "w" true))).
  vm_compute. reflexivity.
Qed.

Lemma makeRoomInCache_makes_room_witness :
  ∃ w',
    makeRoomInCache 1 11 small_created = Returns w' ∧
    size_t_wrap (currentCacheSize (cache w') + 11) ≤ maxCacheSize (cache w') ∧
    disk w' = disk small_created.
Proof.
  destruct (makeRoomInCache_makes_room 1 11 small_created)
    as (w' & Hret & Hfit & _ & Hdisk & _);
    [apply reachable_consistent, small_created_reachable | vm_compute; reflexivity|].
  exists w'. split; [exact Hret|]. split; [exact Hfit | exact Hdisk].
Defined.

(** ** Shrinking the cache *)

Lemma bytes_of_nonneg (h : list CacheEntry) (l : list (string * nat)) : 0 ≤ bytes_of h l.
Proof.
  induction l as [|kv l IH]; [done|].
  change (0 ≤ getMemoryUsage (h !!! kv.2) + bytes_of h l).
  unfold getMemoryUsage. lia.
Qed.

Lemma bytes_of_submseteq (h : list CacheEntry) (l l' : list (string * nat)) :
  l ⊆+ l' → bytes_of h l ≤ bytes_of h l'.
Proof.
  intros Hs. induction Hs as [|kv l l' _ IH|kv kv' l|kv l l' _ IH|l1 l2 l3 _ IH1 _ IH2].
  - reflexivity.
  - change (getMemoryUsage (h !!! kv.2) + bytes_of h l
            ≤ getMemoryUsage (h !!! kv.2) + bytes_of h l'). lia.
  - cbn. lia.
  - change (bytes_of h l ≤ getMemoryUsage (h !!! kv.2) + bytes_of h l').
    unfold getMemoryUsage. lia.
  - lia.
Qed.

Lemma room_made_bytes (w w' : World) :
  room_made w w' → 0 ≤ resident_bytes w' ≤ resident_bytes w.
Proof.
  intros [_ _ [_ Hsame] Hmap _]. unfold resident_bytes.
  split; [apply bytes_of_nonneg|].
  rewrite (bytes_of_ext (heap w) (heap w')).
  - apply bytes_of_submseteq, map_to_list_submseteq, map_subseteq_spec, Hmap.
  - intros kv _. destruct (Hsame kv.2) as (_ & _ & ->). reflexivity.
Qed.

(** X12. Shrinking keeps the cache within the new bound. When [resizeCache] is
    given a bound below the current one, in a state whose count is the sum of
    the resident buffer lengths and whose sizes are far from the range of
    [size_t], the call returns with [maxCacheSize] equal to the new bound
    and with [currentCacheSize] at most that bound: enough entries have been
    evicted, all of them if need be. *)
Theorem resizeCache_shrinks (now newMaxSize : Z) (w : World) :
  lru_consistent w → cacheMap (cache w) !! "" = None → accounted w →
  0 ≤ newMaxSize < maxCacheSize (cache w) →
  resident_bytes w + maxCacheSize (cache w) < 2 ^ 64 →
  ∃ w',
    resizeCache now newMaxSize w = Returns w' ∧
    maxCacheSize (cache w') = newMaxSize ∧
    currentCacheSize (cache w') ≤ newMaxSize ∧
    accounted w'.
Proof.
  intros Hc Hk Hacc [Hnew Hlt] Hsmall. unfold resizeCache.
  rewrite (proj2 (Z.ltb_lt _ _) Hlt).
  set (req := size_t_wrap (maxCacheSize (cache w) - newMaxSize)).
  destruct (makeRoomInCache_returns now req w (lru_consistent_indexed w Hc))
    as (w1 & Hret & Hrm).
  rewrite Hret. cbn [mbind outcome_bind]. eexists. split; [reflexivity|]. cbn.
  pose proof (makeRoomInCache_accounted _ _ _ _ Hret Hacc) as Hacc1.
  destruct (room_made_bytes _ _ Hrm) as [Hb0 Hb1].
  destruct (makeRoomInCache_bound _ _ _ _ Hret Hc Hk) as [Hfit Hmax].
  unfold over_budget in Hfit. rewrite Z.gtb_ltb in Hfit. apply Z.ltb_ge in Hfit.
  pose proof (bytes_of_nonneg (heap w) (map_to_list (cacheMap (cache w)))) as Hb.
  fold (resident_bytes w) in Hb.
  assert (currentCacheSize (cache w1) = resident_bytes w1) as Hcur
    by (rewrite Hacc1; apply size_t_wrap_small; lia).
  assert (req = maxCacheSize (cache w) - newMaxSize) as Hreq
    by (unfold req; apply size_t_wrap_small; lia).
  split; [reflexivity|]. split; [|exact Hacc1].
  destruct Hmax as [Hsame | (Hempty & _ & _)].
  - rewrite size_t_wrap_small in Hfit by lia. lia.
  - rewrite Hcur. unfold resident_bytes. rewrite Hempty, map_to_list_empty. cbn. lia.
Qed.

Lemma resizeCache_shrinks_witness :
  ∃ w',
    resizeCache 1 3 loaded_world = Returns w' ∧
    maxCacheSize (cache w') = 3 ∧ currentCacheSize (cache w') ≤ 3.
Proof.
  destruct (resizeCache_shrinks 1 3 loaded_world)
    as (w' & Hret & Hmax & Hcur & _);
    [apply reachable_consistent, loaded_world_reachable
    | vm_compute; reflexivity | vm_compute; reflexivity
    | vm_compute; split; [discriminate | reflexivity]
    | vm_compute; reflexivity|].
  exists w'. split; [exact Hret|]. split; [exact Hmax | exact Hcur].
Defined.

(** ** The order of the scores *)

Lemma Rmin_mono (a x y : R) : (x <= y)%R → (Rmin a x <= Rmin a y)%R.
Proof. intros H. unfold Rmin. destruct (Rle_dec a x), (Rle_dec a y); lra. Qed.

Lemma size_score_mono (n1 n2 : Z) :
  n2 ≤ n1 →
  ((if n1 >? 1024 then Rmin 1 (10240 / IZR n1) else 1)
   <= (if n2 >? 1024 then Rmin 1 (10240 / IZR n2) else 1))%R.
Proof.
  intros Hn. pose proof (size_score_range n1) as H1.
  destruct (n2 >? 1024) eqn:H2; [|lra].
  rewrite Z.gtb_ltb in H2. apply Z.ltb_lt in H2.
  rewrite gtb_true by lia.
  apply Rmin_mono.
  assert (1024 < IZR n2)%R as Hr2 by (apply IZR_lt in H2; exact H2).
  assert (IZR n2 <= IZR n1)%R as Hle by (apply IZR_le; exact Hn).
  unfold Rdiv. apply Rmult_le_compat_l; [lra|].
  apply Rinv_le_contravar; lra.
Qed.

Lemma log2f_mono (x y : R) : (0 < x)%R → (x <= y)%R → (log2f x <= log2f y)%R.
Proof.
  intros Hx Hxy. unfold log2f.
  assert (0 < ln 2)%R as H2 by (pose proof ln_lt_2; lra).
  assert (ln x <= ln y)%R as Hl.
  { destruct Hxy as [Hlt | ->]; [|lra]. left. apply ln_increasing; assumption. }
  unfold Rdiv. apply Rmult_le_compat_r; [|exact Hl].
  left. apply Rinv_0_lt_compat, H2.
Qed.

Lemma exp_mono (x y : R) : (x <= y)%R → (exp x <= exp y)%R.
Proof. intros [Hlt | ->]; [left; apply exp_increasing, Hlt | lra]. Qed.

Lemma recency_mono (now last1 last2 : Z) :
  last1 ≤ last2 →
  (exp (IZR (- seconds_since now last1) / 3600)
   <= exp (IZR (- seconds_since now last2) / 3600))%R.
Proof.
  intros Hl. apply exp_mono.
  assert (seconds_since now last2 ≤ seconds_since now last1) as Hs
    by (unfold seconds_since; apply Z.quot_le_mono; lia).
  assert (IZR (- seconds_since now last1) <= IZR (- seconds_since now last2))%R
    by (apply IZR_le; lia).
  lra.
Qed.

(** X13. The order of the scores follows the four factors of the scorer. An
    entry whose type priority is not lower, whose recorded size is not
    larger, which has not been accessed fewer times nor less recently than
    another entry never has a lower score at the same instant. *)
Theorem score_order (priorities : gmap string R) (now : Z) (e1 e2 : CacheEntry) :
  (type_priority priorities e1 <= type_priority priorities e2)%R →
  fileSize (metadata e2) ≤ fileSize (metadata e1) →
  0 ≤ accessCount (stats e1) ≤ accessCount (stats e2) →
  lastAccessed (stats e1) ≤ lastAccessed (stats e2) →
  (calculatePriorityScore priorities now e1 <= calculatePriorityScore priorities now e2)%R.
Proof.
  intros Htype Hsize [Ha0 Ha] Hlast. unfold calculatePriorityScore, type_priority in *.
  pose proof (size_score_mono _ _ Hsize) as H1.
  pose proof (recency_mono now _ _ Hlast) as H2.
  assert (Rmin 0.9 (log2f (1 + IZR (accessCount (stats e1))) / 10)
          <= Rmin 0.9 (log2f (1 + IZR (accessCount (stats e2))) / 10))%R as H3.
  { apply Rmin_mono.
    assert (log2f (1 + IZR (accessCount (stats e1)))
            <= log2f (1 + IZR (accessCount (stats e2))))%R; [|lra].
    apply IZR_le in Ha0, Ha. apply log2f_mono; lra. }
  cbv zeta. lra.
Qed.

Lemma score_order_witness :
  (calculatePriorityScore default_priorities 5
     (newCacheEntry 0 (mkFileMetadata "a.exe" ".exe" 4096 0))
   <= calculatePriorityScore default_priorities 5
        (newCacheEntry 3 (mkFileMetadata "a.cfg" ".cfg" 512 0)))%R.
Proof.
  assert (type_priority default_priorities
            (newCacheEntry 0 (mkFileMetadata "a.exe" ".exe" 4096 0)) = 0.1%R) as H1
    by (vm_compute; reflexivity).
  assert (type_priority default_priorities
            (newCacheEntry 3 (mkFileMetadata "a.cfg" ".cfg" 512 0)) = 0.9%R) as H2
    by (vm_compute; reflexivity).
  apply (score_order default_priorities 5
           (newCacheEntry 0 (mkFileMetadata "a.exe" ".exe" 4096 0))
           (newCacheEntry 3 (mkFileMetadata "a.cfg" ".cfg" 512 0))).
  - rewrite H1, H2. lra.
  - cbn. lia.
  - cbn. lia.
  - cbn. lia.
Defined.

(** ** The victim after the scores are refreshed *)







(** ** What the flush of the cache leaves on the disk *)

Lemma paths_agree_persist (w w' : World) :
  map_well_formed w → paths_agree w →
  objects_persist (heap w) (heap w') →
  (∀ p e, cacheMap (cache w') !! p = Some e → cacheMap (cache w) !! p = Some e) →
  paths_agree w'.
Proof.
  intros [Hlive _] Hpa [_ Hmeta] Hmap p e Hp. apply Hmap in Hp.
  unfold deref. destruct (Hmeta e (Hlive p e Hp)) as [-> _]. apply Hpa, Hp.
Qed.

Lemma getFileMetadata_filePath (now : Z) (fsys : FileSystem) (path : string) :
  filePath (getFileMetadata now fsys path) = path.
Proof. unfold getFileMetadata. destruct (files fsys !! path); reflexivity. Qed.

Lemma paths_agree_admit (w w' : World) (path : string) :
  map_well_formed w → paths_agree w →
  cacheMap (cache w') = <[path := length (heap w)]> (cacheMap (cache w)) →
  objects_persist (heap w) (heap w') →
  filePath (metadata (heap w' !!! length (heap w))) = path →
  paths_agree w'.
Proof.
  intros [Hlive _] Hpa Hmap [_ Hmeta] Hnew p e. rewrite Hmap, lookup_insert.
  destruct (decide (path = p)) as [<-|Hne]; [intros [= <-]; exact Hnew|].
  intros Hp. unfold deref. destruct (Hmeta e (Hlive p e Hp)) as [-> _]. apply Hpa, Hp.
Qed.

Lemma openFile_paths_agree (now : Z) (path mode : string) (w w' : World)
    (r : option CacheFile) :
  openFile now path mode w = Returns (r, w') →
  map_well_formed w → paths_agree w → paths_agree w'.
Proof.
  unfold openFile. intros Hopen Hwf Hpa.
  destruct (cacheMap (cache w) !! path) as [e|] eqn:Hp.
  { injection Hopen as <- <-. exact Hpa. }
  set (w0 := with_cache _ w) in Hopen.
  assert (map_well_formed w0) as Hwf0 by (destruct Hwf; split; assumption).
  assert (paths_agree w0) as Hpa0 by exact Hpa.
  destruct (_ && _); [injection Hopen as <- <-; exact Hpa|].
  destruct (contains "w" mode).
  - injection Hopen as <- <-.
    apply (paths_agree_admit w0 _ path Hwf0 Hpa0); cbn.
    + reflexivity.
    + apply objects_persist_app.
    + rewrite list_lookup_total_middle by reflexivity. cbn.
      apply getFileMetadata_filePath.
  - revert Hopen. unfold loadFileIntoCache.
    destruct (fileSize _ =? 0); [intros [= <- <-]; exact Hpa|].
    returned as w1 eqn:Hroom.
    apply makeRoomInCache_room_made in Hroom.
    assert (paths_agree w1) as Hpa1
      by (eapply paths_agree_persist;
          [exact Hwf0 | exact Hpa0 | apply room_made_persist, Hroom | apply Hroom]).
    pose proof (room_made_well_formed _ _ Hroom Hwf0) as Hwf1.
    destruct (bool_decide _); [intros [= <- <-]; exact Hpa1|].
    cbn. rewrite lookup_insert_eq. cbn. intros [= <- <-].
    apply (paths_agree_admit w1 _ path Hwf1 Hpa1); cbn.
    + reflexivity.
    + eapply objects_persist_trans; [apply objects_persist_app|].
      apply objects_persist_alter; [done|]. cbn. lia.
    + rewrite list_lookup_total_alter_eq by (rewrite length_app; cbn; lia).
      rewrite list_lookup_total_middle by reflexivity. cbn.
      apply getFileMetadata_filePath.
Qed.

Lemma step_paths_agree (w w' : World) :
  step w w' → map_well_formed w → paths_agree w → paths_agree w'.
Proof.
  intros Hstep Hwf Hpa. pose proof (step_persist _ _ Hstep) as Hpers.
  destruct Hstep as [now Hstep]. destruct Hstep.
  - eapply openFile_paths_agree; eassumption.
  - apply (paths_agree_persist w _ Hwf Hpa Hpers).
    revert H0. unfold write. destruct (_ && _); [intros [= <- <- <-]; done|].
    returned as w1 eqn:Hgrow. destruct (_ || _); [discriminate|].
    intros [= <- <- <-]. cbn.
    apply growBuffer_frame in Hgrow as (_ & _ & Hmap & _). exact Hmap.
  - apply (paths_agree_persist w _ Hwf Hpa Hpers), evictFile_room_made.
  - apply (paths_agree_persist w _ Hwf Hpa Hpers).
    destruct (flushFile_cache_frame now f w) as [_ ->]. done.
  - destruct file as [f|]; [|exact Hpa].
    apply (paths_agree_persist w _ Hwf Hpa Hpers). cbn.
    destruct (destroyFile_frame now f w) as (_ & -> & _). done.
  - apply (paths_agree_persist w _ Hwf Hpa Hpers).
    destruct (flush_cache_frame now w) as [_ ->]. done.
  - apply (paths_agree_persist w _ Hwf Hpa Hpers).
    eapply resizeCache_room_made. eassumption.
  - apply (paths_agree_persist w _ Hwf Hpa Hpers). done.
Qed.

Lemma reachable_paths_agree (w : World) : reachable w → paths_agree w.
Proof.
  intros (maxSize & d & Hrun).
  assert (paths_agree w ∧ reachable w) as [H _]; [|exact H].
  revert w Hrun. apply rtc_ind_r; [|intros w1 w2 Hrun Hstep [IH Hr]].
  - split; [|exists maxSize, d; apply rtc_refl]. intros p e Hp. cbn in Hp.
    rewrite lookup_empty in Hp. discriminate.
  - split.
    + apply (step_paths_agree _ _ Hstep); [|exact IH].
      apply reachable_invariants, Hr.
    + destruct Hr as (m' & d' & Hr). exists m', d'. eapply rtc_r; eassumption.
Qed.

Lemma flushEntry_files (now : Z) (w : World) (kv : string * nat) (p : string) :
  heap (flushEntry now w kv) = heap w ∧
  write_denied (disk (flushEntry now w kv)) = write_denied (disk w) ∧
  files (disk (flushEntry now w kv)) !! p
  = if bool_decide (p = filePath (metadata (deref w kv.2)) ∧ p ∉ write_denied (disk w))
    then Some {| content := data (deref w kv.2); written_at := now |}
    else files (disk w) !! p.
Proof.
  unfold flushEntry, write_back.
  destruct (bool_decide_reflect (filePath (metadata (deref w kv.2)) ∈ write_denied (disk w)))
    as [Hd|Hd].
  - split; [reflexivity|]. split; [reflexivity|].
    rewrite bool_decide_eq_false_2; [reflexivity|]. intros [-> Hn]. done.
  - cbn. split; [reflexivity|]. split; [reflexivity|].
    destruct (bool_decide_reflect
                (p = filePath (metadata (deref w kv.2)) ∧ p ∉ write_denied (disk w)))
      as [[-> _]|Hn].
    + apply lookup_insert_eq.
    + apply lookup_insert_ne. intros <-. apply Hn. done.
Qed.

Lemma flush_entries_files (now : Z) (l : list (string * nat)) (w : World) (p : string) :
  NoDup l.*1 →
  (∀ kv, kv ∈ l → filePath (metadata (deref w kv.2)) = kv.1) →
  files (disk (foldl (flushEntry now) w l)) !! p
  = match list_find (λ kv, kv.1 = p) l with
    | Some (_, kv) =>
        if bool_decide (p ∈ write_denied (disk w)) then files (disk w) !! p
        else Some {| content := data (deref w kv.2); written_at := now |}
    | None => files (disk w) !! p
    end.
Proof.
  revert w. induction l as [|kv l IH]; intros w Hnd Hpaths; [reflexivity|].
  cbn [foldl]. rewrite fmap_cons in Hnd. apply NoDup_cons in Hnd as [Hfresh Hnd].
  destruct (flushEntry_files now w kv p) as (Hheap & Hden & Hfile).
  assert (∀ e, deref (flushEntry now w kv) e = deref w e) as Hderef
    by (intros e; unfold deref; rewrite Hheap; reflexivity).
  rewrite IH; [|exact Hnd|].
  2: { intros kv' Hin. rewrite Hderef. apply Hpaths. by right. }
  rewrite Hden, Hfile, (Hpaths kv) by (by left).
  cbn [list_find]. destruct (decide (kv.1 = p)) as [Hkv|Hkv].
  - subst p. cbn.
    assert (list_find (λ kv' : string * nat, kv'.1 = kv.1) l = None) as ->.
    { apply list_find_None, Forall_forall. intros kv' Hin Heq.
      apply Hfresh. rewrite <- Heq. apply list_elem_of_fmap. eauto. }
    destruct (bool_decide_reflect (kv.1 ∈ write_denied (disk w))) as [Hd|Hd].
    + rewrite bool_decide_eq_false_2; [reflexivity|]. intros [_ ?]. done.
    + rewrite bool_decide_eq_true_2; [reflexivity|]. done.
  - rewrite (bool_decide_eq_false_2 (p = kv.1 ∧ _)) by (intros [-> _]; done).
    destruct (list_find _ l) as [[i kv']|]; cbn; [|reflexivity].
    rewrite Hderef. reflexivity.
Qed.

(** X15. The flush of the cache writes every buffer to its own file. In a
    state reached from a new cache, [flush] leaves in the file of every
    resident path that can be opened for writing exactly the buffer of its
    entry, and leaves every other file of the disk as it was. *)
Theorem flush_writes_every_buffer (now : Z) (w : World) :
  reachable w →
  (∀ p e, cacheMap (cache w) !! p = Some e → p ∉ write_denied (disk w) →
          files (disk (flush now w)) !! p
          = Some {| content := data (deref w e); written_at := now |}) ∧
  (∀ p, cacheMap (cache w) !! p = None ∨ p ∈ write_denied (disk w) →
        files (disk (flush now w)) !! p = files (disk w) !! p).
Proof.
  intros Hr. pose proof (reachable_paths_agree w Hr) as Hpa.
  assert (∀ p, files (disk (flush now w)) !! p
               = match list_find (λ kv : string * nat, kv.1 = p)
                         (map_to_list (cacheMap (cache w))) with
                 | Some (_, kv) =>
                     if bool_decide (p ∈ write_denied (disk w)) then files (disk w) !! p
                     else Some {| content := data (deref w kv.2); written_at := now |}
                 | None => files (disk w) !! p
                 end) as Hfiles.
  { intros p. apply flush_entries_files; [apply NoDup_fst_map_to_list|].
    intros [q e] Hin. apply elem_of_map_to_list in Hin. apply Hpa, Hin. }
  split.
  - intros p e Hp Hw. rewrite Hfiles.
    destruct (list_find _ _) as [[i kv]|] eqn:Hfind.
    + apply list_find_Some in Hfind as (Hi & Hkv & _).
      apply list_elem_of_lookup_2 in Hi. destruct kv as [q e']. cbn in Hkv. subst q.
      apply elem_of_map_to_list in Hi. rewrite Hp in Hi. injection Hi as <-.
      rewrite bool_decide_eq_false_2 by exact Hw. reflexivity.
    + exfalso. apply list_find_None in Hfind.
      rewrite Forall_forall in Hfind. apply (Hfind (p, e)); [|reflexivity].
      apply elem_of_map_to_list, Hp.
  - intros p Hout. rewrite Hfiles.
    destruct (list_find _ _) as [[i kv]|] eqn:Hfind; [|reflexivity].
    apply list_find_Some in Hfind as (Hi & Hkv & _).
    apply list_elem_of_lookup_2 in Hi. destruct kv as [q e']. cbn in Hkv. subst q.
    apply elem_of_map_to_list in Hi.
    destruct Hout as [Hnone | Hden]; [congruence|].
    rewrite bool_decide_eq_true_2 by exact Hden. reflexivity.
Qed.

Lemma written_world_reachable : reachable written_world.
Proof.
  exists 1048576, hello_disk.
  eapply rtc_l; [|apply rtc_once].
  - exists 0. apply (step_openFile 0 "b.txt" "w" fresh_world (Some writer)).
    vm_compute. reflexivity.
  - exists 1.
    apply (step_write 1 hello 1 5 writer created_world 5
             (set_modified true (set_position 5 writer)) written_world).
    + vm_compute. split; discriminate.
    + vm_compute. reflexivity.
Qed.

Lemma flush_writes_every_buffer_witness :
  files (disk (flush 2 written_world)) !! "b.txt"
  = Some {| content := hello; written_at := 2 |} ∧
  files (disk (flush 2 written_world)) !! "a.txt" = files (disk written_world) !! "a.txt".
Proof.
  destruct (flush_writes_every_buffer 2 written_world written_world_reachable)
    as [Hin Hout].
  split.
  - apply (Hin "b.txt" 0%nat); [vm_compute; reflexivity|].
    vm_compute. intros H. discriminate.
  - apply Hout. left. vm_compute. reflexivity.
Defined.

(** ** The entries of a reachable state *)

(** X16. One entry object for each path. In every state that calls of the
    operations lead to from a new cache, every path of the map points to a
    live entry object that records that very path, no two paths point to
    the same object, and every priority of the type table lies between 0
    and 1. *)
Theorem entries_are_per_path (w : World) :
  reachable w →
  (∀ p e, cacheMap (cache w) !! p = Some e →
          (e < length (heap w))%nat ∧ filePath (metadata (deref w e)) = p) ∧
  (∀ p q e, cacheMap (cache w) !! p = Some e → cacheMap (cache w) !! q = Some e → p = q) ∧
  (∀ k v, fileTypePriorities (cache w) !! k = Some v → (0 <= v <= 1)%R).
Proof.
  intros Hr. destruct (reachable_invariants w Hr) as (_ & Hpri & [Hlive Hinj]).
  pose proof (reachable_paths_agree w Hr) as Hpa.
  split; [|split].
  - intros p e Hp. split; [eapply Hlive, Hp | apply Hpa, Hp].
  - exact Hinj.
  - exact Hpri.
Qed.

Lemma entries_are_per_path_witness :
  (0 < length (heap written_world))%nat ∧
  filePath (metadata (deref written_world 0)) = "b.txt".
Proof.
  destruct (entries_are_per_path written_world written_world_reachable) as (Hlive & _ & _).
  apply (Hlive "b.txt" 0%nat). vm_compute. reflexivity.
Defined.

(** * The file commands of the shell *)

(** ** Opening *)

Lemma openFile_hit (now : Z) (path mode : string) (w : World) (e : nat) :
  cacheMap (cache w) !! path = Some e →
  ∃ w', openFile now path mode w
        = Returns (Some (newCacheFile e mode (weak_this (cache w))), w') ∧
        heap w' = heap w ∧ disk w' = disk w ∧
        cacheMap (cache w') = cacheMap (cache w).
Proof. intros Hp. unfold openFile. rewrite Hp. eexists. split; [reflexivity|]. done. Qed.

Lemma openFile_creates (now : Z) (path mode : string) (w : World) :
  cacheMap (cache w) !! path = None →
  contains "w" mode = true → contains "r" mode = false →
  ∃ w', openFile now path mode w
        = Returns (Some (newCacheFile (length (heap w)) mode (weak_this (cache w))), w') ∧
        cacheMap (cache w') = <[path := length (heap w)]> (cacheMap (cache w)) ∧
        length (heap w') = S (length (heap w)) ∧
        data (deref w' (length (heap w))) = [] ∧
        filePath (metadata (deref w' (length (heap w)))) = path ∧
        disk w' = disk w.
Proof.
  intros Hp Hw Hr. unfold openFile. rewrite Hp, Hw, Hr. cbn [andb].
  eexists. split; [reflexivity|]. cbn. unfold deref. cbn.
  rewrite length_app, list_lookup_total_middle by reflexivity. cbn.
  rewrite getFileMetadata_filePath. split_and!; (done || lia).
Qed.

Lemma openFile_loads (now : Z) (path mode : string) (w : World) (d : list byte) :
  lru_indexed w → cacheMap (cache w) !! path = None → contains "w" mode = false →
  d ≠ [] → path ∉ read_denied (disk w) →
  content <$> files (disk w) !! path = Some d →
  ∃ w', openFile now path mode w
        = Returns (Some (newCacheFile (length (heap w)) mode (weak_this (cache w))), w') ∧
        cacheMap (cache w') !! path = Some (length (heap w)) ∧
        length (heap w') = S (length (heap w)) ∧
        data (deref w' (length (heap w))) = d ∧
        filePath (metadata (deref w' (length (heap w)))) = path ∧
        disk w' = disk w.
Proof.
  intros Hlru Hp Hw Hd Hread Hfile. unfold openFile. rewrite Hp, Hw.
  destruct (files (disk w) !! path) as [file|] eqn:Hf; [|discriminate].
  injection Hfile as <-.
  set (w0 := with_cache _ w).
  assert (files (disk w0) !! path = Some file) as Hf0 by exact Hf.
  rewrite Hf0. rewrite (bool_decide_eq_true_2 (is_Some (Some file))) by eauto.
  rewrite andb_false_r.
  unfold loadFileIntoCache, getFileMetadata. rewrite Hf0. cbn [fileSize].
  replace (Z.of_nat (length (content file)) =? 0) with false
    by (symmetry; apply Z.eqb_neq; destruct (content file); [done | cbn; lia]).
  destruct (makeRoomInCache_returns now (Z.of_nat (length (content file))) w0 Hlru)
    as (w1 & Hroom & Hrm).
  rewrite Hroom. cbn [mbind outcome_bind].
  destruct Hrm as [(_ & _ & _ & _ & _ & Hweak) Hdisk [Hlen _] _ _].
  rewrite Hdisk. rewrite bool_decide_eq_false_2 by exact Hread.
  assert (files (disk w) !! path = Some file) as Hf1 by exact Hf.
  change (disk w0) with (disk w). rewrite Hf1. cbn.
  rewrite lookup_insert_eq. cbn.
  change (length (heap w0)) with (length (heap w)) in Hlen. rewrite Hlen.
  change (weak_this (cache w0)) with (weak_this (cache w)) in Hweak. rewrite Hweak.
  eexists. split; [reflexivity|]. cbn. unfold deref. cbn.
  rewrite lookup_insert_eq, length_alter, length_app, Hlen.
  rewrite list_lookup_total_alter_eq by (rewrite length_app; cbn; lia).
  rewrite <- Hlen, list_lookup_total_middle by reflexivity. cbn.
  split_and!; (done || lia).
Qed.

(** ** Closing *)

Lemma destroyFile_disk (now : Z) (f : CacheFile) (w : World) :
  disk (destroyFile now f w) = disk (if modified f then (flushFile now f w).2 else w).
Proof.
  unfold destroyFile. set (w1 := if modified f then _ else w).
  destruct (cachePtr f); [|reflexivity].
  unfold updateEntryScore. destruct (_ !! _); reflexivity.
Qed.

Lemma destroyFile_writes (now : Z) (f : CacheFile) (w : World) :
  modified f = true →
  filePath (metadata (deref w (entry f))) ∉ write_denied (disk w) →
  files (disk (destroyFile now f w)) !! filePath (metadata (deref w (entry f)))
  = Some {| content := data (deref w (entry f)); written_at := now |} ∧
  read_denied (disk (destroyFile now f w)) = read_denied (disk w).
Proof.
  intros Hm Hden. rewrite destroyFile_disk, Hm.
  unfold flushFile, write_back. rewrite Hm. cbn [negb].
  rewrite bool_decide_eq_false_2 by exact Hden.
  destruct (cachePtr f); cbn; (split; [apply lookup_insert_eq | reflexivity]).
Qed.

(** ** Reading a whole buffer in chunks *)

Lemma readChunks_all (fuel : nat) (f : CacheFile) (w : World) (acc : list byte) :
  contains "r" (mode f) = true → cursor_in_bounds w f →
  data_size w f ≤ vector_max_size →
  (Z.to_nat (data_size w f - position f) < fuel)%nat →
  readChunks fuel f w acc
  = Returns ((acc ++ drop (Z.to_nat (position f)) (data (deref w (entry f))))%list,
             set_position (data_size w f) f).
Proof.
  revert f acc. induction fuel as [|n IH]; intros f acc Hr Hc Hmax Hfuel; [lia|].
  cbn [readChunks]. rewrite read_effect by (done || lia).
  cbn [mbind outcome_bind]. rewrite Z.div_1_r.
  pose proof Hc as [Hlo Hhi].
  assert (bytes_copied 1 4096 f w = Z.min 4096 (data_size w f - position f)) as Hk
    by (rewrite bytes_copied_value by (done || lia); reflexivity).
  set (k := bytes_copied 1 4096 f w) in *.
  destruct (k >? 0) eqn:Hpos.
  - rewrite Z.gtb_ltb in Hpos. apply Z.ltb_lt in Hpos.
    rewrite IH; cbn [mode entry position set_position].
    + rewrite data_size_set_position. f_equal. f_equal.
      rewrite take_take, Nat.min_id, <- app_assoc. f_equal.
      rewrite Z2Nat.inj_add by lia. rewrite <- drop_drop. apply take_drop.
    + exact Hr.
    + unfold cursor_in_bounds. rewrite data_size_set_position. cbn. lia.
    + rewrite data_size_set_position. exact Hmax.
    + rewrite data_size_set_position. lia.
  - rewrite Z.gtb_ltb in Hpos. apply Z.ltb_ge in Hpos.
    assert (position f = data_size w f) as Heq by lia.
    assert (k = 0) as -> by lia.
    rewrite Z.add_0_r, Heq.
    rewrite drop_ge by (unfold data_size; lia). rewrite app_nil_r. reflexivity.
Qed.

Lemma readChunks_whole (f : CacheFile) (w : World) :
  contains "r" (mode f) = true → position f = 0 →
  data_size w f ≤ vector_max_size →
  readChunks (S (Z.to_nat (data_size w f))) f w []
  = Returns (data (deref w (entry f)), set_position (data_size w f) f).
Proof.
  intros Hr Hp Hmax. pose proof (data_size_nonneg w f).
  rewrite readChunks_all; [rewrite Hp; reflexivity | exact Hr | | exact Hmax |].
  - unfold cursor_in_bounds. lia.
  - rewrite Hp. lia.
Qed.

(** ** The commands *)

Lemma reachable_step (w w' : World) : reachable w → step w w' → reachable w'.
Proof. intros (m & d & Hr) Hs. exists m, d. eapply rtc_r; eassumption. Qed.

Lemma open_sees (now : Z) (path mode : string) (w : World) (d : list byte) :
  reachable w → file_seen w path d → contains "w" mode = false →
  ∃ e w',
    openFile now path mode w = Returns (Some (newCacheFile e mode true), w') ∧
    (e < length (heap w'))%nat ∧
    cacheMap (cache w') !! path = Some e ∧
    data (deref w' e) = d ∧ filePath (metadata (deref w' e)) = path ∧
    disk w' = disk w ∧ reachable w'.
Proof.
  intros Hr Hseen Hw. unfold file_seen in Hseen.
  destruct (reachable_invariants w Hr) as (Hlru & _ & Hwf).
  pose proof (reachable_weak_this w Hr) as Hweak.
  destruct (cacheMap (cache w) !! path) as [e|] eqn:Hp.
  - destruct (openFile_hit now path mode w e Hp) as (w' & Hopen & Hheap & Hdisk & Hmap).
    rewrite Hweak in Hopen.
    exists e, w'. unfold deref. rewrite Hheap, Hmap.
    split_and!; try done.
    + eapply wf_live; eassumption.
    + apply (reachable_paths_agree w Hr path e Hp).
    + eapply reachable_step; [exact Hr|]. exists now. eapply step_openFile, Hopen.
  - destruct Hseen as (Hd & Hread & Hfile).
    destruct (openFile_loads now path mode w d Hlru Hp Hw Hd Hread Hfile)
      as (w' & Hopen & Hmap & Hlen & Hdata & Hpath & Hdisk).
    rewrite Hweak in Hopen.
    exists (length (heap w)), w'. split_and!; try done; [lia|].
    eapply reachable_step; [exact Hr|]. exists now. eapply step_openFile, Hopen.
Qed.

Lemma readFile_spec (opened closed : Z) (filename : string) (w : World) (d : list byte) :
  reachable w → file_seen w filename d → Z.of_nat (length d) ≤ vector_max_size →
  ∃ w', readFile opened closed filename w = Returns (Some d, w') ∧
        file_seen w' filename d ∧ disk w' = disk w ∧ reachable w'.
Proof.
  intros Hr Hseen Hmax.
  destruct (open_sees opened filename "r" w d Hr Hseen eq_refl)
    as (e & w1 & Hopen & Hlive & Hmap & Hdata & _ & Hdisk & Hr1).
  unfold readFile. rewrite Hopen. cbn [mbind outcome_bind].
  rewrite readChunks_whole;
    [|reflexivity | reflexivity
     |unfold data_size; cbn [entry newCacheFile]; rewrite Hdata; exact Hmax].
  cbn [mbind outcome_bind entry newCacheFile]. rewrite Hdata.
  eexists. split; [reflexivity|].
  set (f' := set_position _ _). cbn [closeFile snd].
  destruct (destroyFile_frame closed f' w1) as (_ & Hmap' & _ & Hdata').
  split_and!.
  - unfold file_seen. rewrite Hmap', Hmap. unfold deref. rewrite Hdata'. exact Hdata.
  - rewrite destroyFile_disk. exact Hdisk.
  - eapply reachable_step; [exact Hr1|]. exists closed.
    apply (step_closeFile closed (Some f') w1).
Qed.

Lemma write_close_stores (written closed : Z) (mode path : string) (e : nat)
    (content d : list byte) (w : World) :
  reachable w → (e < length (heap w))%nat →
  cacheMap (cache w) !! path = Some e →
  data (deref w e) = d → filePath (metadata (deref w e)) = path →
  path ∉ write_denied (disk w) → path ∉ read_denied (disk w) →
  contains "w" mode || contains "a" mode = true →
  write_start (newCacheFile e mode true) w = Z.of_nat (length d) →
  Z.of_nat (length d) + Z.of_nat (length content) ≤ vector_max_size →
  ∃ f' w2,
    write written content 1 (Z.of_nat (length content)) (newCacheFile e mode true) w
    = Returns (Z.of_nat (length content), f', w2) ∧
    files (disk (closeFile closed (Some f') w2).2) !! path
    = Some {| content := (d ++ content)%list; written_at := closed |} ∧
    file_seen (closeFile closed (Some f') w2).2 path (d ++ content)%list ∧
    write_denied (disk (closeFile closed (Some f') w2).2) = write_denied (disk w) ∧
    read_denied (disk (closeFile closed (Some f') w2).2) = read_denied (disk w) ∧
    reachable (closeFile closed (Some f') w2).2.
Proof.
  intros Hr Hlive Hmap Hdata Hpath Hwr Hrd Hmode Hstart Hmax.
  destruct (reachable_invariants w Hr) as (Hlru & _ & Hwf).
  set (f := newCacheFile e mode true) in *.
  assert (data_size w f = Z.of_nat (length d)) as Hsize
    by (unfold data_size; cbn [entry f newCacheFile]; rewrite Hdata; reflexivity).
  destruct (write_effect written content 1 (Z.of_nat (length content)) f w)
    as (w2 & Hwrite & Hdata2 & _ & Hmeta & Hlen & Hdisk & _ & Hsub & Hsame);
    [exact Hmode | by left | exact Hlru | exact Hlive | lia | lia | lia |].
  cbn [entry f newCacheFile] in Hdata2, Hmeta.
  rewrite Hstart, Z.mul_1_l, Hdata in Hdata2.
  rewrite written_data_append in Hdata2 by lia.
  rewrite Nat2Z.id, firstn_all in Hdata2.
  set (f' := set_modified true _) in Hwrite.
  exists f', w2. split; [exact Hwrite|]. cbn [closeFile snd].
  assert (filePath (metadata (deref w2 (entry f'))) = path) as Hpath2
    by (cbn [entry f' f set_modified set_position newCacheFile];
        destruct (Hmeta e) as [-> _]; exact Hpath).
  destruct (destroyFile_writes closed f' w2 eq_refl) as [Hfile Hread'];
    [rewrite Hpath2, Hdisk; exact Hwr|].
  rewrite Hpath2 in Hfile. cbn [entry f' set_modified set_position f newCacheFile] in Hfile.
  rewrite Hdata2 in Hfile.
  destruct (destroyFile_frame closed f' w2) as (_ & Hmap3 & _ & Hdata3).
  assert (write_denied (disk (destroyFile closed f' w2)) = write_denied (disk w)) as Hwd.
  { rewrite destroyFile_disk. cbn [modified f' set_modified].
    unfold flushFile, write_back. cbn [modified f' set_modified negb].
    destruct (bool_decide _); cbn; rewrite Hdisk; reflexivity. }
  split_and!.
  - exact Hfile.
  - unfold file_seen. rewrite Hmap3.
    destruct (cacheMap (cache w2) !! path) as [e'|] eqn:Hp2.
    + apply Hsub in Hp2. rewrite Hmap in Hp2. injection Hp2 as <-.
      unfold deref. rewrite Hdata3. exact Hdata2.
    + split_and!.
      * intros Hnil. apply app_eq_nil in Hnil as [_ ->].
        rewrite Hsame in Hp2 by (cbn [length]; lia). congruence.
      * rewrite Hread', Hdisk. exact Hrd.
      * rewrite Hfile. reflexivity.
  - exact Hwd.
  - rewrite Hread', Hdisk. reflexivity.
  - eapply reachable_step;
      [|exists closed; apply (step_closeFile closed (Some f') w2)].
    eapply reachable_step; [exact Hr|]. exists written.
    eapply step_write; [|exact Hwrite].
    unfold cursor_in_bounds. rewrite Hsize. cbn. lia.
Qed.

Lemma writeFile_spec (opened written closed : Z) (filename : string)
    (content : list byte) (w : World) :
  reachable w → cacheMap (cache w) !! filename = None →
  filename ∉ write_denied (disk w) → filename ∉ read_denied (disk w) →
  Z.of_nat (length content) ≤ vector_max_size →
  ∃ w', writeFile opened written closed filename content w
        = Returns (Some (Z.of_nat (length content)), w') ∧
        files (disk w') !! filename
        = Some (mkFile content closed) ∧
        file_seen w' filename content ∧
        write_denied (disk w') = write_denied (disk w) ∧
        read_denied (disk w') = read_denied (disk w) ∧
        reachable w'.
Proof.
  intros Hr Hp Hwr Hrd Hmax.
  destruct (openFile_creates opened filename "w" w Hp eq_refl eq_refl)
    as (w1 & Hopen & Hmap & Hlen & Hdata & Hpath & Hdisk).
  rewrite (reachable_weak_this w Hr) in Hopen.
  assert (reachable w1) as Hr1
    by (eapply reachable_step; [exact Hr|]; exists opened; eapply step_openFile, Hopen).
  destruct (write_close_stores written closed "w" filename (length (heap w)) content [] w1)
    as (f' & w2 & Hwrite & Hfile & Hseen & Hwd & Hrd' & Hr3);
    [exact Hr1 | lia | rewrite Hmap; apply lookup_insert_eq | exact Hdata | exact Hpath
    | rewrite Hdisk; exact Hwr | rewrite Hdisk; exact Hrd | reflexivity
    | reflexivity | cbn [length]; lia |].
  unfold writeFile. rewrite Hopen. cbn [mbind outcome_bind].
  rewrite Hwrite. cbn [mbind outcome_bind].
  eexists. split; [reflexivity|].
  rewrite Hdisk in Hwd, Hrd'. split_and!; assumption.
Qed.

Lemma appendFile_spec (opened written closed : Z) (filename : string)
    (content d : list byte) (w : World) :
  reachable w → file_seen w filename d →
  filename ∉ write_denied (disk w) → filename ∉ read_denied (disk w) →
  Z.of_nat (length d) + Z.of_nat (length content) ≤ vector_max_size →
  ∃ w', appendFile opened written closed filename content w
        = Returns (Some (Z.of_nat (length content)), w') ∧
        files (disk w') !! filename
        = Some (mkFile (d ++ content)%list closed) ∧
        file_seen w' filename (d ++ content)%list ∧
        write_denied (disk w') = write_denied (disk w) ∧
        read_denied (disk w') = read_denied (disk w) ∧
        reachable w'.
Proof.
  intros Hr Hseen Hwr Hrd Hmax.
  destruct (open_sees opened filename "a+" w d Hr Hseen eq_refl)
    as (e & w1 & Hopen & Hlive & Hmap & Hdata & Hpath & Hdisk & Hr1).
  destruct (write_close_stores written closed "a+" filename e content d w1)
    as (f' & w2 & Hwrite & Hfile & Hseen' & Hwd & Hrd' & Hr3);
    [exact Hr1 | exact Hlive | exact Hmap | exact Hdata | exact Hpath
    | rewrite Hdisk; exact Hwr | rewrite Hdisk; exact Hrd | reflexivity
    | | exact Hmax |].
  { rewrite write_start_append by reflexivity.
    unfold data_size. cbn [entry newCacheFile]. rewrite Hdata. reflexivity. }
  unfold appendFile. rewrite Hopen. cbn [mbind outcome_bind].
  rewrite Hwrite. cbn [mbind outcome_bind].
  eexists. split; [reflexivity|].
  rewrite Hdisk in Hwd, Hrd'. split_and!; assumption.
Qed.

(** X17. [readFile] returns the bytes the cache holds for the path. From a
    state reached from a new cache, the command returns the whole buffer of
    the entry when the path is resident, whatever the backing file holds
    by now, and the whole content of the backing file when it is not (the
    file being readable and not empty); it reads them in chunks of 4096
    bytes and stops at the first read that returns 0. It leaves the disk
    as it was, and the same bytes are returned by the next [readFile]. *)
Theorem readFile_returns_file_seen (opened closed : Z) (filename : string) (w : World)
    (d : list byte) :
  reachable w → file_seen w filename d → Z.of_nat (length d) ≤ vector_max_size →
  ∃ w', readFile opened closed filename w = Returns (Some d, w') ∧
        disk w' = disk w ∧
        ∀ opened' closed',
          ∃ w'', readFile opened' closed' filename w' = Returns (Some d, w'').
Proof.
  intros Hr Hseen Hmax.
  destruct (readFile_spec opened closed filename w d Hr Hseen Hmax)
    as (w' & Hread & Hseen' & Hdisk & Hr').
  exists w'. split; [exact Hread|]. split; [exact Hdisk|].
  intros opened' closed'.
  destruct (readFile_spec opened' closed' filename w' d Hr' Hseen' Hmax)
    as (w'' & Hread' & _).
  eauto.
Qed.

Lemma fresh_world_reachable : reachable fresh_world.
Proof. exists 1048576, hello_disk. apply rtc_refl. Qed.

Lemma readFile_returns_file_seen_witness :
  ∃ w', readFile 0 1 "a.txt" fresh_world = Returns (Some hello, w') ∧
        disk w' = disk fresh_world.
Proof.
  destruct (readFile_returns_file_seen 0 1 "a.txt" fresh_world hello)
    as (w' & Hread & Hdisk & _).
  - apply fresh_world_reachable.
  - unfold file_seen.
    replace (cacheMap (cache fresh_world) !! "a.txt") with (@None nat)
      by (vm_compute; reflexivity).
    split; [discriminate|]. split; [vm_compute; intros H; discriminate|].
    vm_compute. reflexivity.
  - vm_compute. discriminate.
  - exists w'. split; [exact Hread | exact Hdisk].
Defined.

(** X18. [writeFile] followed by [readFile] gives the content back. For a
    path that is not resident and can be written and read, [writeFile]
    reports the length of the content as the count written and leaves
    exactly the content in the backing file (it is written when the handle
    is closed); a [readFile] of the path after it returns the content, from
    the cache when the entry is still there and from the file when the
    write has evicted its own entry. *)
Theorem writeFile_then_readFile (opened written closed opened' closed' : Z)
    (filename : string) (content : list byte) (w : World) :
  reachable w → cacheMap (cache w) !! filename = None →
  filename ∉ write_denied (disk w) → filename ∉ read_denied (disk w) →
  Z.of_nat (length content) ≤ vector_max_size →
  ∃ w' w'',
    writeFile opened written closed filename content w
    = Returns (Some (Z.of_nat (length content)), w') ∧
    files (disk w') !! filename
    = Some (mkFile content closed) ∧
    readFile opened' closed' filename w' = Returns (Some content, w'').
Proof.
  intros Hr Hp Hwr Hrd Hmax.
  destruct (writeFile_spec opened written closed filename content w Hr Hp Hwr Hrd Hmax)
    as (w' & Hwrite & Hfile & Hseen & _ & _ & Hr').
  destruct (readFile_spec opened' closed' filename w' content Hr' Hseen Hmax)
    as (w'' & Hread & _).
  eauto.
Qed.

Lemma writeFile_then_readFile_witness :
  ∃ w' w'',
    writeFile 0 1 2 "b.txt" hello fresh_world = Returns (Some 5, w') ∧
    files (disk w') !! "b.txt" = Some (mkFile hello 2) ∧
    readFile 3 4 "b.txt" w' = Returns (Some hello, w'').
Proof.
  apply (writeFile_then_readFile 0 1 2 3 4 "b.txt" hello fresh_world).
  - apply fresh_world_reachable.
  - vm_compute. reflexivity.
  - vm_compute. intros H. discriminate.
  - vm_compute. intros H. discriminate.
  - vm_compute. discriminate.
Defined.

(** X19. [appendFile] adds the content after the bytes the cache holds for
    the path. When the path can be written and read, the command reports
    the length of the content as the count written, and the backing file
    afterwards holds the bytes that were seen before followed by the
    content; a [readFile] after it returns the same bytes. In particular
    [appendFile] after [writeFile] leaves the two contents one after the
    other. *)
Theorem appendFile_appends (opened written closed opened' closed' : Z)
    (filename : string) (content d : list byte) (w : World) :
  reachable w → file_seen w filename d →
  filename ∉ write_denied (disk w) → filename ∉ read_denied (disk w) →
  Z.of_nat (length d) + Z.of_nat (length content) ≤ vector_max_size →
  ∃ w' w'',
    appendFile opened written closed filename content w
    = Returns (Some (Z.of_nat (length content)), w') ∧
    files (disk w') !! filename
    = Some (mkFile (d ++ content)%list closed) ∧
    readFile opened' closed' filename w' = Returns (Some (d ++ content)%list, w'').
Proof.
  intros Hr Hseen Hwr Hrd Hmax.
  destruct (appendFile_spec opened written closed filename content d w Hr Hseen Hwr Hrd
              Hmax) as (w' & Happ & Hfile & Hseen' & _ & _ & Hr').
  destruct (readFile_spec opened' closed' filename w' (d ++ content)%list Hr' Hseen')
    as (w'' & Hread & _); [rewrite length_app; lia|].
  eauto.
Qed.

Lemma appendFile_appends_witness :
  ∃ w' w'',
    appendFile 1 2 3 "a.txt" hello loaded_world = Returns (Some 5, w') ∧
    files (disk w') !! "a.txt"
    = Some (mkFile (hello ++ hello)%list 3) ∧
    readFile 4 5 "a.txt" w' = Returns (Some (hello ++ hello)%list, w'').
Proof.
  apply (appendFile_appends 1 2 3 4 5 "a.txt" hello hello loaded_world).
  - apply loaded_world_reachable.
  - unfold file_seen.
    replace (cacheMap (cache loaded_world) !! "a.txt") with (Some 0%nat)
      by (vm_compute; reflexivity).
    vm_compute. reflexivity.
  - vm_compute. intros H. discriminate.
  - vm_compute. intros H. discriminate.
  - vm_compute. discriminate.
Defined.

(** ** What an open counts *)

(** X20. Every open is counted once, as a hit or as a miss. An [openFile]
    that finds the path in the map adds one to the hits and nothing else;
    any other adds one to the misses, and one to the disk reads exactly
    when it returns a handle on an entry it has loaded from the backing
    file (not when it creates an empty entry for a write mode, nor when
    it returns null). No open writes to the disk. The handle an open
    returns is at position 0 and unmodified, on the entry the map now holds
    for the path, and the path is at the front of the LRU list. *)
Theorem openFile_counts_once (now : Z) (path mode : string) (w w' : World)
    (r : option CacheFile) :
  openFile now path mode w = Returns (r, w') →
  let hit := bool_decide (is_Some (cacheMap (cache w) !! path)) in
  let loaded := negb hit && bool_decide (is_Some r) && negb (contains "w" mode) in
  cacheHits (cache w')
  = (if hit then size_t_wrap (cacheHits (cache w) + 1) else cacheHits (cache w)) ∧
  cacheMisses (cache w')
  = (if hit then cacheMisses (cache w) else size_t_wrap (cacheMisses (cache w) + 1)) ∧
  diskReads (cache w')
  = (if loaded then size_t_wrap (diskReads (cache w) + 1) else diskReads (cache w)) ∧
  diskWrites (cache w') = diskWrites (cache w) ∧
  disk w' = disk w ∧
  ∀ f, r = Some f →
       f = newCacheFile (entry f) mode (weak_this (cache w)) ∧
       cacheMap (cache w') !! path = Some (entry f) ∧
       head (lruList (cache w')) = Some path.
Proof.
  intros Hopen. cbv zeta. unfold openFile in Hopen.
  destruct (cacheMap (cache w) !! path) as [e|] eqn:Hp.
  { injection Hopen as <- <-.
    rewrite (bool_decide_eq_true_2 (is_Some (Some e))) by eauto. cbn.
    split_and!; try done. intros f [= <-]. done. }
  rewrite (bool_decide_eq_false_2 (is_Some None)) by (intros [? ?]; done).
  cbn [negb andb].
  destruct (_ && _).
  { injection Hopen as <- <-.
    rewrite (bool_decide_eq_false_2 (is_Some None)) by (intros [? ?]; done). cbn.
    split_and!; done. }
  destruct (contains "w" mode).
  - injection Hopen as <- <-. rewrite andb_false_r. cbn.
    split_and!; try done. intros f [= <-]. cbn. rewrite lookup_insert_eq. done.
  - rewrite andb_true_r. revert Hopen. unfold loadFileIntoCache.
    destruct (fileSize _ =? 0).
    { intros [= <- <-].
      rewrite (bool_decide_eq_false_2 (is_Some None)) by (intros [? ?]; done). cbn.
      split_and!; done. }
    returned as w1 eqn:Hroom.
    apply makeRoomInCache_room_made in Hroom
      as [(Hh & Hm & Hdr & Hdw & _ & Hweak) Hdisk _ _ _].
    destruct (bool_decide (path ∈ _)).
    { intros [= <- <-].
      rewrite (bool_decide_eq_false_2 (is_Some None)) by (intros [? ?]; done).
      cbn in *. split_and!; done. }
    cbn. rewrite lookup_insert_eq. cbn. intros [= <- <-].
    rewrite (bool_decide_eq_true_2 (is_Some (Some _))) by eauto.
    cbn in *. rewrite Hh, Hm, Hdr, Hdw, Hdisk, Hweak, lookup_insert_eq.
    split_and!; try done. intros f [= <-]. done.
Qed.

Lemma openFile_counts_once_witness :
  cacheHits (cache loaded_world) = 0 ∧ cacheMisses (cache loaded_world) = 1 ∧
  diskReads (cache loaded_world) = 1 ∧ diskWrites (cache loaded_world) = 0 ∧
  head (lruList (cache loaded_world)) = Some "a.txt".
Proof.
  destruct (openFile_counts_once 0 "a.txt" "r" fresh_world loaded_world
              (Some (newCacheFile 0 "r" true)))
    as (Hh & Hm & Hdr & Hdw & _ & Hf); [vm_compute; reflexivity|].
  destruct (Hf _ eq_refl) as (_ & _ & Hlru).
  split; [exact Hh|]. split; [exact Hm|]. split; [exact Hdr|].
  split; [exact Hdw | exact Hlru].
Defined.

(** ** Handles after an eviction *)

Lemma read_same_buffer (size count : Z) (f : CacheFile) (w w' : World) :
  data (deref w' (entry f)) = data (deref w (entry f)) →
  read size count f w' = read size count f w.
Proof. intros Hd. unfold read, data_size. rewrite Hd. reflexivity. Qed.

(** X21. An eviction does not invalidate a handle. Whatever
    [makeRoomInCache] evicts, a handle that was open before reads the same
    bytes afterwards, seeks to the same positions, and its flush writes the
    same bytes to the same file: the entry it points to stays alive with
    its buffer and its metadata, though it may have left the map. *)
Theorem eviction_keeps_handles (now requiredSize : Z) (w w' : World) (f : CacheFile) :
  makeRoomInCache now requiredSize w = Returns w' →
  (∀ size count, read size count f w' = read size count f w) ∧
  (∀ offset origin, seek offset origin f w' = seek offset origin f w) ∧
  (∀ t, (flushFile t f w').1 = (flushFile t f w).1 ∧
        disk (flushFile t f w').2 = disk (flushFile t f w).2).
Proof.
  intros Hroom.
  apply makeRoomInCache_room_made in Hroom as [_ Hdisk [_ Hsame] _ _].
  destruct (Hsame (entry f)) as (Hmeta & _ & Hdata).
  split_and!.
  - intros size count. apply read_same_buffer. exact Hdata.
  - intros offset origin. unfold seek, data_size, deref. rewrite Hdata. reflexivity.
  - intros t. unfold flushFile, deref. rewrite Hmeta, Hdata, Hdisk.
    destruct (negb (modified f)); [done|].
    destruct (write_back _ _ _ _); [destruct (cachePtr f)|]; done.
Qed.

Lemma eviction_keeps_handles_witness :
  ∃ w', makeRoomInCache 1 11 small_created = Returns w' ∧
        cacheMap (cache w') = ∅ ∧
        read 1 5 reader w' = read 1 5 reader small_created.
Proof.
  eexists. split; [apply small_created_makeRoom|]. split; [vm_compute; reflexivity|].
  apply (eviction_keeps_handles 1 11 small_created _ reader (small_created_makeRoom)).
Defined.

(** ** Opening a path with nothing to load *)

(** X22. A file that is missing or empty cannot be opened without 'w'. For a
    path that is not resident and whose backing file does not exist or has
    no bytes, an [openFile] whose mode has no 'w' returns null, whatever
    else the mode holds: an append mode does not create the file, and an
    existing empty file cannot be read. The call counts one miss and
    changes nothing else, and the commands [readFile] and [appendFile]
    report that the file could not be opened. *)
Theorem openFile_nothing_to_load (now : Z) (path mode : string) (w : World) :
  cacheMap (cache w) !! path = None → contains "w" mode = false →
  default [] (content <$> files (disk w) !! path) = [] →
  let w' := with_cache (λ c, set_cacheMisses (size_t_wrap (cacheMisses c + 1)) c) w in
  openFile now path mode w = Returns (None, w') ∧
  (∀ closed, readFile now closed path w = Returns (None, w')) ∧
  (∀ written closed content,
     appendFile now written closed path content w = Returns (None, w')).
Proof.
  intros Hp Hw Hempty w'.
  assert (∀ mode', contains "w" mode' = false →
                   openFile now path mode' w = Returns (None, w')) as Hopen.
  { intros mode' Hw'. unfold openFile. rewrite Hp, Hw'. fold w'.
    destruct (_ && _); [reflexivity|].
    unfold loadFileIntoCache, getFileMetadata.
    change (disk w') with (disk w).
    destruct (files (disk w) !! path) as [file|]; cbn in Hempty |- *;
      [rewrite Hempty|]; reflexivity. }
  split; [apply Hopen, Hw|]. split.
  - intros closed. unfold readFile. rewrite Hopen by reflexivity. reflexivity.
  - intros written closed content. unfold appendFile.
    rewrite Hopen by reflexivity. reflexivity.
Qed.

Lemma openFile_nothing_to_load_witness :
  openFile 0 "new.log" "a" fresh_world
  = Returns (None,
             with_cache (λ c, set_cacheMisses (size_t_wrap (cacheMisses c + 1)) c)
               fresh_world).
Proof.
  apply (openFile_nothing_to_load 0 "new.log" "a" fresh_world);
    vm_compute; reflexivity.
Defined.

(** ** Where the size accounting is kept *)

Lemma loaded_world_accounted : map_well_formed loaded_world ∧ accounted loaded_world.
Proof.
  destruct (initial_world_accounted 1048576 hello_disk) as [Hacc Hwf].
  destruct (openFile_accounted 0 "a.txt" "r" fresh_world loaded_world
              (Some (newCacheFile 0 "r" true)) Hwf Hacc) as [Hacc' Hwf'];
    [vm_compute; reflexivity|].
  split; assumption.
Qed.

(** X23. Every operation keeps the size accounting, but for one kind of
    write. From a state in which [currentCacheSize] is the sum of the buffer
    lengths of the resident entries (as a [size_t]), it is so again after
    [openFile], [evictFile], a handle's flush, [closeFile], the flush of the
    cache, [resizeCache] and [setFileTypePriority], and after a [write]
    whose entry is still resident when it returns or whose buffer has not
    changed its length. *)
Theorem size_accounting_preserved (w : World) :
  map_well_formed w → accounted w →
  (∀ now path mode r w', openFile now path mode w = Returns (r, w') → accounted w') ∧
  (∀ path, accounted (evictFile path w)) ∧
  (∀ now f, accounted (flushFile now f w).2) ∧
  (∀ now file, accounted (closeFile now file w).2) ∧
  (∀ now, accounted (flush now w)) ∧
  (∀ now newMaxSize w', resizeCache now newMaxSize w = Returns w' → accounted w') ∧
  (∀ now extension priority, accounted (setFileTypePriority now extension priority w)) ∧
  (∀ now buffer size count f n f' w',
     cursor_in_bounds w f →
     write now buffer size count f w = Returns (n, f', w') →
     resident w' (entry f) ∨ data_size w' f = data_size w f →
     accounted w').
Proof.
  intros Hwf Hacc. split_and!.
  - intros now path mode r w' Hopen.
    apply (openFile_accounted now path mode w w' r Hwf Hacc Hopen).
  - intros path. apply evictFile_accounted, Hacc.
  - intros now f. destruct (flushFile_cache_frame now f w) as [Hc Hm].
    apply (accounted_same_resident w); [exact Hc | exact Hm | | exact Hacc].
    intros p e _. rewrite flushFile_heap. reflexivity.
  - intros now file. apply (closeFile_accounted now file w Hwf Hacc).
  - intros now. apply (flush_accounted now w Hwf Hacc).
  - intros now newMaxSize w' Hresize.
    apply (resizeCache_accounted now newMaxSize w w' Hwf Hacc Hresize).
  - intros now extension priority.
    apply (setFileTypePriority_accounted now extension priority w Hwf Hacc).
  - intros now buffer size count f n f' w' Hc Hwrite Hres.
    apply (write_accounted now buffer size count f f' w w' n Hwf Hacc Hc Hwrite Hres).
Qed.

Lemma size_accounting_preserved_witness :
  accounted (flush 1 loaded_world) ∧ accounted (evictFile "a.txt" loaded_world) ∧
  accounted (closeFile 2 (Some reader) loaded_world).2.
Proof.
  destruct loaded_world_accounted as [Hwf Hacc].
  destruct (size_accounting_preserved loaded_world Hwf Hacc)
    as (_ & Hevict & _ & Hclose & Hflush & _).
  split; [apply Hflush|]. split; [apply Hevict | apply Hclose].
Defined.

(** * The LRU cache of the tests *)

Lemma LRUCache_bytes_perm (l l' : list (string * LRUCache.CacheItem)) :
  l ≡ₚ l' →
  foldr (λ kv acc, Z.of_nat (length (LRUCache.data kv.2)) + acc) 0 l
  = foldr (λ kv acc, Z.of_nat (length (LRUCache.data kv.2)) + acc) 0 l'.
Proof.
  intros Hp. induction Hp as [|kv l l' _ IH|kv kv' l|l1 l2 l3 _ IH1 _ IH2].
  - reflexivity.
  - cbn. rewrite IH. reflexivity.
  - cbn. lia.
  - congruence.
Qed.

Lemma LRUCache_bytes_nonneg (m : gmap string LRUCache.CacheItem) : 0 ≤ LRUCache.bytes m.
Proof.
  unfold LRUCache.bytes. induction (map_to_list m) as [|kv l IH]; cbn; lia.
Qed.

Lemma LRUCache_bytes_delete (m : gmap string LRUCache.CacheItem) (p : string)
    (item : LRUCache.CacheItem) :
  m !! p = Some item →
  LRUCache.bytes m
  = Z.of_nat (length (LRUCache.data item)) + LRUCache.bytes (delete p m).
Proof.
  intros Hp. unfold LRUCache.bytes.
  rewrite <- (LRUCache_bytes_perm _ _ (map_to_list_delete m p item Hp)). reflexivity.
Qed.

Lemma LRUCache_bytes_insert (m : gmap string LRUCache.CacheItem) (p : string)
    (item : LRUCache.CacheItem) :
  m !! p = None →
  LRUCache.bytes (<[p := item]> m)
  = Z.of_nat (length (LRUCache.data item)) + LRUCache.bytes m.
Proof.
  intros Hp. unfold LRUCache.bytes.
  rewrite (LRUCache_bytes_perm _ _ (map_to_list_insert m p item Hp)). reflexivity.
Qed.

Lemma LRUCache_evictFromBack (fileSize maxSize : Z) (back : list string) (current : Z)
    (m : gmap string LRUCache.CacheItem) :
  0 ≤ fileSize ≤ vector_max_size → maxSize ≤ vector_max_size →
  NoDup back → (∀ p, p ∈ back ↔ is_Some (m !! p)) →
  current = LRUCache.bytes m → current ≤ maxSize →
  ∃ back' current' m',
    LRUCache.evictFromBack fileSize maxSize back current m = (back', current', m') ∧
    NoDup back' ∧ (∀ p, p ∈ back' ↔ is_Some (m' !! p)) ∧
    current' = LRUCache.bytes m' ∧ current' ≤ maxSize ∧
    (current' + fileSize ≤ maxSize ∨ back' = []) ∧
    (∀ p, m !! p = None → m' !! p = None).
Proof.
  intros Hfs Hmax. unfold vector_max_size in *.
  revert current m. induction back as [|v rest IH]; intros current m Hnd Hkeys Hcur Hle.
  - exists [], current, m. cbn. split_and!; auto.
  - pose proof (LRUCache_bytes_nonneg m) as Hpos. cbn [LRUCache.evictFromBack].
    rewrite size_t_wrap_small by lia.
    destruct (current + fileSize >? maxSize) eqn:Hover.
    + apply NoDup_cons in Hnd as [Hfresh Hnd].
      destruct (proj1 (Hkeys v)) as [item Hitem]; [left|].
      pose proof (LRUCache_bytes_delete m v item Hitem) as Hdel.
      pose proof (LRUCache_bytes_nonneg (delete v m)) as Hpos'.
      assert (LRUCache.item_size m v = Z.of_nat (length (LRUCache.data item))) as Hsize
        by (unfold LRUCache.item_size; rewrite Hitem; reflexivity).
      rewrite Hsize, size_t_wrap_small by lia.
      destruct (IH (current - Z.of_nat (length (LRUCache.data item))) (delete v m))
        as (back' & current' & m' & Hloop & Hnd' & Hkeys' & Hcur' & Hle' & Hdone & Hnone);
        [exact Hnd | | lia | lia |].
      { intros p. destruct (decide (p = v)) as [->|Hne].
        - rewrite lookup_delete_eq. split; [done | intros [? ?]; done].
        - rewrite lookup_delete_ne by done. rewrite <- Hkeys, elem_of_cons.
          split; [auto | intros [?|?]; done]. }
      exists back', current', m'. split_and!; try assumption.
      intros p Hp. apply Hnone. apply lookup_delete_None. auto.
    + rewrite Z.gtb_ltb in Hover. apply Z.ltb_ge in Hover.
      exists (v :: rest), current, m. split_and!; auto.
Qed.

Lemma LRUCache_accessFile_consistent (fsys : FileSystem) (path : string)
    (c : LRUCache.t) :
  (∀ q file, files fsys !! q = Some file →
             Z.of_nat (length (content file)) ≤ vector_max_size) →
  LRUCache.maxCacheSize c ≤ vector_max_size →
  LRUCache.consistent c →
  LRUCache.consistent (LRUCache.accessFile fsys path c).2 ∧
  LRUCache.maxCacheSize (LRUCache.accessFile fsys path c).2 = LRUCache.maxCacheSize c.
Proof.
  intros Hfiles Hmax (Hnd & Hkeys & Hcur & Hle). unfold LRUCache.accessFile.
  destruct (LRUCache.cache c !! path) as [item|] eqn:Hp.
  { cbn. split; [|reflexivity]. unfold LRUCache.consistent. cbn.
    destruct (lru_touch path (LRUCache.lruList c) (LRUCache.cache c) (LRUCache.cache c))
      as [Hnd' Hkeys']; [done | by rewrite Hp | done|].
    split_and!; assumption. }
  destruct (files fsys !! path) as [file|] eqn:Hfile;
    [|cbn; split; [|reflexivity]; unfold LRUCache.consistent; cbn; split_and!; assumption].
  destruct (bool_decide (path ∈ read_denied fsys));
    [cbn; split; [|reflexivity]; unfold LRUCache.consistent; cbn; split_and!; assumption|].
  pose proof (Hfiles path file Hfile) as Hsize.
  destruct (LRUCache_evictFromBack (Z.of_nat (length (content file)))
              (LRUCache.maxCacheSize c) (reverse (LRUCache.lruList c))
              (LRUCache.currentCacheSize c) (LRUCache.cache c))
    as (back' & current' & m' & Hloop & Hnd' & Hkeys' & Hcur' & Hle' & Hdone & Hnone);
    [lia | exact Hmax | by rewrite reverse_Permutation | | exact Hcur | exact Hle |].
  { intros p. rewrite elem_of_reverse. apply Hkeys. }
  rewrite Hloop. pose proof (LRUCache_bytes_nonneg m') as Hpos.
  unfold vector_max_size in *.
  destruct (Z.of_nat (length (content file)) <=? LRUCache.maxCacheSize c) eqn:Hfits.
  - apply Z.leb_le in Hfits. cbn. split; [|reflexivity].
    unfold LRUCache.consistent. cbn.
    rewrite size_t_wrap_small by lia.
    rewrite LRUCache_bytes_insert by (apply Hnone, Hp). cbn.
    assert (path ∉ reverse back') as Hfresh.
    { rewrite elem_of_reverse. intros Hin. apply Hkeys' in Hin as [x Hx].
      rewrite (Hnone path Hp) in Hx. discriminate. }
    assert (NoDup (path :: reverse back')) as Hnd''
      by (apply NoDup_cons; split; [exact Hfresh | by rewrite reverse_Permutation]).
    assert (∀ p, p ∈ path :: reverse back'
                 ↔ is_Some (<[path := LRUCache.mkCacheItem path (content file)]> m' !! p))
      as Hkeys''.
    { intros p. rewrite elem_of_cons, elem_of_reverse.
      destruct (decide (p = path)) as [->|Hne].
      - rewrite lookup_insert_eq. split; [eauto | auto].
      - rewrite lookup_insert_ne by done. rewrite Hkeys'.
        split; [intros [?|?]; done | auto]. }
    split_and!; [exact Hnd'' | exact Hkeys'' | lia |].
    destruct Hdone as [Hroom | Hempty]; [lia|].
    assert (m' = ∅) as ->.
    { apply map_empty. intros p. destruct (m' !! p) eqn:Hmp; [|done].
      assert (p ∈ back') as Hin by (apply Hkeys'; eauto).
      rewrite Hempty in Hin. by apply elem_of_nil in Hin. }
    unfold LRUCache.bytes in Hcur'. rewrite map_to_list_empty in Hcur'. cbn in Hcur'. lia.
  - cbn. split; [|reflexivity]. unfold LRUCache.consistent. cbn.
    split_and!; [by rewrite reverse_Permutation | | exact Hcur' | exact Hle'].
    intros p. rewrite elem_of_reverse. apply Hkeys'.
Qed.

(** X24. The LRU cache of the tests never exceeds its bound. Unlike
    [ContentAwareCache], which raises [maxCacheSize] when eviction does not
    free enough, [LRUCache] keeps the bound it was built with: after any
    sequence of [accessFile] calls its size is the sum of the sizes of the
    cached items and at most [maxCacheSize] (a file larger than the bound
    is read and not kept), and its LRU list holds exactly the cached
    paths, each once. *)
Theorem LRUCache_respects_bound (maxSize : Z) (c : LRUCache.t) :
  0 ≤ maxSize ≤ vector_max_size →
  rtc LRUCache.step (LRUCache.new maxSize) c →
  LRUCache.maxCacheSize c = maxSize ∧
  0 ≤ LRUCache.currentCacheSize c ≤ maxSize ∧
  LRUCache.currentCacheSize c = LRUCache.bytes (LRUCache.cache c) ∧
  NoDup (LRUCache.lruList c) ∧
  ∀ p, p ∈ LRUCache.lruList c ↔ is_Some (LRUCache.cache c !! p).
Proof.
  intros [Hlo Hhi] Hrun.
  assert (LRUCache.consistent c ∧ LRUCache.maxCacheSize c = maxSize) as [Hc Hmax].
  { revert c Hrun. apply rtc_ind_r; [|intros c1 c2 _ Hstep [IH Hmax]].
    - split; [|reflexivity]. unfold LRUCache.consistent. cbn.
      split_and!; [apply NoDup_nil_2 | | reflexivity | lia].
      intros p. rewrite lookup_empty.
      split; [intros Hin; by apply elem_of_nil in Hin | intros [? ?]; done].
    - destruct Hstep as (fsys & path & Hfiles & ->).
      destruct (LRUCache_accessFile_consistent fsys path c1 Hfiles) as [Hc' Hmax'];
        [lia | exact IH|].
      split; [exact Hc' | lia]. }
  destruct Hc as (Hnd & Hkeys & Hcur & Hle).
  pose proof (LRUCache_bytes_nonneg (LRUCache.cache c)).
  split_and!; (assumption || lia).
Qed.

Lemma LRUCache_sample_run :
  rtc LRUCache.step (LRUCache.new 10)
    (LRUCache.accessFile hello_disk "a.txt" (LRUCache.new 10)).2.
Proof.
  apply rtc_once. exists hello_disk, "a.txt". split; [|reflexivity].
  intros q file Hq. unfold hello_disk in Hq. cbn [files] in Hq.
  apply lookup_singleton_Some in Hq as [_ <-].
  vm_compute. discriminate.
Qed.

Lemma LRUCache_respects_bound_witness :
  let c := (LRUCache.accessFile hello_disk "a.txt" (LRUCache.new 10)).2 in
  LRUCache.maxCacheSize c = 10 ∧ 0 ≤ LRUCache.currentCacheSize c ≤ 10.
Proof.
  destruct (LRUCache_respects_bound 10
              (LRUCache.accessFile hello_disk "a.txt" (LRUCache.new 10)).2)
    as (Hmax & Hcur & _); [vm_compute; split; discriminate | apply LRUCache_sample_run|].
  split; [exact Hmax | exact Hcur].
Defined.

Lemma LRUCache_evictFromBack_victims (fileSize maxSize : Z) (back : list string)
    (current : Z) (m : gmap string LRUCache.CacheItem) :
  ∃ victims,
    back = (victims ++ (LRUCache.evictFromBack fileSize maxSize back current m).1.1)%list ∧
    ∀ p, (LRUCache.evictFromBack fileSize maxSize back current m).2 !! p
         = if bool_decide (p ∈ victims) then None else m !! p.
Proof.
  revert current m. induction back as [|v rest IH]; intros current m.
  - exists []. cbn. split; [reflexivity|]. intros p.
    rewrite bool_decide_eq_false_2; [reflexivity|]. apply not_elem_of_nil.
  - cbn [LRUCache.evictFromBack].
    destruct (size_t_wrap (current + fileSize) >? maxSize).
    + destruct (IH (size_t_wrap (current - LRUCache.item_size m v)) (delete v m))
        as (victims & Hback & Hmap).
      exists (v :: victims). split; [cbn; f_equal; exact Hback|].
      intros p. rewrite Hmap.
      destruct (decide (p = v)) as [->|Hne].
      * rewrite (bool_decide_eq_true_2 (v ∈ v :: victims)) by left.
        rewrite lookup_delete_eq. destruct (bool_decide _); reflexivity.
      * rewrite lookup_delete_ne by done.
        rewrite (bool_decide_ext (p ∈ v :: victims) (p ∈ victims)); [reflexivity|].
        rewrite elem_of_cons. split; [intros [?|?]; done | auto].
    + exists []. cbn. split; [reflexivity|]. intros p.
      rewrite bool_decide_eq_false_2; [reflexivity|]. apply not_elem_of_nil.
Qed.

(** X25. The LRU cache evicts the least recently used files. On a miss of a
    file that can be read, [accessFile] returns [true] and drops a tail of
    the LRU list, the paths used least recently, together with their items:
    the paths it keeps are a front part of the old list in the same order,
    and every item it keeps is unchanged. When the file is not larger than
    the bound it is then cached with the content of the backing file and
    put at the front of the list; a larger file is not cached. *)
Theorem LRUCache_evicts_least_recent (fsys : FileSystem) (path : string)
    (file : File) (c : LRUCache.t) :
  LRUCache.cache c !! path = None →
  files fsys !! path = Some file → path ∉ read_denied fsys →
  let c' := (LRUCache.accessFile fsys path c).2 in
  let fits := Z.of_nat (length (content file)) <=? LRUCache.maxCacheSize c in
  (LRUCache.accessFile fsys path c).1 = true ∧
  ∃ kept victims,
    LRUCache.lruList c = (kept ++ victims)%list ∧
    LRUCache.lruList c' = (if fits then path :: kept else kept) ∧
    (∀ p, p ≠ path →
          LRUCache.cache c' !! p
          = if bool_decide (p ∈ victims) then None else LRUCache.cache c !! p) ∧
    LRUCache.cache c' !! path
    = (if fits then Some (LRUCache.mkCacheItem path (content file)) else None).
Proof.
  intros Hp Hfile Hread. cbv zeta. unfold LRUCache.accessFile.
  rewrite Hp, Hfile. rewrite bool_decide_eq_false_2 by exact Hread.
  destruct (LRUCache_evictFromBack_victims (Z.of_nat (length (content file)))
              (LRUCache.maxCacheSize c) (reverse (LRUCache.lruList c))
              (LRUCache.currentCacheSize c) (LRUCache.cache c))
    as (victims & Hback & Hmap).
  destruct (LRUCache.evictFromBack _ _ _ _ _) as [[back' current'] m'].
  cbn [fst snd] in Hback, Hmap.
  assert (LRUCache.lruList c = (reverse back' ++ reverse victims)%list) as Hlru.
  { rewrite <- reverse_app, <- Hback, reverse_involutive. reflexivity. }
  assert (∀ p, bool_decide (p ∈ reverse victims) = bool_decide (p ∈ victims)) as Hrev
    by (intros p; apply bool_decide_ext, elem_of_reverse).
  destruct (_ <=? _); cbn; (split; [reflexivity|]);
    exists (reverse back'), (reverse victims);
    (split; [exact Hlru|]); (split; [reflexivity|]); split.
  - intros p Hne. rewrite lookup_insert_ne by done. rewrite Hrev. apply Hmap.
  - apply lookup_insert_eq.
  - intros p Hne. rewrite Hrev. apply Hmap.
  - rewrite Hmap, Hp. destruct (bool_decide _); reflexivity.
Qed.

Lemma LRUCache_evicts_least_recent_witness :
  let c1 := (LRUCache.accessFile two_files_disk "a.txt" (LRUCache.new 10)).2 in
  let c' := (LRUCache.accessFile two_files_disk "b.txt" c1).2 in
  LRUCache.lruList c1 = ["a.txt"] ∧
  LRUCache.lruList c' = ["b.txt"] ∧
  LRUCache.cache c' !! "a.txt" = None ∧
  LRUCache.cache c' !! "b.txt"
  = Some (LRUCache.mkCacheItem "b.txt" (replicate 8 "x"%byte)).
Proof.
  intros c1 c'.
  assert (LRUCache.lruList c1 = ["a.txt"]) as Hc1 by (vm_compute; reflexivity).
  assert (LRUCache.lruList c' = ["b.txt"]) as Hc' by (vm_compute; reflexivity).
  destruct (LRUCache_evicts_least_recent two_files_disk "b.txt"
              {| content := replicate 8 "x"%byte; written_at := 0 |} c1)
    as (_ & kept & victims & Hold & Hnew & Hothers & Hitem);
    [vm_compute; reflexivity | vm_compute; reflexivity
    | vm_compute; intros H; discriminate|].
  cbv zeta in Hnew, Hothers, Hitem. fold c' in Hnew, Hothers, Hitem.
  replace (Z.of_nat (length (content {| content := replicate 8 "x"%byte;
                                         written_at := 0 |}))
           <=? LRUCache.maxCacheSize c1) with true in Hnew, Hitem
    by (vm_compute; reflexivity).
  rewrite Hc' in Hnew. injection Hnew as Hkept.
  rewrite Hc1, <- Hkept in Hold. cbn [app] in Hold.
  split; [exact Hc1|]. split; [exact Hc'|]. split; [|exact Hitem].
  rewrite (Hothers "a.txt") by discriminate.
  rewrite <- Hold. rewrite bool_decide_eq_true_2 by left. reflexivity.
Defined.
